(** * The sym equation compiler: renderer, materializer and MSGPROC allocator

    A shallow embedding of the code generator of the sym tool
    ([src/default.c], [src/lang/python2.c], [src/lang/html.c]) together
    with the properties its specification states about it.

    Conventions of the embedding.
    - C strings are [string]; [strlen] is [String.length].
    - C [int] values are [Z], counted without bound; the code never relies
      on wrap-around.  Where a property depends on the range of [int]
      (the running lengths of the MSGPROC vectors), the additions are
      given a second time as the machine makes them ([int_wrap]).
    - A null [Node*] is [None].
    - A call that ends the process ([FAULT], [fatal_error], [msg_error])
      is the result [Fatal msg]; nothing runs after it.
    - Debug-only code ([DBG] blocks, [validate], [xcheck]) and memory
      management ([free], [freelist]) have no counterpart. *)

From Stdlib Require Import ZArith List String Ascii Bool Lia Arith.
From Stdlib Require Import DecimalString Sorted.
From Equations Require Import Equations.
Import ListNotations.
Local Open Scope string_scope.
Local Open Scope list_scope.

Set Implicit Arguments.

(** ** Results of fallible code *)

Inductive Res (A : Type) : Type :=
| Ok (a : A)
| Fatal (msg : string).
Arguments Ok {A} a.
Arguments Fatal {A} msg.

Definition rbind {A B} (r : Res A) (k : A -> Res B) : Res B :=
  match r with
  | Ok a => k a
  | Fatal m => Fatal m
  end.

Declare Scope res_scope.
Delimit Scope res_scope with res.
Notation "x <- r ;; k" := (rbind r (fun x => k))
  (at level 61, r at next level, right associativity) : res_scope.

Definition is_ok {A} (r : Res A) : bool :=
  match r with Ok _ => true | Fatal _ => false end.

(** The message used where the C code would dereference a null pointer. *)
Definition NULL_DEREF : string := "<null pointer dereference>".

(** ** Expression trees (nodes.h) *)

Module Nodes.

Inductive Nodetype : Set :=
| nul | add | sub | mul | dvd | neg | pow | log | exp | lag | led
| sum | prd | nam | num | equ | dom | lst.

Definition Nodetype_eqb (a b : Nodetype) : bool :=
  match a, b with
  | nul, nul | add, add | sub, sub | mul, mul | dvd, dvd | neg, neg
  | pow, pow | log, log | exp, exp | lag, lag | led, led | sum, sum
  | prd, prd | nam, nam | num, num | equ, equ | dom, dom | lst, lst => true
  | _, _ => false
  end.

Definition all_types : list Nodetype :=
  [nul; add; sub; mul; dvd; neg; pow; log; exp; lag; led;
   sum; prd; nam; num; equ; dom; lst].

(** [struct node]: the fields the generator reads. *)
#[warnings="-register-all"]
Inductive Node : Type :=
| NODE (type : Nodetype) (str : string) (l r : option Node)
       (domain : list string) (lhs : bool) (dt : Z).

Definition type (n : Node) := let 'NODE t _ _ _ _ _ _ := n in t.
Definition str (n : Node) := let 'NODE _ s _ _ _ _ _ := n in s.
Definition l (n : Node) := let 'NODE _ _ x _ _ _ _ := n in x.
Definition r (n : Node) := let 'NODE _ _ _ x _ _ _ := n in x.
Definition domain (n : Node) := let 'NODE _ _ _ _ d _ _ := n in d.
Definition lhs (n : Node) := let 'NODE _ _ _ _ _ b _ := n in b.
Definition dt (n : Node) := let 'NODE _ _ _ _ _ _ z := n in z.

(** Leaves and operators as the parser builds them, for examples. *)
Definition leaf (t : Nodetype) (s : string) : Node :=
  NODE t s None None [] false 0.
Definition unop (t : Nodetype) (s : string) (x : Node) : Node :=
  NODE t s None (Some x) [] false 0.
Definition binop (t : Nodetype) (s : string) (x y : Node) : Node :=
  NODE t s (Some x) (Some y) [] false 0.

End Nodes.
Import Nodes.

(** [Context] of sym.h. *)
Record Context : Type := mkContext {
  ctx_lhs : bool;
  ctx_dt : Z;
  ctx_tsub : option string
}.

(** ** The parenthesization switch of the two renderers *)

Section Parens.

(** First switch of [Default_spprint]: the [parens] flag and the
    [comma] separator, or the fatal default branch. *)
Definition spprint_parens (prevtype cur : Nodetype) : Res (bool * string) :=
  let now := Nodetype_eqb cur in
  match prevtype with
  | nul | add | sub =>
      Ok ((if now neg then true else false), "")
  | mul =>
      let parens := false in
      let parens := if now add || now sub then true else parens in
      let parens := if now dvd || now neg then true else parens in
      Ok (parens, "")
  | neg =>
      let parens := true in
      let parens := if now nam || now num || now mul then false else parens in
      let parens := if now log || now exp || now pow then false else parens in
      let parens := if now sum || now prd then false else parens in
      Ok (parens, "")
  | dvd =>
      let parens := true in
      let parens := if now nam || now num || now pow then false else parens in
      let parens := if now sum || now prd then false else parens in
      let parens := if now log || now exp then false else parens in
      Ok (parens, "")
  | pow =>
      let parens := true in
      let parens :=
        if now nam || now num || now log || now exp then false else parens in
      let parens := if now sum || now prd then false else parens in
      Ok (parens, "")
  | log | exp | lag | led => Ok (true, "")
  | equ | sum | prd | dom => Ok (false, "")
  | nam | num =>
      Ok (false, if now nam || now num then "," else "")
  | lst => Fatal "invalid state reached in spprint"
  end.

(** First switch of [Default_show_node]. *)
Definition show_node_parens (prevtype cur : Nodetype) : Res bool :=
  let now := Nodetype_eqb cur in
  match prevtype with
  | nul | add | sub =>
      Ok (if now neg then true else false)
  | mul =>
      let parens := false in
      let parens := if now add || now sub then true else parens in
      let parens := if now dvd || now neg then true else parens in
      Ok parens
  | neg =>
      let parens := true in
      let parens := if now nam || now num || now mul then false else parens in
      let parens := if now log || now exp || now pow then false else parens in
      let parens := if now lag || now led then false else parens in
      let parens := if now sum || now prd then false else parens in
      Ok parens
  | dvd =>
      let parens := true in
      let parens := if now nam || now num || now pow then false else parens in
      let parens := if now sum || now prd then false else parens in
      let parens := if now lag || now led then false else parens in
      let parens := if now log || now exp then false else parens in
      Ok parens
  | pow =>
      let parens := true in
      let parens :=
        if now nam || now num || now log || now exp then false else parens in
      let parens := if now sum || now prd then false else parens in
      let parens := if now lag || now led then false else parens in
      Ok parens
  | log | exp | lag | led | sum | prd | nam | num | equ | dom => Ok false
  | lst => Fatal "Invalid state reached in show_node"
  end.

End Parens.

(** The table of section 4.1 of the specification, read row by row.
    [code] selects the code-rendering variant; [None] is the
    internal-consistency failure of an unlisted parent kind. *)
Definition mem_type (t : Nodetype) (ts : list Nodetype) : bool :=
  existsb (Nodetype_eqb t) ts.

Definition spec_table_parens (code : bool) (parent child : Nodetype)
  : option bool :=
  let lagled := if code then [lag; led] else [] in
  match parent with
  | nul | add | sub => Some (mem_type child [neg])
  | mul => Some (mem_type child [add; sub; dvd; neg])
  | neg =>
      Some (negb (mem_type child
                    ([nam; num; mul; log; exp; pow; sum; prd] ++ lagled)))
  | dvd =>
      Some (negb (mem_type child
                    ([nam; num; pow; sum; prd; log; exp] ++ lagled)))
  | pow =>
      Some (negb (mem_type child
                    ([nam; num; log; exp; sum; prd] ++ lagled)))
  | log | exp | lag | led => Some true
  | sum | prd | equ | dom => Some false
  | nam | num => Some false
  | lst => None
  end.

(** The decision of a renderer in the shape of the table. *)
Definition decision {A} (f : A -> bool) (r : Res A) : option bool :=
  match r with Ok a => Some (f a) | Fatal _ => None end.

(** ** Text helpers *)

Definition nl : string := String (ascii_of_nat 10) "".
Definition concat (parts : list string) : string :=
  fold_right String.append "" parts.

(** ** The diagnostic renderer, [Default_spprint] *)

(** The [lst] loop: the tokens of a right-linked chain, comma separated. *)
Fixpoint lst_items (n : Node) : string :=
  match n with
  | NODE _ s _ (Some n') _ _ _ => concat [s; ","; lst_items n']
  | NODE _ s _ None _ _ _ => s
  end.

(** [cur->type == sub && (cur->r->type == add || cur->r->type == sub)] *)
Definition wrap_right_of (t : Nodetype) (r : option Node) : Res bool :=
  match t with
  | sub =>
      match r with
      | Some rn => Ok (Nodetype_eqb (type rn) add || Nodetype_eqb (type rn) sub)
      | None => Fatal NULL_DEREF
      end
  | _ => Ok false
  end.

Definition too_long (lstr rstr : string) : bool :=
  ((70 <? String.length lstr + String.length rstr)
   || (40 <? String.length lstr) || (40 <? String.length rstr))%nat.

Local Open Scope res_scope.

Fixpoint spprint_node (prevtype : Nodetype) (cur : Node)
         (indent : option string) {struct cur} : Res string :=
  match cur with
  | NODE ctype cstr cl cr_ _ _ _ =>
      pc <- spprint_parens prevtype ctype ;;
      let '(parens, comma) := pc in
      let child (x : option Node) : Res string :=
        match x with
        | None => Ok ""
        | Some n => spprint_node ctype n indent
        end in
      match ctype with
      | sum | prd =>
          lstr <- child cl ;;
          rstr <- child cr_ ;;
          Ok (concat [cstr; "("; lstr; ","; rstr; ")"])
      | lst =>
          let lstr := match cr_ with
                      | Some n => lst_items n
                      | None => ""
                      end in
          Ok (concat ["("; lstr; ")"])
      | _ =>
          lstr <- child cl ;;
          rstr <- child cr_ ;;
          let cr := match indent with
                    | Some ind =>
                        if too_long lstr rstr then concat [nl; ind] else ""
                    | None => ""
                    end in
          wrap_right <- wrap_right_of ctype cr_ ;;
          Ok (if parens then
                if wrap_right
                then concat ["("; lstr; comma; cr; cstr; "("; rstr; "))"]
                else concat ["("; lstr; comma; cr; cstr; rstr; ")"]
              else if wrap_right
                then concat [lstr; comma; cr; cstr; "("; rstr; ")"]
                else concat [lstr; comma; cr; cstr; rstr])
      end
  end.

Definition Default_spprint (prevtype : Nodetype) (cur : option Node)
           (indent : option string) : Res string :=
  match cur with
  | None => Ok ""
  | Some n => spprint_node prevtype n indent
  end.

(** spprint.c *)
Definition node2string (node : option Node) := Default_spprint nul node None.
Definition snprint (node : option Node) := Default_spprint nul node (Some "   ").

(** ** The code renderer, [Default_show_node] and [PYTHON_show_node]

    The two functions differ in two string constants only: the power
    operator and the line-break marker.  The hooks reached through the
    [codegen_*] pointers and the collaborators are section variables;
    the recursive [codegen_show_node] call is the function itself. *)

Section CodeRenderer.

Variable show_symbol :
  string -> list string -> list string -> list string -> Context -> Res string.
Variable codegen_begin_func : string -> option string -> Res string.
Variable codegen_end_func : Res string.
Variable is_sum_scalar : bool.
Variable setelements : string -> list string.
Variables pow_op cr_text : string.

(** Body of the scalar sum/product loop over the elements of the set. *)
Fixpoint sum_loop (render : string -> Res string) (op lpar rpar : string)
         (eles : list string) (buf thisop : string) : Res string :=
  match eles with
  | [] => Ok buf
  | ele :: rest =>
      rstr <- render ele ;;
      sum_loop render op lpar rpar rest
               (concat [buf; nl; "      "; thisop; lpar; rstr; rpar]) op
  end.

Fixpoint show_node_rec (prevtype : Nodetype) (cur : Node)
         (setlist sublist : list string) {struct cur} : Res string :=
  match cur with
  | NODE ctype cstr cl cr_ cdomain clhs cdt =>
      let mycontext := mkContext clhs cdt None in
      parens <- show_node_parens prevtype ctype ;;
      let child (x : option Node) (sets subs : list string) : Res string :=
        match x with
        | None => Ok ""
        | Some n => show_node_rec ctype n sets subs
        end in
      match ctype with
      | nam => show_symbol cstr cdomain setlist sublist mycontext
      | lag | led => child cr_ setlist sublist
      | dom => child cl setlist sublist
      | lst => Fatal "Unexpected lst state in show_node"
      | sum | prd =>
          match cl with
          | None => Fatal NULL_DEREF
          | Some ln =>
              let lstr := str ln in
              let augsets := setlist ++ [lstr] in
              let isprd := Nodetype_eqb ctype prd in
              if is_sum_scalar then
                let op := if isprd then "*" else "+" in
                let lpar := if isprd then "(" else "" in
                let rpar := if isprd then ")" else "" in
                buf <- sum_loop
                         (fun ele => child cr_ augsets (sublist ++ [ele]))
                         op lpar rpar (setelements lstr) "(" " " ;;
                Ok (concat [buf; ")"])
              else
                beginfunc <- codegen_begin_func cstr (Some lstr) ;;
                rstr <- child cr_ augsets (sublist ++ ["*"]) ;;
                endfunc <- codegen_end_func ;;
                Ok (concat [beginfunc; rstr; endfunc])
          end
      | _ =>
          pre <- match ctype with
                 | log | exp =>
                     lstr <- codegen_begin_func cstr None ;;
                     endfunc <- codegen_end_func ;;
                     Ok (true, lstr, endfunc, "")
                 | pow =>
                     lstr <- child cl setlist sublist ;;
                     Ok (false, lstr, "", pow_op)
                 | _ =>
                     lstr <- child cl setlist sublist ;;
                     Ok (false, lstr, "", cstr)
                 end ;;
          let '(isfunc, lstr, endfunc, op) := pre in
          rstr <- child cr_ setlist sublist ;;
          let cr := if too_long lstr rstr then cr_text else "" in
          let lpar := if parens && negb isfunc then "(" else "" in
          let rpar := if parens && negb isfunc then ")" else "" in
          wrap_right <- wrap_right_of ctype cr_ ;;
          Ok (if wrap_right
              then concat [lpar; lstr; cr; op; "("; rstr; ")"; rpar; endfunc]
              else concat [lpar; lstr; cr; op; rstr; rpar; endfunc])
      end
  end.

Definition show_node_gen (prevtype : Nodetype) (cur : option Node)
           (setlist sublist : list string) : Res string :=
  match cur with
  | None => Ok ""
  | Some n => show_node_rec prevtype n setlist sublist
  end.

End CodeRenderer.

Definition backslash : string := String (ascii_of_nat 92) "".

Definition Default_begin_func (func : string) (arg : option string)
  : Res string :=
  match arg with
  | Some a => Ok (concat [func; "("; a; ","])
  | None => Ok (concat [func; "("])
  end.

Definition Default_end_func : Res string := Ok ")".

Definition Default_show_node show_symbol begin_func end_func
           (is_sum_scalar : bool) setelements :=
  show_node_gen show_symbol begin_func end_func is_sum_scalar setelements
                "^" (concat [" "; nl; "        "]).

Definition PYTHON_show_node show_symbol begin_func end_func
           (is_sum_scalar : bool) setelements :=
  show_node_gen show_symbol begin_func end_func is_sum_scalar setelements
                "**" (concat [" "; backslash; nl; "        "]).

(** The hooks of a backend that prints a reference as its bare name. *)
Definition plain_symbol (name : string) (_ _ _ : list string) (_ : Context)
  : Res string := Ok name.

Definition plain_show_node :=
  Default_show_node plain_symbol Default_begin_func Default_end_func
                    true (fun _ => []).

(** *** Vocabulary of the parenthesization properties *)

(** Wrapping a text in one pair of parentheses. *)
Definition parenthesize (s : string) : string := concat ["("; s; ")"].

Definition rmap {A B} (f : A -> B) (r : Res A) : Res B :=
  match r with Ok a => Ok (f a) | Fatal m => Fatal m end.

(** A child kind whose text [Default_spprint] builds in its generic
    branch, where the [parens] flag is used. *)
Definition spprint_generic (t : Nodetype) : bool :=
  negb (mem_type t [sum; prd; lst]).

(** A child kind whose text [Default_show_node] builds in its last
    branch without a function envelope, where the flag is used. *)
Definition show_node_generic (t : Nodetype) : bool :=
  negb (mem_type t [nam; lag; led; dom; lst; sum; prd; log; exp]).

Definition one_plus_two : Node :=
  binop add "+" (leaf num "1") (leaf num "2").

(** ** The line wrapper, [Default_wrap_write]

    [get_line_length()] is the parameter [L], a non-negative width.  The
    function writes to the [code] stream only; the model returns the
    [fprintf] calls it makes, in order, and how it ends. *)

Inductive Out : Type :=
| OutStr (s : string)    (* fprintf(code, "%s", s) *)
| OutCr                  (* fprintf(code, "\n") *)
| OutLine (s : string)   (* fprintf(code, "%s\n", s) *)
| OutWrap (s : string).  (* fprintf(code, "%s\n   ", s) *)

Definition render_out (o : Out) : string :=
  match o with
  | OutStr s => s
  | OutCr => nl
  | OutLine s => concat [s; nl]
  | OutWrap s => concat [s; nl; "   "]
  end.

Definition render_outs (os : list Out) : string :=
  concat (map render_out os).

(** [isspace] in the C locale. *)
Definition isspace (c : ascii) : bool :=
  let n := nat_of_ascii c in
  ((n =? 32) || ((9 <=? n) && (n <=? 13)))%nat.

Definition is_char (c : ascii) (s : string) : bool :=
  match s with
  | String d EmptyString => Ascii.eqb c d
  | _ => false
  end.

(** The [do_wrap] test on the character [*end]. *)
Definition do_wrap (commaok : bool) (c : ascii) : bool :=
  isspace c
  || (is_char c "+" || is_char c "-" || is_char c "*" || is_char c "/"
      || is_char c "=" || is_char c "^")
  || (commaok && is_char c ",").

(** [strcspn(s, "\n")] *)
Fixpoint strcspn_nl (s : string) : nat :=
  match s with
  | EmptyString => 0
  | String c s' => if is_char c nl then 0 else S (strcspn_nl s')
  end.

Fixpoint take (n : nat) (s : string) : string :=
  match n, s with
  | S m, String c s' => String c (take m s')
  | _, _ => EmptyString
  end.

Fixpoint drop (n : nat) (s : string) : string :=
  match n, s with
  | S m, String c s' => drop m s'
  | _, _ => s
  end.

(** The backward scan [for (end = rest + L; end > rest; end--)]: called
    with [n = L], it returns [Some m] when the first position found is
    [m + 1], and [None] when the scan reaches [rest]. *)
Fixpoint scan_wrap (commaok : bool) (rest : string) (n : nat) : option nat :=
  match n with
  | O => None
  | S m =>
      match String.get (S m) rest with
      | Some c => if do_wrap commaok c then Some m
                  else scan_wrap commaok rest m
      | None => scan_wrap commaok rest m
      end
  end.

Definition out_then (o : Out) (k : list Out * Res unit) : list Out * Res unit :=
  (o :: fst k, snd k).

Definition wrap_fatal (line : string) : string :=
  concat ["Could not wrap long line:"; nl; line; nl].

Equations? wrap_loop (L : nat) (addcr commaok : bool) (line rest : string)
  : list Out * Res unit by wf (String.length rest) lt :=
  wrap_loop L addcr commaok line rest
    with le_lt_dec (String.length rest) L := {
    | left _ => (OutStr rest :: (if addcr then [OutCr] else []), Ok tt)
    | right Hlong with Nat.leb (strcspn_nl rest) L := {
      | true =>
          out_then (OutLine (take (strcspn_nl rest) rest))
                   (wrap_loop L addcr commaok line
                              (drop (S (strcspn_nl rest)) rest))
      | false with scan_wrap commaok rest L := {
        | Some m =>
            out_then (OutWrap (take (S m) rest))
                     (wrap_loop L addcr commaok line (drop (S m) rest))
        | None => ([], Fatal (wrap_fatal line)) } } }.
Proof.
  all: assert (Hdrop : forall n s, String.length (drop n s) <= String.length s)
    by (induction n as [|n IH]; intros [|d s]; simpl; auto;
        specialize (IH s); lia).
  all: destruct rest as [|c rest]; simpl in *; [lia|].
  - match goal with |- String.length (drop ?k _) < _ =>
      specialize (Hdrop k rest) end. lia.
  - specialize (Hdrop m rest). lia.
Qed.

Definition Default_wrap_write (L : nat) (line : string)
           (addcr commaok : bool) : list Out * Res unit :=
  wrap_loop L addcr commaok line line.

(** [PYTHON_wrap_write] repeats the text of [Default_wrap_write]. *)
Definition PYTHON_wrap_write := Default_wrap_write.

(** *** Vocabulary of the wrapper properties *)

(** The part of the input line an output call accounts for. *)
Definition consumed (o : Out) : string :=
  match o with
  | OutStr s => s
  | OutCr => ""
  | OutLine s => concat [s; nl]
  | OutWrap s => s
  end.

Definition consumed_all (os : list Out) : string := concat (map consumed os).

(** An over-long segment without a newline in reach and without a
    character the scan accepts at positions [1..L]. *)
Definition unbreakable (L : nat) (commaok : bool) (seg : string) : Prop :=
  L < String.length seg
  /\ L < strcspn_nl seg
  /\ forall i c, 1 <= i <= L -> String.get i seg = Some c ->
                 do_wrap commaok c = false.

(** What the loop guarantees for the rest of the line it is started on. *)
Record wrapped (L : nat) (commaok : bool) (rest : string)
       (outs : list Out) (res : Res unit) : Prop := {
  wr_break : forall pre s post,
      outs = pre ++ OutWrap s :: post ->
      exists c tail,
        rest = concat [consumed_all pre; s; String c tail]
        /\ do_wrap commaok c = true
        /\ 1 <= String.length s <= L;
  wr_ok : res = Ok tt -> consumed_all outs = rest;
  wr_fatal : forall msg, res = Fatal msg ->
      exists seg, rest = concat [consumed_all outs; seg]
                  /\ unbreakable L commaok seg
}.

Fixpoint last_char (s : string) : option ascii :=
  match s with
  | EmptyString => None
  | String c EmptyString => Some c
  | String _ s' => last_char s'
  end.

(** ** Collaborators: symbols, equations, options

    The symbol table, the equation list, the Cartesian iterator and the
    option store are outside the generator.  A symbol and an equation are
    the record of the answers the generator asks them for; the option
    store is read only, since every backend sets its options in its setup
    function, before [write_file] runs. *)

Inductive Symboltype : Set := set | par | var.

Definition Symboltype_eqb (a b : Symboltype) : bool :=
  match a, b with
  | set, set | par, par | var, var => true
  | _, _ => false
  end.

Record Symbol : Type := mkSymbol {
  symtype : Symboltype;        (* istype(sym, t) *)
  isident : bool;
  symname : string;
  symdescrip : string;
  symvalue : list string;      (* the declared domain *)
  symsize : Z;
  symattrib : list string;
  isused : bool
}.

Definition istype (sym : Symbol) (t : Symboltype) : bool :=
  Symboltype_eqb (symtype sym) t.

Record Eqn : Type := mkEqn {
  getlhs : option Node;
  getrhs : option Node;
  eqnsets : list string;
  eqncount : Z;
  hasundec : bool;
  istimeok : bool;
  islvalue : bool
}.

Inductive Style : Set := unset | scalar | vector.

Record Options : Type := mkOptions {
  eqn_style : Style;
  sum_style : Style;
  is_eqn_normalized : bool;
  get_line_length : nat
}.

Definition is_set (s : Style) : bool :=
  match s with unset => false | _ => true end.
Definition is_vector (s : Style) : bool :=
  match s with vector => true | _ => false end.
Definition is_scalar (s : Style) : bool :=
  match s with scalar => true | _ => false end.

Definition is_eqn_set (o : Options) := is_set (eqn_style o).
Definition is_sum_set (o : Options) := is_set (sum_style o).
Definition is_eqn_vector (o : Options) := is_vector (eqn_style o).
Definition is_sum_scalar (o : Options) := is_scalar (sum_style o).

Record Model : Type := mkModel {
  symbols : Symboltype -> list Symbol;  (* firstsymbol(t), nextsymbol *)
  eqns : list Eqn;                      (* firsteqn, nexteqn *)
  cart : list string -> list (list string);
                                        (* cart_build, then cart_next *)
  setelements : string -> list string;
  issubset : string -> string -> bool;
  ismember : string -> list string -> bool;
  sub_offset : string -> list string -> Z -> list string;
  slprint : list string -> string;
  symbol_subs : list string -> list string -> list string -> list string;
                 (* show_symbol: the subscripts passed on to the backend *)
  can_create : string -> bool           (* fopen(name, "w") succeeds *)
}.

(** ** Programs over the hook table (codegen.h)

    A driver reaches its backend through the [codegen_*] function
    pointers and writes to the [code] stream.  Such a function is a tree
    of these calls: which calls it makes, in which order and with which
    arguments, is a property of the tree; what a call does is the
    business of the handler it is run with. *)

Inductive Cmd : Type -> Type :=
| codegen_begin_file (basename : string) : Cmd unit
| codegen_end_file : Cmd unit
| codegen_declare (sym : Symbol) : Cmd unit
| codegen_begin_block (eq : Eqn) : Cmd unit
| codegen_begin_eqn (eq : Eqn) : Cmd unit
| codegen_end_eqn (eq : Eqn) : Cmd unit
| codegen_show_eq (eq : Eqn) (setlist sublist : list string) : Cmd unit
| codegen_show_node (prevtype : Nodetype) (cur : option Node)
                    (setlist sublist : list string) : Cmd string
| codegen_wrap_write (line : string) (addcr commaok : bool) : Cmd unit
| fprintf_code (text : string) : Cmd unit
| fclose_code : Cmd unit
| fclose_info : Cmd unit
| remove_file (name : string) : Cmd unit.

Inductive Prog (A : Type) : Type :=
| Ret (a : A)
| FAULT (msg : string)
| Do (X : Type) (c : Cmd X) (k : X -> Prog A).
Arguments Ret {A} a.
Arguments FAULT {A} msg.
Arguments Do {A X} c k.

Fixpoint pbind {A B} (p : Prog A) (k : A -> Prog B) : Prog B :=
  match p with
  | Ret a => k a
  | FAULT m => FAULT m
  | Do c k' => Do c (fun x => pbind (k' x) k)
  end.

Definition call {X} (c : Cmd X) : Prog X := Do c Ret.

Declare Scope prog_scope.
Delimit Scope prog_scope with prog.
Notation "x <- p ;; k" := (pbind p (fun x => k))
  (at level 61, p at next level, right associativity) : prog_scope.
Notation "p ;; k" := (pbind p (fun _ => k))
  (at level 61, right associativity) : prog_scope.

Local Open Scope prog_scope.

Fixpoint for_each {X} (xs : list X) (body : X -> Prog unit) : Prog unit :=
  match xs with
  | [] => Ret tt
  | x :: rest => body x ;; for_each rest body
  end.

(** A call as it appears in the log of a run. *)
Inductive Event : Type :=
| Ev (X : Type) (c : Cmd X).
Arguments Ev {X} c.

Section Run.

Variable St : Type.
Variable handler : forall X, Cmd X -> St -> Res (X * St).

(** Running a program: the calls made, in order, and how the run ends.
    A call the handler ends the process in is the last one logged. *)
Fixpoint run {A} (p : Prog A) (st : St) : list Event * Res (A * St) :=
  match p with
  | Ret a => ([], Ok (a, st))
  | FAULT m => ([], Fatal m)
  | Do c k =>
      match handler c st with
      | Ok (x, st') =>
          let tr := run (k x) st' in (Ev c :: fst tr, snd tr)
      | Fatal m => ([Ev c], Fatal m)
      end
  end.

End Run.

(** ** The driver, [Default_write_file] *)

Section Driver.

Variable opts : Options.
Variable M : Model.

Definition declare_symbols (t : Symboltype) : Prog unit :=
  for_each (symbols M t) (fun sym => call (codegen_declare sym)).

(** [while ((sublist = cart_next())) { codegen_show_eq(...); neqns--; }] *)
Fixpoint show_each (eq : Eqn) (eqsets : list string)
         (tuples : list (list string)) (neqns : Z) : Prog Z :=
  match tuples with
  | [] => Ret neqns
  | sublist :: rest =>
      call (codegen_show_eq eq eqsets sublist) ;;
      show_each eq eqsets rest (neqns - 1)
  end.

(** The body of the equation loop after the skip test. *)
Definition write_block (eq : Eqn) : Prog unit :=
  let eqsets := eqnsets eq in
  call (codegen_begin_block eq) ;;
  if is_eqn_vector opts then
    call (codegen_show_eq eq eqsets [])
  else
    neqns <- show_each eq eqsets (cart M eqsets) (eqncount eq) ;;
    if (neqns =? 0)%Z then Ret tt
    else FAULT "Incorrect number of equations written. Using # with a time set?".

Definition check_styles : Prog unit :=
  if negb (is_eqn_set opts) then FAULT "Equation style has not been set"
  else if negb (is_sum_set opts) then FAULT "Summation style has not been set"
  else Ret tt.

Definition Default_write_file (basename : string) : Prog unit :=
  call (codegen_begin_file basename) ;;
  check_styles ;;
  declare_symbols set ;;
  declare_symbols par ;;
  declare_symbols var ;;
  for_each (eqns M)
           (fun eq => if hasundec eq || negb (istimeok eq) then Ret tt
                      else write_block eq) ;;
  call codegen_end_file ;;
  call fclose_code ;;
  call fclose_info.

(** [PYTHON_write_file] repeats the text of [Default_write_file]. *)
Definition PYTHON_write_file := Default_write_file.


(** [HTML_write_file]: the skip test is commented out, and a scratch
    file is removed at the end. *)
Definition HTML_write_file (basename : string) : Prog unit :=
  call (codegen_begin_file basename) ;;
  check_styles ;;
  declare_symbols set ;;
  declare_symbols par ;;
  declare_symbols var ;;
  for_each (eqns M) write_block ;;
  call codegen_end_file ;;
  call fclose_code ;;
  call fclose_info ;;
  call (remove_file "rubbish.lis").

End Driver.

(** ** Equation assembly, [Default_show_eq] *)

Definition append_char (s : string) (c : ascii) : string :=
  (s ++ String c EmptyString)%string.

(** The loop [for (head = all; (tail = strchr(head, '\n')); head = tail)]
    with the final call after it: [head] is the part of the current line
    read so far. *)
Fixpoint wrap_lines (head rest : string) : Prog unit :=
  match rest with
  | EmptyString => call (codegen_wrap_write head false false)
  | String c rest' =>
      if is_char c nl then
        call (codegen_wrap_write head true false) ;;
        wrap_lines EmptyString rest'
      else wrap_lines (append_char head c) rest'
  end.

Definition show_eq_gen (minus_open minus_close : string) (opts : Options)
           (eq : Eqn) (setlist sublist : list string) : Prog unit :=
  lstr <- call (codegen_show_node nul (getlhs eq) setlist sublist) ;;
  rstr <- call (codegen_show_node nul (getrhs eq) setlist sublist) ;;
  call (codegen_begin_eqn eq) ;;
  let all := if is_eqn_normalized opts
             then concat [lstr; minus_open; rstr; minus_close]
             else concat [lstr; " = "; rstr] in
  if (get_line_length opts =? 0)%nat then
    call (fprintf_code all) ;;
    call (codegen_end_eqn eq)
  else
    (if (String.length all <=? get_line_length opts)%nat
     then call (fprintf_code all)
     else wrap_lines EmptyString all) ;;
    call (codegen_end_eqn eq).

Definition Default_show_eq := show_eq_gen " - (" ")".

(** [PYTHON_show_eq] repeats the text of [Default_show_eq];
    [HTML_show_eq] differs in the two strings of the normalized form. *)
Definition PYTHON_show_eq := Default_show_eq.
Definition HTML_show_eq :=
  show_eq_gen (concat [" - "; backslash; "left("])
              (concat [backslash; "right)"]).

(** *** The [code] stream

    The state of a run is the text written to [code] so far and the
    state of the backend.  [fprintf] appends; the line wrapper writes what
    [Default_wrap_write] writes and ends the run where it does; every other
    call is the backend's. *)

Definition emit {U} (text : string) (st : string * U) : string * U :=
  ((fst st ++ text)%string, snd st).

Definition stream_handler {U} (L : nat)
           (hooks : forall X, Cmd X -> string * U -> Res (X * (string * U)))
           (X : Type) (c : Cmd X) (st : string * U) : Res (X * (string * U)) :=
  match c in Cmd T return Res (T * (string * U)) with
  | fprintf_code text => Ok (tt, emit text st)
  | codegen_wrap_write line addcr commaok =>
      let w := Default_wrap_write L line addcr commaok in
      match snd w with
      | Ok _ => Ok (tt, emit (render_outs (fst w)) st)
      | Fatal m => Fatal m
      end
  | c' => hooks _ c' st
  end.

(** The text the line wrapper writes for an assembled equation: each
    newline-separated part goes through [Default_wrap_write], with a
    newline after every part but the last. *)
Fixpoint wrapped_text (L : nat) (head rest : string) : string * Res unit :=
  match rest with
  | EmptyString =>
      let w := Default_wrap_write L head false false in
      (render_outs (fst w), snd w)
  | String c rest' =>
      if is_char c nl then
        let w := Default_wrap_write L head true false in
        match snd w with
        | Ok _ =>
            let t := wrapped_text L EmptyString rest' in
            ((render_outs (fst w) ++ fst t)%string, snd t)
        | Fatal m => (render_outs (fst w), Fatal m)
        end
      else wrapped_text L (append_char head c) rest'
  end.

(** *** Vocabulary of the driver properties *)

(** Every call a program can make satisfies [P]. *)
Inductive Calls {A} (P : Event -> Prop) : Prog A -> Prop :=
| Calls_Ret a : Calls P (Ret a)
| Calls_FAULT m : Calls P (FAULT m)
| Calls_Do X (c : Cmd X) k :
    P (Ev c) -> (forall x, Calls P (k x)) -> Calls P (Do c k).

Definition is_declare (e : Event) : bool :=
  match e with
  | Ev (codegen_declare _) => true
  | _ => false
  end.

Definition is_begin_file (e : Event) : bool :=
  match e with
  | Ev (codegen_begin_file _) => true
  | _ => false
  end.

(** A call that renders an equation or opens its block. *)
Definition is_equation_call (e : Event) : bool :=
  match e with
  | Ev (codegen_begin_block _) | Ev (codegen_show_eq _ _ _) => true
  | _ => false
  end.

Definition declare_call (sym : Symbol) : Event := Ev (codegen_declare sym).

(** The calls every run starts with: [begin_file], then one [declare]
    per symbol, sets first, then parameters, then variables. *)
Definition prelude (M : Model) (basename : string) : list Event :=
  Ev (codegen_begin_file basename)
     :: map declare_call (symbols M set ++ symbols M par ++ symbols M var).

Definition skipped (eq : Eqn) : bool := hasundec eq || negb (istimeok eq).

(** The calls of one scalar block when nothing ends the run. *)
Definition scalar_block_calls (M : Model) (eq : Eqn) : list Event :=
  Ev (codegen_begin_block eq)
     :: map (fun sublist => Ev (codegen_show_eq eq (eqnsets eq) sublist))
            (cart M (eqnsets eq)).

(** Modelled from the spec: the Cartesian iterator of cart.c, which is
    not among the sources.  It yields one tuple per combination of the
    elements of the sets, each set in its element order, the rightmost
    set varying fastest. *)
Fixpoint cart_product (setelements : string -> list string)
         (sets : list string) : list (list string) :=
  match sets with
  | [] => [[]]
  | s :: rest =>
      flat_map (fun e => map (cons e) (cart_product setelements rest))
               (setelements s)
  end.

Definition RG_elements (s : string) : list string :=
  if String.eqb s "R" then ["US"; "EU"]
  else if String.eqb s "G" then ["A"; "B"; "C"]
  else [].

Definition RG_eqn : Eqn :=
  mkEqn (Some (leaf nam "x")) (Some (leaf num "1")) ["R"; "G"] 6
        false true true.

Definition show_int (z : Z) : string := NilZero.string_of_int (Z.to_int z).

(** A model over the iterator above with the plainest collaborators:
    no subset relation, membership by equal text, subscripts replaced by
    the offset, lists printed with commas, every file can be created. *)
Definition simple_model (syms : Symboltype -> list Symbol)
           (eqs : list Eqn) (elements : string -> list string) : Model :=
  mkModel syms eqs (cart_product elements) elements
          (fun _ _ => false)
          (fun s names => existsb (String.eqb s) names)
          (fun _ _ off => [show_int off])
          (String.concat ",")
          (fun _ _ sublist => sublist)
          (fun _ => true).

Definition RG_model : Model := simple_model (fun _ => []) [RG_eqn] RG_elements.

Definition scalar_opts : Options := mkOptions scalar scalar false 0.

(** A backend whose hooks do nothing and never end the run. *)
Definition quiet_handler (X : Type) (c : Cmd X) (st : unit)
  : Res (X * unit) :=
  match c in Cmd T return Res (T * unit) with
  | codegen_show_node _ _ _ _ => Ok (EmptyString, tt)
  | _ => Ok (tt, tt)
  end.

(** The state after a sequence of single calls, or the first fatal end. *)
Fixpoint thread {St X} (h : forall T, Cmd T -> St -> Res (T * St))
         (mk : X -> Cmd unit) (xs : list X) (st : St) : Res St :=
  match xs with
  | [] => Ok st
  | x :: rest =>
      match h unit (mk x) st with
      | Ok (_, st') => thread h mk rest st'
      | Fatal m => Fatal m
      end
  end.

(** A call that is neither [begin_file] nor a declaration. *)
Definition after_declare (e : Event) : Prop :=
  is_declare e = false /\ is_begin_file e = false.

(** The log [fst r] of a run starts with an initial part of the prelude;
    anything after it, and a run that ends normally, has the whole
    prelude before it, and no declaration follows the prelude. *)
Definition declares_first {A St} (M : Model) (basename : string)
           (r : list Event * Res (A * St)) : Prop :=
  exists done todo rest,
    prelude M basename = done ++ todo
    /\ fst r = done ++ rest
    /\ (rest <> [] \/ is_ok (snd r) = true -> todo = [])
    /\ Forall after_declare rest.

(** The first call of a run is [begin_file].  When its hook and the
    hooks of the declarations return and both styles are set, the log
    [fst r] of a run from [st] is the whole prelude, followed by calls
    that are neither [begin_file] nor a declaration. *)
Definition makes_prelude {A St} (h : forall X, Cmd X -> St -> Res (X * St))
           (opts : Options) (M : Model) (basename : string) (st : St)
           (r : list Event * Res (A * St)) : Prop :=
  (exists rest, fst r = Ev (codegen_begin_file basename) :: rest)
  /\ forall st0 st3,
      is_eqn_set opts = true ->
      is_sum_set opts = true ->
      h unit (codegen_begin_file basename) st = Ok (tt, st0) ->
      thread h codegen_declare
             (symbols M set ++ symbols M par ++ symbols M var) st0 = Ok st3 ->
      exists rest,
        fst r = prelude M basename ++ rest /\ Forall after_declare rest.

(** A backend none of whose hooks ends the run. *)
Definition never_fails {St} (h : forall X, Cmd X -> St -> Res (X * St))
  : Prop :=
  forall X (c : Cmd X) (st : St), exists x st', h X c st = Ok (x, st').

Definition count_message : string :=
  "Incorrect number of equations written. Using # with a time set?".

(** The calls that close a run of [Default_write_file]. *)
Definition postlude : list Event :=
  [Ev codegen_end_file; Ev fclose_code; Ev fclose_info].

Definition count_matches (M : Model) (eq : Eqn) : Prop :=
  eqncount eq = Z.of_nat (List.length (cart M (eqnsets eq))).

(** The calls of one block when nothing ends the run: [begin_block],
    then [show_eq] once with no subscripts in vector mode, and once per
    tuple in scalar mode. *)
Definition block_calls (opts : Options) (M : Model) (eq : Eqn)
  : list Event :=
  if is_eqn_vector opts
  then [Ev (codegen_begin_block eq); Ev (codegen_show_eq eq (eqnsets eq) [])]
  else scalar_block_calls M eq.

(** The calls of a whole run of [HTML_write_file]: the prelude, the
    block of every equation in file order, and the closing calls. *)
Definition html_calls (opts : Options) (M : Model) (basename : string)
  : list Event :=
  prelude M basename
  ++ flat_map (block_calls opts M) (eqns M)
  ++ postlude ++ [Ev (remove_file "rubbish.lis")].

(** The calls of a whole run of [Default_write_file]: the blocks are
    those of the equations that pass the skip test. *)
Definition default_calls (opts : Options) (M : Model) (basename : string)
  : list Event :=
  prelude M basename
  ++ flat_map (block_calls opts M)
              (filter (fun eq => negb (skipped eq)) (eqns M))
  ++ postlude.

(** The log [fst r] is an initial part of [target], and all of it when
    the run ends normally. *)
Definition follows {A St} (target : list Event)
           (r : list Event * Res (A * St)) : Prop :=
  exists todo,
    target = fst r ++ todo /\ (is_ok (snd r) = true -> todo = []).

(** The count check of the blocks of [eqs] passes: there is none in
    vector mode. *)
Definition counts_ok (opts : Options) (M : Model) (eqs : list Eqn) : Prop :=
  is_eqn_vector opts = true \/ forall eq, In eq eqs -> count_matches M eq.

(** An equation with an undeclared symbol between two sound ones. *)
Definition sound_eqn (name : string) : Eqn :=
  mkEqn (Some (leaf nam name)) (Some (leaf num "1")) [] 1 false true true.
Definition undeclared_eqn : Eqn :=
  mkEqn (Some (leaf nam "y")) (Some (leaf nam "ghost")) [] 0 true true true.
Definition three_eqn_model : Model :=
  simple_model (fun _ => []) [sound_eqn "x"; undeclared_eqn; sound_eqn "z"]
               (fun _ => []).
Definition vector_opts : Options := mkOptions vector vector false 0.

(** The assembled text of an equation. *)
Definition assembled (opts : Options) (lstr rstr : string) : string :=
  if is_eqn_normalized opts
  then concat [lstr; " - ("; rstr; ")"]
  else concat [lstr; " = "; rstr].

(** What [show_eq] writes between [begin_eqn] and [end_eqn]: the text
    verbatim at width zero, else what the line wrapper writes for it. *)
Definition eqn_text (opts : Options) (all : string) : string * Res unit :=
  if (get_line_length opts =? 0)%nat then (all, Ok tt)
  else wrapped_text (get_line_length opts) EmptyString all.

(** Hooks of a backend that renders every node as [x], opens an equation
    with four blanks and closes it with a newline. *)
Definition sample_hooks (X : Type) (c : Cmd X) (st : string * unit)
  : Res (X * (string * unit)) :=
  match c in Cmd T return Res (T * (string * unit)) with
  | codegen_show_node _ _ _ _ => Ok ("x", st)
  | codegen_begin_eqn _ => Ok (tt, emit "    " st)
  | codegen_end_eqn _ => Ok (tt, emit nl st)
  | _ => Ok (tt, st)
  end.

Definition sample_eqn : Eqn :=
  mkEqn (Some (leaf nam "x")) (Some (leaf nam "x")) [] 1 false true true.

Definition narrow_opts : Options := mkOptions scalar scalar false 3.

(** ** The MSGPROC backend (lang/python2.c) *)

(** *** Names without case *)

Definition tolower (c : ascii) : nat :=
  let n := nat_of_ascii c in
  if ((65 <=? n) && (n <=? 90))%nat then n + 32 else n.

(** [strcasecmp]: the difference of the first pair of lowered characters
    that differ, the end of a string counting as the character 0. *)
Fixpoint strcasecmp (a b : string) : Z :=
  match a, b with
  | EmptyString, EmptyString => 0
  | EmptyString, String d _ => - Z.of_nat (tolower d)
  | String c _, EmptyString => Z.of_nat (tolower c)
  | String c a', String d b' =>
      if (tolower c =? tolower d)%nat then
        if (tolower c =? 0)%nat then 0 else strcasecmp a' b'
      else Z.of_nat (tolower c) - Z.of_nat (tolower d)
  end.

(** *** The MSGPROC vectors *)

Definition NUL : nat := 0.
Definition Z1L : nat := 1.
Definition ZEL : nat := 2.
Definition J1L : nat := 3.
Definition X1L : nat := 4.
Definition Z1R : nat := 5.
Definition ZER : nat := 6.
Definition YJR : nat := 7.
Definition YXR : nat := 8.
Definition EXO : nat := 9.
Definition EXZ : nat := 10.
Definition PAR : nat := 11.
Definition X1R : nat := 12.
Definition UNK : nat := 13.

Definition PYTHON_ORIGIN : Z := 0.

Definition vecname : list string :=
  [""; "z1l"; "zel"; "j1l"; "x1l"; "z1r"; "zer"; "yjr"; "yxr"; "exo";
   "exz"; "par"; "x1r"; ""].

(** [vecinfo[i]] and [vecinfo[i] += c] on the array of running lengths,
    counted without bound; [vec_add_int] below is the addition in [int]. *)
Definition vec_get (v : list Z) (i : nat) : Z := nth i v 0%Z.

Fixpoint vec_add (v : list Z) (i : nat) (c : Z) : list Z :=
  match v, i with
  | [], _ => []
  | x :: rest, O => (x + c)%Z :: rest
  | x :: rest, S j => x :: vec_add rest j c
  end.

(** [vlist]: for each variable type the vector of each of the six
    contexts: left-lag, left-cur, left-lead, right-lag, right-cur,
    right-lead; 0 where the context is not allowed. *)
Record vartype_info : Type := mkVartype {
  vt_type : string;
  vt_vecid : list nat
}.

Definition vlist : list vartype_info :=
  [mkVartype "end" [0; Z1L; 0; 0; Z1R; 0];
   mkVartype "ets" [0; ZEL; 0; 0; ZER; EXZ];
   mkVartype "exo" [0; 0; 0; 0; EXO; 0];
   mkVartype "cos" [0; 0; J1L; 0; YJR; 0];
   mkVartype "sta" [0; 0; X1L; 0; YXR; 0];
   mkVartype "stl" [0; X1L; 0; YXR; X1R; 0];
   mkVartype "par" [0; 0; 0; 0; PAR; 0]]%nat.

Definition units : list string :=
  ["del"; "pct"; "gdp"; "usgdp"; "cent"; "dollar"; "gwh"; "gwhgdp"; "idx";
   "nomusdbillion"; "realusdbillion"; "btu"; "mmt"; "btugdp"; "mmtgdp";
   "btuusgdp"; "mmtusgdp"].

Definition us_units : list string :=
  ["usgdp"; "btuusgdp"; "mmtusgdp"; "gwhusgdp"].

Definition setname_regions : string := "regions".
Definition setname_sectors : string := "sectors".
Definition setname_goods : string := "goods".

Inductive oldform : Set :=
| o_unk | o_err | o_none | o_cc | o_cu | o_a | o_g | o_acc | o_gcc
| o_ag | o_do | o_agcc | o_gdo.

(** [struct variable] *)
Record variable : Type := mkVariable {
  v_str : string;
  v_type : string;
  v_unit : string;
  v_vecid : list nat;
  v_vecoff : list Z;
  v_stype : Symboltype;
  of_type : oldform;
  of_a : Z;
  of_g : Z;
  of_c : Z;
  of_d : Z;
  of_o : Z;
  varsnum : Z
}.

(** The static data of the backend and the [info] stream. *)
Record PyState : Type := mkPyState {
  vecinfo : list Z;
  v_head : list variable;
  MSGPROC_block : Z;
  MSGPROC_scalar : Z;
  MSGPROC_vars : Z;
  info : string
}.

Definition initial_state : PyState :=
  mkPyState (repeat 0%Z 14) [] 1 1 1 "".

Definition msg_error {A} (fmt str : string) : Res A :=
  Fatal (concat [fmt; str]).

(** *** The slot allocator (the loop over the six contexts) *)

Record sync : Type := mkSync {
  my_Z1L : Z;
  my_J1L : Z;
  my_ZEL : Z;
  my_X1L : Z
}.

Definition sync_init : sync := mkSync (-1) (-1) (-1) (-1).

Local Open Scope res_scope.

(** One pass of the loop body for a non-zero [vecid]: the offset given to
    the context, the synchronization variables, the running lengths. *)
Definition reserve (count : Z) (vecid : nat) (sy : sync) (vi : list Z)
  : Res (Z * sync * list Z) :=
  if ((vecid <=? NUL) || (UNK <=? vecid))%nat then
    Fatal "Unrecognized vector id in PYTHON_declare"
  else
    let start := vec_get vi vecid in
    let drive (sy' : sync) := Ok (start, sy', vec_add vi vecid count) in
    let follow (mine : Z) (msg : string) :=
      if (mine <? 0)%Z then Fatal msg else Ok (mine, sy, vi) in
    if (vecid =? Z1L)%nat then
      drive (mkSync start (my_J1L sy) (my_ZEL sy) (my_X1L sy))
    else if (vecid =? Z1R)%nat then
      follow (my_Z1L sy) "Z1R without Z1L"
    else if (vecid =? J1L)%nat then
      drive (mkSync (my_Z1L sy) start (my_ZEL sy) (my_X1L sy))
    else if (vecid =? YJR)%nat then
      follow (my_J1L sy) "YJR without J1L"
    else if (vecid =? ZEL)%nat then
      drive (mkSync (my_Z1L sy) (my_J1L sy) start (my_X1L sy))
    else if ((vecid =? ZER) || (vecid =? EXZ))%nat then
      follow (my_ZEL sy) "ZER or EXZ without ZEL"
    else if (vecid =? X1L)%nat then
      drive (mkSync (my_Z1L sy) (my_J1L sy) (my_ZEL sy) start)
    else if ((vecid =? YXR) || (vecid =? X1R))%nat then
      follow (my_X1L sy) "YXR or X1R without X1L"
    else drive sy.

(** [for (j = 0; j < 6; j++)] over the row of the variable type: the
    offsets [vecoff] and the running lengths after the loop. *)
Fixpoint reserve_all (count : Z) (row : list nat) (sy : sync) (vi : list Z)
  : Res (list Z * list Z) :=
  match row with
  | [] => Ok ([], vi)
  | vecid :: rest =>
      if (vecid =? 0)%nat then
        r <- reserve_all count rest sy vi ;;
        Ok (0%Z :: fst r, snd r)
      else
        s <- reserve count vecid sy vi ;;
        let '(off, sy', vi') := s in
        r <- reserve_all count rest sy' vi' ;;
        Ok (off :: fst r, snd r)
  end.

(** *** The registry, a list sorted by name *)

(** The loop [for (nxt = cur->next; nxt; nxt = nxt->next)] and the
    final append: the list from [cur] on, with [newvar] linked in. *)
Fixpoint insert_after (newvar cur : variable) (rest : list variable)
  : Res (list variable) :=
  match rest with
  | [] => Ok [cur; newvar]
  | nxt :: rest' =>
      let check := strcasecmp (v_str newvar) (v_str nxt) in
      if (check =? 0)%Z then
        Fatal "Multiple definitions of variable in PYTHON_declare"
      else if (check <? 0)%Z then Ok (cur :: newvar :: nxt :: rest')
      else
        tl <- insert_after newvar nxt rest' ;;
        Ok (cur :: tl)
  end.

Definition insert_variable (newvar : variable) (head : list variable)
  : Res (list variable) :=
  match head with
  | [] => Ok [newvar]
  | cur :: rest =>
      let check := strcasecmp (v_str newvar) (v_str cur) in
      if (check =? 0)%Z then
        Fatal "Multiple definitions of variable in PYTHON_declare"
      else if (check <? 0)%Z then Ok (newvar :: head)
      else insert_after newvar cur rest
  end.

(** The search loop of [get_msgname]. *)
Fixpoint find_variable (str : string) (vars : list variable)
  : Res variable :=
  match vars with
  | [] => Fatal "Name not in variable list in get_msgname"
  | thisvar :: rest =>
      let check := strcasecmp str (v_str thisvar) in
      if (check =? 0)%Z then Ok thisvar
      else if (check <? 0)%Z then
        Fatal "Name not in variable list in get_msgname"
      else find_variable str rest
  end.

Definition side_name (sel : Z) : string :=
  if (sel =? 0)%Z then "LHS in lag()"
  else if (sel =? 1)%Z then "LHS without lag() or lead()"
  else if (sel =? 2)%Z then "LHS in lead()"
  else if (sel =? 3)%Z then "RHS in lag()"
  else if (sel =? 4)%Z then "RHS without lag() or lead()"
  else "RHS in lead()".

Section GetMsgname.

Variable M : Model.

Definition get_msgname (head : list variable) (str : string)
           (sublist : list string) (context : Context) : Res string :=
  match head with
  | [] => Fatal "Variable list is blank in get_msgname"
  | _ =>
      thisvar <- find_variable str head ;;
      if (ctx_dt context <? -1)%Z then
        msg_error "" "lag(lag(var)) cannot be used with msgproc"
      else if (ctx_dt context >? 1)%Z then
        msg_error "" "lead(lead(var)) cannot be used with msgproc"
      else
        let sel := (1 + ctx_dt context
                    + (if ctx_lhs context then 0 else 3))%Z in
        let vecid := nth (Z.to_nat sel) (v_vecid thisvar) 0%nat in
        if (vecid =? 0)%nat then
          msg_error "Invalid context for variable "
                    (concat [str; nl; "   Type '"; v_type thisvar; "' on ";
                             side_name sel])
        else
          let numsubs :=
            sub_offset M str sublist
                       (nth (Z.to_nat sel) (v_vecoff thisvar) 0%Z) in
          Ok (concat [nth vecid vecname ""; "["; slprint M numsubs; "]"])
  end.

Definition PYTHON_show_symbol := get_msgname.

End GetMsgname.

(** *** Declarations, [PYTHON_declare] *)

Section Python.

Variable M : Model.

Definition same_name (a b : string) : bool := (strcasecmp a b =? 0)%Z.

Record nameform : Type := mkNameform {
  nf_type : oldform;
  nf_a : Z;
  nf_g : Z;
  nf_c : Z;
  nf_d : Z;
  nf_o : Z;
  nf_flags : Z
}.

(** One pass of the loop of [setup_pythonname] over the sets. *)
Definition classify_set (name : string) (i : Z) (nf : nameform) : nameform :=
  let nf :=
    if same_name name setname_regions || issubset M name setname_regions
    then
      let o := if same_name name "orig" || same_name name "currency"
               then i else nf_o nf in
      let d := if same_name name "dest" || same_name name "owner"
               then i else nf_d nf in
      mkNameform (nf_type nf) (nf_a nf) (nf_g nf) i d o
                 (Z.lor (nf_flags nf) 1)
    else nf in
  let nf :=
    if same_name name setname_sectors || issubset M name setname_sectors
    then
      mkNameform (nf_type nf) i (nf_g nf) (nf_c nf) (nf_d nf) (nf_o nf)
                 (Z.lor (nf_flags nf)
                        (if (Z.land (nf_flags nf) 2 =? 0)%Z then 2 else 255))
    else nf in
  if same_name name setname_goods || issubset M name setname_goods
  then
    mkNameform (nf_type nf) (nf_a nf) i (nf_c nf) (nf_d nf) (nf_o nf)
               (Z.lor (nf_flags nf)
                      (if (Z.land (nf_flags nf) 4 =? 0)%Z then 4 else 255))
  else nf.

Fixpoint classify_sets (sets : list string) (i : Z) (nf : nameform)
  : nameform :=
  match sets with
  | [] => nf
  | name :: rest => classify_sets rest (i + 1) (classify_set name i nf)
  end.

Definition form_of_flags (flags : Z) : oldform :=
  if (flags =? 1)%Z then o_cc
  else if (flags =? 2)%Z then o_a
  else if (flags =? 4)%Z then o_g
  else if (flags =? 3)%Z then o_acc
  else if (flags =? 5)%Z then o_gcc
  else if (flags =? 7)%Z then o_agcc
  else o_err.

Definition is_bad_form (f : oldform) : bool :=
  match f with o_err | o_unk => true | _ => false end.

Definition setup_pythonname (str : string) (sets : list string)
  : Res nameform :=
  let nf0 := mkNameform o_unk (-1) (-1) (-1) (-1) (-1) 0 in
  match sets with
  | [] => Ok (mkNameform o_none (-1) (-1) (-1) (-1) (-1) 0)
  | _ =>
      let nf := classify_sets sets 0 nf0 in
      let form := form_of_flags (nf_flags nf) in
      let form :=
        if (0 <=? nf_o nf)%Z && (0 <=? nf_d nf)%Z then
          if (nf_g nf <? 0)%Z then o_do else o_gdo
        else form in
      let form :=
        if same_name str "REXC" || same_name str "EXCH" then o_cu
        else form in
      if is_bad_form form then
        msg_error "Variable has unexpected type: " str
      else Ok (mkNameform form (nf_a nf) (nf_g nf) (nf_c nf) (nf_d nf)
                          (nf_o nf) (nf_flags nf))
  end.

(** The loop over [vlist] that finds the type of the symbol: the index
    found last, or the fatal second match of a variable. *)
Fixpoint find_type (sym : Symbol) (rows : list vartype_info) (i : nat)
         (found : bool) (vi : nat) : Res (bool * nat) :=
  match rows with
  | [] => Ok (found, vi)
  | row :: rest =>
      if (String.length (vt_type row) =? 0)%nat then
        Fatal "Corrupted vlist in Python_declare"
      else if istype sym par && String.eqb (vt_type row) "par" then
        Ok (true, i)
      else if istype sym var && ismember M (vt_type row) (symattrib sym) then
        if found then
          msg_error "Multiple variable types for variable: " (symname sym)
        else find_type sym rest (S i) true i
      else find_type sym rest (S i) found vi
  end.

Fixpoint find_unit (attlist : list string) (us : list string)
  : option string :=
  match us with
  | [] => None
  | u :: rest => if ismember M u attlist then Some u else find_unit attlist rest
  end.

(** [write_vars]: the run ends when the region subscript is out of
    range; else the variable gets the next numbers of the VARS list. *)
Definition write_vars (nf : nameform) (name : string)
           (setlist : list string) (vars : Z) : Res (Z * Z) :=
  let region_index := if (0 <=? nf_d nf)%Z then nf_d nf else nf_c nf in
  if (Z.of_nat (List.length setlist) <=? region_index)%Z then
    msg_error "internal error when determining region of variable " name
  else Ok (vars, (vars + Z.of_nat (List.length (cart M setlist)))%Z).

(** The context of slot [j] in [write_varmap]. *)
Definition slot_context (j : nat) : Context :=
  mkContext (j <? 3)%nat
            (if ((j =? 0) || (j =? 3))%nat then (-1)%Z
             else if ((j =? 2) || (j =? 5))%nat then 1%Z else 0%Z)
            None.

Fixpoint names_of_tuples (head : list variable) (str : string)
         (ctx : Context) (tuples : list (list string))
  : Res (list string) :=
  match tuples with
  | [] => Ok []
  | cur :: rest =>
      name <- get_msgname M head str cur ctx ;;
      names <- names_of_tuples head str ctx rest ;;
      Ok (name :: names)
  end.

(** [write_varmap]: one name per legal context and tuple; the model
    keeps the names and leaves out the rest of the line written. *)
Fixpoint write_varmap_from (head : list variable) (thisvar : variable)
         (setlist : list string) (j : nat) (vecids : list nat)
  : Res (list string) :=
  match vecids with
  | [] => Ok []
  | vecid :: rest =>
      here <- (if (vecid =? 0)%nat then Ok []
               else names_of_tuples head (v_str thisvar) (slot_context j)
                                    (cart M setlist)) ;;
      more <- write_varmap_from head thisvar setlist (S j) rest ;;
      Ok (here ++ more)
  end.

Definition write_varmap (head : list variable) (thisvar : variable)
           (setlist : list string) : Res (list string) :=
  write_varmap_from head thisvar setlist 0 (v_vecid thisvar).

Definition PYTHON_declare (sym : Symbol) (st : PyState) : Res PyState :=
  if istype sym set then Ok st
  else if negb (isident sym) then
    Fatal "Invalid symbol type passed to PYTHON_declare"
  else
    let name := symname sym in
    let vallist := symvalue sym in
    let count := symsize sym in
    if (count <? 1)%Z then
      Fatal "Symbol has no element count in PYTHON_declare"
    else
      nf <- (if istype sym par || istype sym var
             then setup_pythonname name vallist
             else Ok (mkNameform o_unk 0 0 0 0 0 0)) ;;
      ft <- find_type sym vlist 0 false 0 ;;
      let '(found, vi) := ft in
      if istype sym var && negb found then
        msg_error "No type declared for variable " name
      else if istype sym par && negb found then
        Fatal "Failed to find parameter in vlist in PYTHON_declare"
      else
        let row := nth vi vlist (mkVartype "" []) in
        unit <- (if istype sym var then
                   match find_unit (symattrib sym) units with
                   | Some u => Ok u
                   | None =>
                       msg_error "No units given for variable "
                                 (concat [name; " with attributes ";
                                          slprint M (symattrib sym)])
                   end
                 else Ok "") ;;
        res <- reserve_all count (vt_vecid row) sync_init (vecinfo st) ;;
        let '(vecoff, vecinfo') := res in
        wv <- (if istype sym var
               then write_vars nf name vallist (MSGPROC_vars st)
               else Ok (0%Z, MSGPROC_vars st)) ;;
        let '(first, vars') := wv in
        let newvar :=
          mkVariable name (vt_type row) unit (vt_vecid row) vecoff
                     (symtype sym) (nf_type nf) (nf_a nf) (nf_g nf)
                     (nf_c nf) (nf_d nf) (nf_o nf) first in
        head' <- insert_variable newvar (v_head st) ;;
        _ <- write_varmap head' newvar vallist ;;
        Ok (mkPyState vecinfo' head' (MSGPROC_block st) (MSGPROC_scalar st)
                      vars' (info st)).

End Python.

(** *** File, block and end-of-run hooks *)

Section PythonHooks.

Variable M : Model.
Variable opts : Options.

Definition side_files (basename : string) : list string :=
  [concat [basename; "_varmap.csv"]; concat [basename; "_optmap.csv"];
   concat [basename; "_varinfo.csv"]; concat [basename; "_vars.csv"]].

Fixpoint open_files (names : list string) : Res unit :=
  match names with
  | [] => Ok tt
  | fname :: rest =>
      if can_create M fname then open_files rest
      else msg_error "Could not create file: " fname
  end.

Definition python_header : string :=
  concat ["import numpy as np"; nl; "from math import exp"; nl;
          "from math import log"; nl; nl; nl;
          "def msgproc(x1l:np.ndarray, j1l:np.ndarray, zel:np.ndarray, z1l:np.ndarray, x1r:np.ndarray, j1r:np.ndarray, z1r:np.ndarray, zer:np.ndarray, yjr:np.ndarray, yxr:np.ndarray, exo:np.ndarray, exz:np.ndarray, par:np.ndarray):";
          nl; nl].

Definition PYTHON_begin_file (basename : string) (s : string * PyState)
  : Res (string * PyState) :=
  _ <- open_files (side_files basename) ;;
  let st := snd s in
  Ok (emit python_header
           (fst s, mkPyState (repeat PYTHON_ORIGIN (S UNK)) (v_head st)
                             (MSGPROC_block st) (MSGPROC_scalar st)
                             (MSGPROC_vars st) (info st))).

Definition PYTHON_begin_block (eq : Eqn) (s : string * PyState)
  : Res (string * PyState) :=
  let st := snd s in
  let nblk := MSGPROC_block st in
  let nstart := MSGPROC_scalar st in
  let nscalar := eqncount eq in
  let nend := (nstart + nscalar - 1)%Z in
  let st' := mkPyState (vecinfo st) (v_head st) (nblk + 1)%Z (nend + 1)%Z
                       (MSGPROC_vars st) (info st) in
  let s1 := emit (concat ["    # Equation block "; show_int nblk; nl])
                 (fst s, st') in
  if negb (islvalue eq) then
    msg_error "" "LHS of an equation is not a variable"
  else
    let s2 :=
      match eqnsets eq with
      | [] => s1
      | _ => emit (concat ["    #    Defined over sets (";
                           slprint M (eqnsets eq); ")"; nl]) s1
      end in
    Ok (if (nscalar =? 0)%Z
        then emit (concat ["    #    Contains undeclared symbols"; nl]) s2
        else emit (concat ["    #    Scalar equations "; show_int nstart;
                           "-"; show_int nend; " ("; show_int nscalar;
                           " total)"; nl; nl]) s2).

(** The three counts of [PYTHON_end_file]. *)
Definition ecount (st : PyState) : Z := (MSGPROC_scalar st - 1)%Z.

Definition vcount (st : PyState) : Z :=
  (vec_get (vecinfo st) Z1L + vec_get (vecinfo st) ZEL
   + vec_get (vecinfo st) J1L + vec_get (vecinfo st) X1L
   - 4 * PYTHON_ORIGIN)%Z.

Fixpoint unused_size (syms : list Symbol) : Z :=
  match syms with
  | [] => 0
  | cur :: rest =>
      if ismember M "end" (symattrib cur) && negb (isused cur)
      then (symsize cur + unused_size rest)%Z
      else unused_size rest
  end.

Definition ucount : Z := unused_size (symbols M var).

(** The vectors whose length is listed in the [info] file. *)
Definition listed_vectors : list nat := [Z1L; ZEL; J1L; X1L; EXO; PAR].

Definition length_line (vi : list Z) (i : nat) : string :=
  concat ["   "; nth i vecname ""; " has ";
          show_int (vec_get vi i - PYTHON_ORIGIN); " elements"; nl].

Definition count_mismatch : string :=
  "Counts of equations and endogenous variables do not match.".

(** What [PYTHON_end_file] writes to [info] before it compares. *)
Definition end_file_report (st : PyState) : string :=
  concat [nl; "Length of MSGPROC Vectors:"; nl; nl;
          concat (map (length_line (vecinfo st)) listed_vectors);
          nl;
          "Equation Count: "; show_int (ecount st); nl;
          "Endogenous Variables, Used:   ";
          show_int (vcount st - ucount); nl;
          "Endogenous Variables, Total:  "; show_int (vcount st); nl].

(** The lines [PYTHON_end_file] prints to [info] before it calls
    [msg_error]. *)
Definition fatal_error_lines (err : string) : string :=
  concat [nl; "Fatal Error:"; nl; "   "; err; nl].

(** [fprintf(info, ...)] *)
Definition add_info (text : string) (s : string * PyState)
  : string * PyState :=
  let st := snd s in
  (fst s,
   mkPyState (vecinfo st) (v_head st) (MSGPROC_block st) (MSGPROC_scalar st)
             (MSGPROC_vars st) (concat [info st; text])).

(** [PYTHON_end_file]: the streams as the function leaves them, and how
    it ends.  The last line of [code] and the report on [info] are
    written before the counts are compared, whatever the comparison
    gives; on a mismatch the error is written to [info] as well, and
    [msg_error] ends the run. *)
Definition end_file_outcome (s : string * PyState)
  : (string * PyState) * Res unit :=
  let st := snd s in
  let s1 :=
    add_info (end_file_report st)
             (emit (concat [nl; "# END OF MSGPROC function declaration"; nl])
                   s) in
  if (ecount st =? vcount st - ucount)%Z then (s1, Ok tt)
  else (add_info (fatal_error_lines count_mismatch) s1,
        msg_error "" count_mismatch).

(** The function as a hook of the driver: the run goes on with the
    streams it leaves, or ends in its fatal error. *)
Definition PYTHON_end_file (s : string * PyState) : Res (string * PyState) :=
  match snd (end_file_outcome s) with
  | Ok _ => Ok (fst (end_file_outcome s))
  | Fatal m => Fatal m
  end.

(** *** The backend as a handler *)

Definition python_show_symbol (head : list variable) (name : string)
           (domain setlist sublist : list string) (ctx : Context)
  : Res string :=
  PYTHON_show_symbol M head name (symbol_subs M domain setlist sublist) ctx.

(** The hooks [PYTHON_show_eq] calls. *)
Definition python_leaf (X : Type) (c : Cmd X) (s : string * PyState)
  : Res (X * (string * PyState)) :=
  match c in Cmd T return Res (T * (string * PyState)) with
  | codegen_show_node prevtype cur setlist sublist =>
      text <- PYTHON_show_node (python_show_symbol (v_head (snd s)))
                               Default_begin_func Default_end_func
                               (is_sum_scalar opts) (setelements M)
                               prevtype cur setlist sublist ;;
      Ok (text, s)
  | codegen_begin_eqn _ => Ok (tt, emit "    " s)
  | codegen_end_eqn _ => Ok (tt, emit (concat [nl; nl]) s)
  | codegen_begin_file _ | codegen_end_file | codegen_declare _
  | codegen_begin_block _ | codegen_show_eq _ _ _
  | codegen_wrap_write _ _ _ | fprintf_code _ | fclose_code | fclose_info
  | remove_file _ => Ok (tt, s)
  end.

(** [show_eq] runs over these hooks and the [code] stream. *)
Definition leaf_handler :=
  stream_handler (get_line_length opts) python_leaf.

Definition unit_result {S} (r : Res S) : Res (unit * S) :=
  s <- r ;; Ok (tt, s).

(** The hooks [PYTHON_write_file] calls. *)
Definition python_hooks (X : Type) (c : Cmd X) (s : string * PyState)
  : Res (X * (string * PyState)) :=
  match c in Cmd T return Res (T * (string * PyState)) with
  | codegen_begin_file basename => unit_result (PYTHON_begin_file basename s)
  | codegen_end_file => unit_result (PYTHON_end_file s)
  | codegen_declare sym =>
      st' <- PYTHON_declare M sym (snd s) ;; Ok (tt, (fst s, st'))
  | codegen_begin_block eq => unit_result (PYTHON_begin_block eq s)
  | codegen_show_eq eq setlist sublist =>
      snd (run leaf_handler (PYTHON_show_eq opts eq setlist sublist) s)
  | c' => python_leaf c' s
  end.

Definition python_handler :=
  stream_handler (get_line_length opts) python_hooks.

(** A run of the backend on a model, from the initial state. *)
Definition python_run (basename : string)
  : list Event * Res (unit * (string * PyState)) :=
  run python_handler (PYTHON_write_file opts M basename)
      (EmptyString, initial_state).

End PythonHooks.

(** *** A model with three endogenous scalars *)

Definition endo (name : string) : Symbol :=
  mkSymbol var true name "" [] 1 ["end"; "pct"] true.

Definition eqn_for (name : string) : Eqn :=
  mkEqn (Some (NODE nam name None None [] true 0)) (Some (leaf num "1"))
        [] 1 false true true.

Definition vars_only (vars : list Symbol) (t : Symboltype) : list Symbol :=
  match t with var => vars | _ => [] end.

Definition three_endo : list Symbol := [endo "x"; endo "y"; endo "z"].

Definition balanced_model : Model :=
  simple_model (vars_only three_endo)
               [eqn_for "x"; eqn_for "y"; eqn_for "z"] (fun _ => []).

Definition short_model : Model :=
  simple_model (vars_only three_endo) [eqn_for "x"; eqn_for "y"]
               (fun _ => []).

Definition python_opts : Options := mkOptions scalar scalar false 0.

(** *** Vocabulary of the backend properties *)

(** The vector whose offset a follower vector reuses. *)
Definition driver_of (vecid : nat) : option nat :=
  if (vecid =? Z1R)%nat then Some Z1L
  else if (vecid =? YJR)%nat then Some J1L
  else if ((vecid =? ZER) || (vecid =? EXZ))%nat then Some ZEL
  else if ((vecid =? YXR) || (vecid =? X1R))%nat then Some X1L
  else None.

Definition valid_vecid (vecid : nat) : Prop := (NUL < vecid < UNK)%nat.

(** The running lengths as [PYTHON_begin_file] and the allocator leave
    them: one per vector, none negative. *)
Definition lengths_ok (vi : list Z) : Prop :=
  List.length vi = S UNK /\ Forall (fun x => (0 <= x)%Z) vi.



Definition lag_message : string := "lag(lag(var)) cannot be used with msgproc".
Definition lead_message : string :=
  "lead(lead(var)) cannot be used with msgproc".

(** Two registries with the same names, entry by entry. *)
Definition same_names (h1 h2 : list variable) : Prop :=
  map v_str h1 = map v_str h2.

Definition x_end : variable :=
  mkVariable "x" "end" "pct" [0; Z1L; 0; 0; Z1R; 0]%nat [0; 0; 0; 0; 0; 0]%Z
             var o_none (-1) (-1) (-1) (-1) (-1) 1.

(** The order of the registry: names compared without case. *)
Definition name_lt (u v : variable) : Prop :=
  (strcasecmp (v_str u) (v_str v) < 0)%Z.

(** The invariant of the registry: strictly increasing names, hence no
    two names equal without case. *)
Definition registry_sorted (head : list variable) : Prop :=
  StronglySorted name_lt head.

Definition names_unique (head : list variable) : Prop :=
  ForallOrdPairs (fun u v => same_name (v_str u) (v_str v) = false) head.

(** [name] is registered, up to case. *)
Definition registered (name : string) (head : list variable) : Prop :=
  exists v, In v head /\ same_name name (v_str v) = true.

Definition duplicate_message : string :=
  "Multiple definitions of variable in PYTHON_declare".

(** The declarations of a list of symbols, one after the other. *)
Fixpoint declare_each (M : Model) (syms : list Symbol) (st : PyState)
  : Res PyState :=
  match syms with
  | [] => Ok st
  | sym :: rest =>
      match PYTHON_declare M sym st with
      | Ok st' => declare_each M rest st'
      | Fatal m => Fatal m
      end
  end.

(** Two symbols that are not sets and have the same name up to case. *)
Definition has_duplicate (syms : list Symbol) : Prop :=
  exists pre s1 mid s2 post,
    syms = pre ++ s1 :: mid ++ s2 :: post
    /\ istype s1 set = false
    /\ istype s2 set = false
    /\ same_name (symname s2) (symname s1) = true.

Definition twice_model : Model :=
  simple_model (vars_only [endo "gdp"; endo "GDP"]) [eqn_for "gdp"]
               (fun _ => []).

Definition state_with (head : list variable) : PyState :=
  mkPyState (repeat 0%Z 14) head 1 1 1 "".





(** The state of the backend after the two blocks of [short_model]. *)
Definition short_state : PyState :=
  mkPyState [0; 3; 0; 0; 0; 0; 0; 0; 0; 0; 0; 0; 0; 0]%Z [] 3 3 4 "".

(** *** Vocabulary of the lookup and allocation properties *)

(** The slot of the six-entry rows a context selects in [get_msgname]. *)
Definition slot_of (ctx : Context) : nat :=
  Z.to_nat (1 + ctx_dt ctx + (if ctx_lhs ctx then 0 else 3)).

Definition not_in_list : string := "Name not in variable list in get_msgname".

(** What [get_msgname] answers for a name registered with the vectors
    [vecids], the offsets [offs] and the type tag [tag]. *)
Definition reference (M : Model) (name tag : string) (vecids : list nat)
           (offs : list Z) (sublist : list string) (ctx : Context)
  : Res string :=
  if (ctx_dt ctx <? -1)%Z then Fatal lag_message
  else if (ctx_dt ctx >? 1)%Z then Fatal lead_message
  else
    let sel := (1 + ctx_dt ctx + (if ctx_lhs ctx then 0 else 3))%Z in
    let vecid := nth (slot_of ctx) vecids 0%nat in
    if (vecid =? 0)%nat then
      msg_error "Invalid context for variable "
                (concat [name; nl; "   Type '"; tag; "' on "; side_name sel])
    else
      Ok (concat [nth vecid vecname ""; "[";
                  slprint M (sub_offset M name sublist
                                        (nth (slot_of ctx) offs 0%Z)); "]"]).

(** The vector whose running length a context of vector [vecid] is
    allocated from: its driver, or the vector itself. *)
Definition base_of (vecid : nat) : nat :=
  match driver_of vecid with
  | Some d => d
  | None => vecid
  end.

(** Slot [j] of a registered variable: its vector and its offset. *)
Definition slot_vec (v : variable) (j : nat) : nat := nth j (v_vecid v) 0%nat.
Definition slot_off (v : variable) (j : nat) : Z := nth j (v_vecoff v) 0%Z.

(** Every offset handed out lies inside the vector it was taken from. *)
Definition offsets_in_bounds (st : PyState) : Prop :=
  forall v j, In v (v_head st) -> slot_vec v j <> 0%nat ->
              (0 <= slot_off v j < vec_get (vecinfo st) (base_of (slot_vec v j)))%Z.

(** Two variables with different names never start at the same place of
    a vector. *)
Definition offsets_apart (st : PyState) : Prop :=
  forall u v j k,
    In u (v_head st) -> In v (v_head st) ->
    same_name (v_str u) (v_str v) = false ->
    slot_vec u j <> 0%nat -> slot_vec v k <> 0%nat ->
    base_of (slot_vec u j) = base_of (slot_vec v k) ->
    slot_off u j <> slot_off v k.

Record alloc_inv (st : PyState) : Prop := {
  ai_lengths : lengths_ok (vecinfo st);
  ai_bounds : offsets_in_bounds st;
  ai_apart : offsets_apart st
}.

(** *** The running lengths as C [int]

    [vecinfo] is an array of [int], and [vecinfo[vecid] += count] adds
    two [int]: past [INT_MAX] the sum wraps around.  [vec_add] counts
    without bound.  The definitions below repeat the allocator and the
    declaration with the addition as the machine makes it; the two agree
    as long as there is room for the element counts declared. *)

Definition INT_MAX : Z := 2147483647.

(** The value a 32-bit [int] holds after an addition. *)
Definition int_wrap (z : Z) : Z :=
  ((z + 2147483648) mod 4294967296 - 2147483648)%Z.
Arguments int_wrap : simpl never.

Fixpoint vec_add_int (v : list Z) (i : nat) (c : Z) : list Z :=
  match v, i with
  | [], _ => []
  | x :: rest, O => int_wrap (x + c) :: rest
  | x :: rest, S j => x :: vec_add_int rest j c
  end.

Definition reserve_int (count : Z) (vecid : nat) (sy : sync) (vi : list Z)
  : Res (Z * sync * list Z) :=
  if ((vecid <=? NUL) || (UNK <=? vecid))%nat then
    Fatal "Unrecognized vector id in PYTHON_declare"
  else
    let start := vec_get vi vecid in
    let drive (sy' : sync) := Ok (start, sy', vec_add_int vi vecid count) in
    let follow (mine : Z) (msg : string) :=
      if (mine <? 0)%Z then Fatal msg else Ok (mine, sy, vi) in
    if (vecid =? Z1L)%nat then
      drive (mkSync start (my_J1L sy) (my_ZEL sy) (my_X1L sy))
    else if (vecid =? Z1R)%nat then
      follow (my_Z1L sy) "Z1R without Z1L"
    else if (vecid =? J1L)%nat then
      drive (mkSync (my_Z1L sy) start (my_ZEL sy) (my_X1L sy))
    else if (vecid =? YJR)%nat then
      follow (my_J1L sy) "YJR without J1L"
    else if (vecid =? ZEL)%nat then
      drive (mkSync (my_Z1L sy) (my_J1L sy) start (my_X1L sy))
    else if ((vecid =? ZER) || (vecid =? EXZ))%nat then
      follow (my_ZEL sy) "ZER or EXZ without ZEL"
    else if (vecid =? X1L)%nat then
      drive (mkSync (my_Z1L sy) (my_J1L sy) (my_ZEL sy) start)
    else if ((vecid =? YXR) || (vecid =? X1R))%nat then
      follow (my_X1L sy) "YXR or X1R without X1L"
    else drive sy.

Local Open Scope res_scope.

Fixpoint reserve_all_int (count : Z) (row : list nat) (sy : sync)
         (vi : list Z) : Res (list Z * list Z) :=
  match row with
  | [] => Ok ([], vi)
  | vecid :: rest =>
      if (vecid =? 0)%nat then
        r <- reserve_all_int count rest sy vi ;;
        Ok (0%Z :: fst r, snd r)
      else
        s <- reserve_int count vecid sy vi ;;
        let '(off, sy', vi') := s in
        r <- reserve_all_int count rest sy' vi' ;;
        Ok (off :: fst r, snd r)
  end.

Definition PYTHON_declare_int (M : Model) (sym : Symbol) (st : PyState)
  : Res PyState :=
  if istype sym set then Ok st
  else if negb (isident sym) then
    Fatal "Invalid symbol type passed to PYTHON_declare"
  else
    let name := symname sym in
    let vallist := symvalue sym in
    let count := symsize sym in
    if (count <? 1)%Z then
      Fatal "Symbol has no element count in PYTHON_declare"
    else
      nf <- (if istype sym par || istype sym var
             then setup_pythonname M name vallist
             else Ok (mkNameform o_unk 0 0 0 0 0 0)) ;;
      ft <- find_type M sym vlist 0 false 0 ;;
      let '(found, vi) := ft in
      if istype sym var && negb found then
        msg_error "No type declared for variable " name
      else if istype sym par && negb found then
        Fatal "Failed to find parameter in vlist in PYTHON_declare"
      else
        let row := nth vi vlist (mkVartype "" []) in
        unit <- (if istype sym var then
                   match find_unit M (symattrib sym) units with
                   | Some u => Ok u
                   | None =>
                       msg_error "No units given for variable "
                                 (concat [name; " with attributes ";
                                          slprint M (symattrib sym)])
                   end
                 else Ok "") ;;
        res <- reserve_all_int count (vt_vecid row) sync_init (vecinfo st) ;;
        let '(vecoff, vecinfo') := res in
        wv <- (if istype sym var
               then write_vars M nf name vallist (MSGPROC_vars st)
               else Ok (0%Z, MSGPROC_vars st)) ;;
        let '(first, vars') := wv in
        let newvar :=
          mkVariable name (vt_type row) unit (vt_vecid row) vecoff
                     (symtype sym) (nf_type nf) (nf_a nf) (nf_g nf)
                     (nf_c nf) (nf_d nf) (nf_o nf) first in
        head' <- insert_variable newvar (v_head st) ;;
        _ <- write_varmap M head' newvar vallist ;;
        Ok (mkPyState vecinfo' head' (MSGPROC_block st) (MSGPROC_scalar st)
                      vars' (info st)).

Fixpoint declare_each_int (M : Model) (syms : list Symbol) (st : PyState)
  : Res PyState :=
  match syms with
  | [] => Ok st
  | sym :: rest =>
      match PYTHON_declare_int M sym st with
      | Ok st' => declare_each_int M rest st'
      | Fatal m => Fatal m
      end
  end.

(** No running length is beyond [INT_MAX]. *)
Definition int_lengths (vi : list Z) : Prop :=
  Forall (fun x => (x <= INT_MAX)%Z) vi.

(** The element counts of the symbols that are not sets, added up. *)
Fixpoint declared_size (syms : list Symbol) : Z :=
  match syms with
  | [] => 0
  | sym :: rest =>
      if istype sym set then declared_size rest
      else (symsize sym + declared_size rest)%Z
  end.

(** Every vector has room for all the elements of [syms]. *)
Definition room_for (syms : list Symbol) (vi : list Z) : Prop :=
  Forall (fun x => (x + declared_size syms <= INT_MAX)%Z) vi.

(** A variable of type [end] with [INT_MAX] elements. *)
Definition huge_endo (name : string) : Symbol :=
  mkSymbol var true name "" [] INT_MAX ["end"; "pct"] true.

(** The indices of the rows of [vlist] whose tag is an attribute. *)
Fixpoint tagged_rows (M : Model) (attrs : list string)
         (rows : list vartype_info) (i : nat) : list nat :=
  match rows with
  | [] => []
  | row :: rest =>
      if ismember M (vt_type row) attrs
      then i :: tagged_rows M attrs rest (S i)
      else tagged_rows M attrs rest (S i)
  end.


(** The state after [x] of type [end] has been declared first. *)
Definition x_declared : PyState :=
  mkPyState [0; 1; 0; 0; 0; 0; 0; 0; 0; 0; 0; 0; 0; 0]%Z [x_end] 1 1 2 "".

(** The state after [x], [y] and [z] have been declared. *)
Definition three_declared : PyState :=
  match declare_each balanced_model three_endo (state_with []) with
  | Ok st => st
  | Fatal _ => state_with []
  end.

(** A variable with two type tags. *)
Definition two_types : Symbol :=
  mkSymbol var true "w" "" [] 1 ["end"; "exo"; "pct"] true.

(** *** Vocabulary of the line-length properties *)

(** Every line of [s] is at most [B] characters long, the first one
    counted from column [cur]. *)
Fixpoint lines_within (B cur : nat) (s : string) : bool :=
  match s with
  | EmptyString => true
  | String c s' =>
      if is_char c nl then lines_within B 0 s'
      else (S cur <=? B)%nat && lines_within B (S cur) s'
  end.

Fixpoint only_newlines (s : string) : bool :=
  match s with
  | EmptyString => true
  | String c s' => is_char c nl && only_newlines s'
  end.

(** ** The HTML backend (lang/html.c) *)

(** *** Lists as text *)

(** The first loop of [html_slprint]: the size of the buffer, less one. *)
Fixpoint slprint_size (items : list string) (size : nat) : nat :=
  match items with
  | [] => size
  | cur :: rest =>
      let size := if (size =? 0)%nat then size else size + 2 in
      slprint_size rest (size + String.length cur)
  end.

(** The second loop: [strcpy] for the first item, [strcat] after it. *)
Fixpoint slprint_text (items : list string) (n : nat) (obuf : string)
  : string :=
  match items with
  | [] => obuf
  | cur :: rest =>
      slprint_text rest (S n)
                   (if (n =? 0)%nat then cur else concat [obuf; ", "; cur])
  end.

Definition html_slprint_size (items : list string) : nat :=
  slprint_size items 0.

Definition html_slprint (items : list string) : string :=
  match items with
  | [] => "&nbsp;"
  | _ => slprint_text items 0 ""
  end.

(** [concat(5, "<a href='#", str, "'>", str, "</a>")] *)
Definition anchorTag (s : string) : string :=
  concat ["<a href='#"; s; "'>"; s; "</a>"].

Fixpoint anchors_size (items : list string) (size : nat) : nat :=
  match items with
  | [] => size
  | cur :: rest =>
      let size := if (size =? 0)%nat then size else size + 2 in
      anchors_size rest (size + (2 * String.length cur + 19))
  end.

Fixpoint anchors_text (items : list string) (n : nat) (obuf : string)
  : string :=
  match items with
  | [] => obuf
  | cur :: rest =>
      anchors_text rest (S n)
                   (if (n =? 0)%nat then anchorTag cur
                    else concat [obuf; ", "; anchorTag cur])
  end.

Definition html_slprint_for_setlist_size (items : list string) : nat :=
  anchors_size items 0.

Definition html_slprint_for_setlist (items : list string) : string :=
  match items with
  | [] => "&nbsp;"
  | _ => anchors_text items 0 ""
  end.

(** [html_slprint_for_eqnlist] repeats the two loops; an empty list is
    the text [none]. *)
Definition html_slprint_for_eqnlist_size := html_slprint_for_setlist_size.

Definition html_slprint_for_eqnlist (items : list string) : string :=
  match items with
  | [] => "none"
  | _ => anchors_text items 0 ""
  end.

(** *** [str_replace] *)

(** [strstr(hay, needle)]: the offset of the first occurrence. *)
Fixpoint strstr (hay needle : string) : option nat :=
  if String.prefix needle hay then Some 0
  else match hay with
       | EmptyString => None
       | String _ hay' => option_map S (strstr hay' needle)
       end.

(** The counting loop
    [for (count = 0; (tmp = strstr(ins, rep)); ++count) ins = tmp + len_rep;]
    for a [rep] that is not empty, [String c rep']. *)
Equations? count_loop (c : ascii) (rep' ins : string) : nat
  by wf (String.length ins) lt :=
  count_loop c rep' EmptyString := 0;
  count_loop c rep' (String d ins')
    with strstr (String d ins') (String c rep') := {
    | Some k =>
        S (count_loop c rep'
                      (drop (String.length (String c rep') + k)
                            (String d ins')))
    | None => 0 }.
Proof.
  assert (Hdrop : forall n s, String.length (drop n s) <= String.length s)
    by (induction n as [|n IH]; intros [|e s]; simpl; auto;
        specialize (IH s); lia).
  specialize (Hdrop (String.length rep' + k) ins'). simpl. lia.
Qed.

(** The copying loop [while (count--)] and the final [strcpy]: the text
    from [tmp] on.  A [strstr] that finds nothing leaves [ins] null. *)
Fixpoint build_loop (count : nat) (orig rep with_ : string) : Res string :=
  match count with
  | O => Ok orig
  | S count' =>
      match strstr orig rep with
      | None => Fatal NULL_DEREF
      | Some len_front =>
          rbind (build_loop count'
                            (drop (len_front + String.length rep) orig)
                            rep with_)
                (fun tl => Ok (concat [take len_front orig; with_; tl]))
      end
  end.

(** The argument of [malloc]. *)
Definition str_replace_size (orig rep with_ : string) (count : nat) : Z :=
  (Z.of_nat (String.length orig)
   + (Z.of_nat (String.length with_) - Z.of_nat (String.length rep))
     * Z.of_nat count + 1)%Z.

(** [str_replace], called with strings that are not null and with a
    [malloc] that succeeds: [None] is the null pointer returned for an
    empty [rep]. *)
Definition str_replace (orig rep with_ : string) : Res (option string) :=
  match rep with
  | EmptyString => Ok None
  | String c rep' =>
      rbind (build_loop (count_loop c rep' orig) orig rep with_)
            (fun result => Ok (Some result))
  end.

(** *** The variable an equation defines, [getLhsVariableName] *)

Section LhsName.

(** [isname] of nodes.c *)
Variable isname : Node -> bool.

Fixpoint getLhsVariableName (node : Node) : string :=
  match node with
  | NODE _ s cl cr_ _ _ _ =>
      if isname node then s
      else
        let right :=
          match cr_ with
          | Some y =>
              let rightVariableName := getLhsVariableName y in
              if (0 <? String.length rightVariableName)%nat
              then rightVariableName else "Not a variable"
          | None => "Not a variable"
          end in
        match cl with
        | Some x =>
            let leftVariableName := getLhsVariableName x in
            if (0 <? String.length leftVariableName)%nat
            then leftVariableName else right
        | None => right
        end
  end.

(** Every name of the tree has a token that is not empty. *)
Fixpoint names_not_empty (node : Node) : bool :=
  match node with
  | NODE _ s cl cr_ _ _ _ =>
      (if isname node then (0 <? String.length s)%nat else true)
      && match cl with Some x => names_not_empty x | None => true end
      && match cr_ with Some y => names_not_empty y | None => true end
  end.

End LhsName.

(** [isname] as a test of the node type. *)
Definition is_nam (n : Node) : bool := Nodetype_eqb (type n) nam.

(** *** Vocabulary of the HTML properties *)

Definition total_length (items : list string) : nat :=
  fold_right (fun s n => String.length s + n) 0 items.

(** The characters [html_slprint] writes beyond the size it computed:
    two for every item that follows a run of empty items at the head of
    the list. *)
Fixpoint unsized (items : list string) : nat :=
  match items with
  | [] => 0
  | cur :: rest =>
      2 + (if (String.length cur =? 0)%nat then unsized rest else 0)
  end.

(** [s] with every character [c] replaced by [w]. *)
Fixpoint replace_char (c : ascii) (w : string) (s : string) : string :=
  match s with
  | EmptyString => EmptyString
  | String d s' =>
      if Ascii.eqb d c then (w ++ replace_char c w s')%string
      else String d (replace_char c w s')
  end.

(** *** Vocabulary of the nesting properties *)

(** The depth of parentheses after [s], entered at [depth]; [None] when
    a closing parenthesis has no opening one before it. *)
Fixpoint nesting (s : string) (depth : nat) : option nat :=
  match s with
  | EmptyString => Some depth
  | String c s' =>
      if is_char c "(" then nesting s' (S depth)
      else if is_char c ")" then
        match depth with
        | O => None
        | S d => nesting s' d
        end
      else nesting s' depth
  end.

(** Every parenthesis of [s] has its partner in [s], in the right
    order. *)
Definition well_nested (s : string) : Prop :=
  forall depth, nesting s depth = Some depth.

Definition optional (P : Node -> Prop) (x : option Node) : Prop :=
  match x with
  | Some n => P n
  | None => True
  end.

(** The tokens of a tree are well nested. *)
Fixpoint tokens_nested (n : Node) : Prop :=
  match n with
  | NODE _ s cl cr_ _ _ _ =>
      well_nested s
      /\ match cl with Some x => tokens_nested x | None => True end
      /\ match cr_ with Some y => tokens_nested y | None => True end
  end.

(** A pair of hooks [begin_func], [end_func] that opens one level of
    parentheses and closes it. *)
Definition envelope_nested
           (begin_func : string -> option string -> Res string)
           (end_func : Res string) : Prop :=
  forall func arg b e,
    well_nested func ->
    (forall a, arg = Some a -> well_nested a) ->
    begin_func func arg = Ok b -> end_func = Ok e ->
    forall depth,
      nesting b depth = Some (S depth) /\ nesting e (S depth) = Some depth.

(** A [show_symbol] hook whose references are well nested. *)
Definition symbols_nested
           (show_symbol : string -> list string -> list string ->
                          list string -> Context -> Res string) : Prop :=
  forall name dom sets subs ctx text,
    show_symbol name dom sets subs ctx = Ok text -> well_nested text.

(** The sum over [s] of [x(s)*y], a product of two sums. *)
Definition sum_of_products : Node :=
  NODE sum "sum" (Some (leaf nam "s"))
       (Some (binop mul "*" (leaf nam "x")
                    (binop add "+" (leaf nam "y") (leaf num "1"))))
       [] false 0.

(** A hook that writes every reference as [x]. *)
Definition x_symbol (_ : string) (_ _ _ : list string) (_ : Context)
  : Res string := Ok "x".

(** *** The diagnostic renderer of the HTML backend, [HTML_spprint]

    The text of [Default_spprint] with an opening brace before the
    parenthesis of a flagged operand, and braces around a list. *)

Fixpoint HTML_spprint_node (prevtype : Nodetype) (cur : Node)
         (indent : option string) {struct cur} : Res string :=
  match cur with
  | NODE ctype cstr cl cr_ _ _ _ =>
      rbind (spprint_parens prevtype ctype) (fun pc =>
      let '(parens, comma) := pc in
      let child (x : option Node) : Res string :=
        match x with
        | None => Ok ""
        | Some n => HTML_spprint_node ctype n indent
        end in
      match ctype with
      | sum | prd =>
          rbind (child cl) (fun lstr =>
          rbind (child cr_) (fun rstr =>
          Ok (concat [cstr; "("; lstr; ","; rstr; ")"])))
      | lst =>
          let lstr := match cr_ with
                      | Some n => lst_items n
                      | None => ""
                      end in
          Ok (concat ["{("; lstr; ")}"])
      | _ =>
          rbind (child cl) (fun lstr =>
          rbind (child cr_) (fun rstr =>
          let cr := match indent with
                    | Some ind =>
                        if too_long lstr rstr then concat [nl; ind] else ""
                    | None => ""
                    end in
          rbind (wrap_right_of ctype cr_) (fun wrap_right =>
          Ok (if parens then
                if wrap_right
                then concat ["{("; lstr; comma; cr; cstr; "("; rstr; "))"]
                else concat ["{("; lstr; comma; cr; cstr; rstr; ")"]
              else if wrap_right
                then concat [lstr; comma; cr; cstr; "("; rstr; ")"]
                else concat [lstr; comma; cr; cstr; rstr]))))
      end)
  end.

Definition HTML_spprint (prevtype : Nodetype) (cur : option Node)
           (indent : option string) : Res string :=
  match cur with
  | None => Ok ""
  | Some n => HTML_spprint_node prevtype n indent
  end.

(** *** Vocabulary of the brace property *)

Fixpoint count_char (c : ascii) (s : string) : nat :=
  match s with
  | EmptyString => 0
  | String d s' => (if Ascii.eqb d c then 1 else 0) + count_char c s'
  end.

Definition lbrace : ascii := "{"%char.
Definition rbrace : ascii := "}"%char.

Definition brace_free (s : string) : Prop :=
  count_char lbrace s = 0 /\ count_char rbrace s = 0.

Fixpoint tokens_brace_free (n : Node) : Prop :=
  match n with
  | NODE _ s cl cr_ _ _ _ =>
      brace_free s
      /\ match cl with Some x => tokens_brace_free x | None => True end
      /\ match cr_ with Some y => tokens_brace_free y | None => True end
  end.

(** The operands of a tree that [HTML_spprint] renders with the [parens]
    flag set, in its generic branch. *)
Fixpoint flagged_operands (prevtype : Nodetype) (n : Node) : nat :=
  match n with
  | NODE t _ cl cr_ _ _ _ =>
      let below :=
        match cl with Some x => flagged_operands t x | None => 0 end
        + match cr_ with Some y => flagged_operands t y | None => 0 end in
      match t with
      | lst => 0
      | sum | prd => below
      | _ =>
          match spprint_parens prevtype t with
          | Ok (true, _) => 1 + below
          | _ => below
          end
      end
  end.

(** The product [x*(y+1)]. *)
Definition product_with_sum : Node :=
  binop mul "*" (leaf nam "x") (binop add "+" (leaf nam "y") (leaf num "1")).

(** [s] without its braces. *)
Fixpoint erase_braces (s : string) : string :=
  match s with
  | EmptyString => EmptyString
  | String c s' =>
      if Ascii.eqb c lbrace || Ascii.eqb c rbrace then erase_braces s'
      else String c (erase_braces s')
  end.

(** *** Vocabulary of the name forms of [setup_pythonname] *)

(** [name] is the set [cls] or a subset of it. *)
Definition in_class (M : Model) (cls name : string) : bool :=
  same_name name cls || issubset M name cls.

Definition class_count (M : Model) (cls : string) (sets : list string)
  : nat :=
  List.length (filter (in_class M cls) sets).

Definition is_origin (M : Model) (name : string) : bool :=
  in_class M setname_regions name
  && (same_name name "orig" || same_name name "currency").

Definition is_destination (M : Model) (name : string) : bool :=
  in_class M setname_regions name
  && (same_name name "dest" || same_name name "owner").

(** The form for a variable with a region subscript or not, [s] sector
    subscripts and [g] goods subscripts. *)
Definition form_by_classes (r : bool) (s g : nat) : oldform :=
  match r, s, g with
  | true, 0, 0 => o_cc
  | false, 1, 0 => o_a
  | false, 0, 1 => o_g
  | true, 1, 0 => o_acc
  | true, 0, 1 => o_gcc
  | true, 1, 1 => o_agcc
  | _, _, _ => o_err
  end%nat.

Definition expected_form (M : Model) (str : string) (sets : list string)
  : oldform :=
  match sets with
  | [] => o_none
  | _ =>
      if same_name str "REXC" || same_name str "EXCH" then o_cu
      else if existsb (is_origin M) sets && existsb (is_destination M) sets
      then (if (class_count M setname_goods sets =? 0)%nat
            then o_do else o_gdo)
      else form_by_classes (0 <? class_count M setname_regions sets)%nat
                           (class_count M setname_sectors sets)
                           (class_count M setname_goods sets)
  end.

(** The value of [flags] for the subscripts seen so far. *)
Definition flags_of (r : bool) (s g : nat) : Z :=
  if ((2 <=? s) || (2 <=? g))%nat then 255
  else ((if r then 1 else 0) + 2 * Z.of_nat s + 4 * Z.of_nat g)%Z.

Definition b2n (b : bool) : nat := if b then 1 else 0.

(** *** The code renderer of the HTML backend, [HTML_show_node]

    The text of [Default_show_node] in LaTeX: flagged operands in
    [{(] and [)}], quotients as [\frac], scalar sums in [{\left(] and
    [\right)}].  The hooks and collaborators are section variables, as
    for [Default_show_node]. *)

Section HtmlRenderer.

Variable show_symbol :
  string -> list string -> list string -> list string -> Context -> Res string.
Variable codegen_begin_func : string -> option string -> Res string.
Variable codegen_end_func : Res string.
Variable is_sum_scalar : bool.
Variable setelements : string -> list string.

Local Open Scope res_scope.

Fixpoint HTML_show_node_rec (prevtype : Nodetype) (cur : Node)
         (setlist sublist : list string) {struct cur} : Res string :=
  match cur with
  | NODE ctype cstr cl cr_ cdomain clhs cdt =>
      let mycontext := mkContext clhs cdt None in
      parens <- show_node_parens prevtype ctype ;;
      let child (x : option Node) (sets subs : list string) : Res string :=
        match x with
        | None => Ok ""
        | Some n => HTML_show_node_rec ctype n sets subs
        end in
      match ctype with
      | nam => show_symbol cstr cdomain setlist sublist mycontext
      | lag | led => child cr_ setlist sublist
      | dom => child cl setlist sublist
      | lst => Fatal "Unexpected lst state in show_node"
      | sum | prd =>
          match cl with
          | None => Fatal NULL_DEREF
          | Some ln =>
              let lstr := str ln in
              let augsets := setlist ++ [lstr] in
              let isprd := Nodetype_eqb ctype prd in
              if is_sum_scalar then
                let op := if isprd then "*" else "+" in
                let lpar := if isprd then "{\left(" else "" in
                let rpar := if isprd then "\right)}" else "" in
                buf <- sum_loop
                         (fun ele => child cr_ augsets (sublist ++ [ele]))
                         op lpar rpar (setelements lstr) "{\left(" " " ;;
                Ok (concat [buf; "\right)}"])
              else
                beginfunc <- codegen_begin_func cstr (Some lstr) ;;
                rstr <- child cr_ augsets (sublist ++ [" \times "]) ;;
                endfunc <- codegen_end_func ;;
                Ok (concat [beginfunc; rstr; endfunc])
          end
      | dvd =>
          lstr <- child cl setlist sublist ;;
          rstr <- child cr_ setlist sublist ;;
          Ok (concat ["\frac{"; lstr; "}{"; rstr; "}"])
      | _ =>
          pre <- match ctype with
                 | log | exp =>
                     lstr <- codegen_begin_func cstr None ;;
                     endfunc <- codegen_end_func ;;
                     Ok (true, lstr, endfunc, "")
                 | pow =>
                     lstr <- child cl setlist sublist ;;
                     Ok (false, lstr, "", "^")
                 | _ =>
                     lstr <- child cl setlist sublist ;;
                     Ok (false, lstr, "", cstr)
                 end ;;
          let '(isfunc, lstr, endfunc, op) := pre in
          rstr <- child cr_ setlist sublist ;;
          let cr := if too_long lstr rstr
                    then concat [" "; nl; "        "] else "" in
          let lpar := if parens && negb isfunc then "{(" else "" in
          let rpar := if parens && negb isfunc then ")}" else "" in
          wrap_right <- wrap_right_of ctype cr_ ;;
          Ok (if wrap_right
              then concat [lpar; lstr; cr; op; "("; rstr; ")"; rpar; endfunc]
              else concat [lpar; lstr; cr; op; rstr; rpar; endfunc])
      end
  end.

Definition HTML_show_node (prevtype : Nodetype) (cur : option Node)
           (setlist sublist : list string) : Res string :=
  match cur with
  | None => Ok ""
  | Some n => HTML_show_node_rec prevtype n setlist sublist
  end.

End HtmlRenderer.

Section HtmlFunctions.

(** [isequal] of str.c, and the index of the entry [getvalue] finds in
    [htmlsets] for a key, [None] when it finds none. *)
Variable isequal : string -> string -> bool.
Variable set_index : option string -> option string.

Definition HTML_begin_func (func : string) (arg : option string)
  : Res string :=
  if isequal func "sum" || isequal func "prod" then
    match set_index arg with
    | None => Fatal "null pointer in HTML_begin_func"
    | Some index =>
        match arg with
        | None => Fatal NULL_DEREF
        | Some a =>
            match str_replace a "_" "\_" with
            | Ok (Some escapedArg) =>
                Ok (concat ["\"; func; "_{"; index;
                            " \; \text{in} \; \href{#"; a; "}{"; escapedArg;
                            "}} { \left("])
            | Ok None => Fatal NULL_DEREF
            | Fatal m => Fatal m
            end
        end
    end
  else
    match arg with
    | Some _ => Fatal "unexpected function call in HTML_begin_func"
    | None =>
        if isequal func "log" then Ok "ln{ \left("
        else Ok (concat [func; "{ \left("])
    end.

Definition HTML_end_func : Res string := Ok "\right) }".

End HtmlFunctions.

(** *** Vocabulary of the bracket counts *)

(** The opening and the closing character of a kind of bracket:
    parentheses or braces. *)
Definition opening (braces : bool) : ascii := if braces then "{" else "(".
Definition closing (braces : bool) : ascii := if braces then "}" else ")".

(** As many opening as closing brackets, of both kinds. *)
Definition brackets_match (s : string) : Prop :=
  forall braces,
    count_char (opening braces) s = count_char (closing braces) s.

Fixpoint tokens_match (n : Node) : Prop :=
  match n with
  | NODE _ s cl cr_ _ _ _ =>
      brackets_match s
      /\ match cl with Some x => tokens_match x | None => True end
      /\ match cr_ with Some y => tokens_match y | None => True end
  end.

(** Hooks whose texts, put together, have matching brackets. *)
Definition envelope_matches
           (begin_func : string -> option string -> Res string)
           (end_func : Res string) : Prop :=
  forall func arg b e,
    brackets_match func ->
    (forall a, arg = Some a -> brackets_match a) ->
    begin_func func arg = Ok b -> end_func = Ok e ->
    brackets_match (b ++ e).

Definition symbols_match
           (show_symbol : string -> list string -> list string ->
                          list string -> Context -> Res string) : Prop :=
  forall name dom sets subs ctx text,
    show_symbol name dom sets subs ctx = Ok text -> brackets_match text.

(** The quotient of [x] and the sum [y+1], negated. *)
Definition minus_quotient : Node :=
  unop neg "-"
       (binop dvd "/" (leaf nam "x")
              (binop add "+" (leaf nam "y") (leaf num "1"))).

(** * Properties *)

Unset Implicit Arguments.

(** ** Node kinds *)

Lemma Nodetype_eqb_spec a b : reflect (a = b) (Nodetype_eqb a b).
Proof. destruct a, b; constructor; congruence. Qed.

Lemma all_types_complete t : In t all_types.
Proof. destruct t; simpl; tauto. Qed.

(** ** Parenthesization (section 4.1) *)

Lemma append_assoc (a b c : string) :
  ((a ++ b) ++ c)%string = (a ++ (b ++ c))%string.
Proof. induction a; simpl; congruence. Qed.

Lemma append_empty_r (s : string) : (s ++ "")%string = s.
Proof. induction s; simpl; congruence. Qed.






Lemma spprint_flag_effect prev prev' cur indent comma :
  spprint_generic (type cur) = true ->
  spprint_parens prev (type cur) = Ok (true, comma) ->
  spprint_parens prev' (type cur) = Ok (false, comma) ->
  spprint_node prev cur indent
  = rmap parenthesize (spprint_node prev' cur indent).
Proof.
  destruct cur as [ctype cstr cl cr_ cdom clhs cdt]. simpl type.
  intros Hg H1 H2. simpl. rewrite H1, H2. simpl.
  destruct ctype; try discriminate Hg;
    (destruct cl as [ln|]; [destruct (spprint_node _ ln indent)|]; simpl;
     try reflexivity;
     (destruct cr_ as [rn|]; [destruct (spprint_node _ rn indent)|]; simpl;
      try reflexivity));
    try (destruct (_ || _)%bool); simpl; unfold parenthesize;
    repeat (unfold concat; simpl; rewrite ?append_empty_r,
            ?append_assoc; simpl); reflexivity.
Qed.

Lemma show_node_flag_effect
      show_symbol begin_func end_func sum_scalar setelements pow_op cr_text
      prev prev' cur sets subs :
  show_node_generic (type cur) = true ->
  show_node_parens prev (type cur) = Ok true ->
  show_node_parens prev' (type cur) = Ok false ->
  show_node_rec show_symbol begin_func end_func sum_scalar setelements
                pow_op cr_text prev cur sets subs
  = rmap parenthesize
         (show_node_rec show_symbol begin_func end_func sum_scalar
                        setelements pow_op cr_text prev' cur sets subs).
Proof.
  destruct cur as [ctype cstr cl cr_ cdom clhs cdt]. simpl type.
  intros Hg H1 H2. simpl. rewrite H1, H2. simpl.
  destruct ctype; try discriminate Hg;
    (destruct cl as [ln|]; [destruct (show_node_rec _ _ _ _ _ _ _ _ ln _ _)|];
     simpl; try reflexivity;
     (destruct cr_ as [rn|];
      [destruct (show_node_rec _ _ _ _ _ _ _ _ rn _ _)|];
      simpl; try reflexivity));
    try (destruct (_ || _)%bool); simpl; unfold parenthesize;
    repeat (unfold concat; simpl; rewrite ?append_empty_r, ?append_assoc;
            simpl); reflexivity.
Qed.

(** C3, as the code has it.  The [parens] flag of the diagnostic renderer
    is the table of section 4.1 for every pair of kinds.  The flag of the
    code renderer is the table of its variant for every parent kind except
    [log], [exp], [lag] and [led], under which it is never set.  Where a
    child is rendered by the generic branch, a set flag is exactly one
    pair of parentheses around the text rendered without it. *)
Theorem C3_parens_follow_table (parent child : Nodetype) :
  decision fst (spprint_parens parent child)
  = spec_table_parens false parent child
  /\ decision (fun b => b) (show_node_parens parent child)
     = (if mem_type parent [log; exp; lag; led]
        then Some false
        else spec_table_parens true parent child)
  /\ (forall prev' cur indent comma,
         type cur = child ->
         spprint_generic child = true ->
         spprint_parens parent child = Ok (true, comma) ->
         spprint_parens prev' child = Ok (false, comma) ->
         spprint_node parent cur indent
         = rmap parenthesize (spprint_node prev' cur indent))
  /\ (forall show_symbol begin_func end_func sum_scalar setelements
             pow_op cr_text prev' cur sets subs,
         type cur = child ->
         show_node_generic child = true ->
         show_node_parens parent child = Ok true ->
         show_node_parens prev' child = Ok false ->
         show_node_rec show_symbol begin_func end_func sum_scalar
                       setelements pow_op cr_text parent cur sets subs
         = rmap parenthesize
                (show_node_rec show_symbol begin_func end_func sum_scalar
                               setelements pow_op cr_text prev' cur
                               sets subs)).
Proof.
  split; [destruct parent, child; reflexivity|].
  split; [destruct parent, child; reflexivity|].
  split.
  - intros prev' cur indent comma <- Hg H1 H2.
    now apply spprint_flag_effect with (comma := comma).
  - intros ss bf ef sc se pw crt prev' cur sets subs <- Hg H1 H2.
    now apply show_node_flag_effect.
Qed.


(** Under a product, a sum is rendered in parentheses by both renderers. *)
Lemma C3_parens_follow_table_witness :
  spprint_node mul one_plus_two None = Ok "(1+2)"
  /\ plain_show_node mul (Some one_plus_two) [] [] = Ok "(1+2)".
Proof.
  destruct (C3_parens_follow_table mul add) as (_ & _ & Hs & Hc).
  split.
  - rewrite (Hs nul one_plus_two None "");
      [reflexivity | reflexivity | reflexivity | reflexivity | reflexivity].
  - unfold plain_show_node, Default_show_node, show_node_gen.
    rewrite (Hc plain_symbol Default_begin_func Default_end_func true
                (fun _ => []) "^" (concat [" "; nl; "        "]) nul
                one_plus_two [] []);
      [reflexivity | reflexivity | reflexivity | reflexivity | reflexivity].
Defined.

(** C3 as stated fails for the code renderer: under a [lag] parent the
    table asks for parentheses, the switch of [Default_show_node] sets
    none, and the shifted sum is rendered bare. *)
Lemma C3_counterexample :
  decision (fun b => b) (show_node_parens lag add) = Some false
  /\ spec_table_parens true lag add = Some true
  /\ plain_show_node nul (Some (unop lag "lag" one_plus_two)) [] []
     = Ok "1+2".
Proof. repeat split. Qed.

(** ** The line wrapper *)




Ltac case_if :=
  match goal with
  | |- context [if ?b then _ else _] => destruct b eqn:?
  end.

Lemma take_drop n s : (take n s ++ drop n s)%string = s.
Proof.
  revert s; induction n as [|n IH]; intros [|c s]; simpl; try reflexivity.
  now rewrite IH.
Qed.

Lemma length_take n s :
  n <= String.length s -> String.length (take n s) = n.
Proof.
  revert s; induction n as [|n IH]; intros [|c s]; simpl; intros H;
    try reflexivity; try lia.
  rewrite IH; lia.
Qed.

Lemma drop_get n s c :
  String.get n s = Some c -> exists tail, drop n s = String c tail.
Proof.
  revert s; induction n as [|n IH]; intros [|d s]; simpl; try discriminate.
  - intros [= ->]. now exists s.
  - apply IH.
Qed.

Lemma get_lt n s : n < String.length s -> exists c, String.get n s = Some c.
Proof.
  revert s; induction n as [|n IH]; intros [|d s]; simpl; intros H; try lia.
  - now exists d.
  - apply IH. lia.
Qed.

Lemma strcspn_nl_le s : strcspn_nl s <= String.length s.
Proof.
  induction s as [|c s IH]; simpl; [lia|].
  case_if; lia.
Qed.

Lemma strcspn_nl_split s :
  strcspn_nl s < String.length s ->
  concat [take (strcspn_nl s) s; nl; drop (S (strcspn_nl s)) s] = s.
Proof.
  induction s as [|c s IH]; simpl; [lia|].
  destruct (Ascii.eqb c (ascii_of_nat 10)) eqn:E.
  - intros _. apply Ascii.eqb_eq in E. subst c. unfold concat. simpl.
    now rewrite append_empty_r.
  - intros H. unfold concat in *. simpl in *. rewrite IH by lia. reflexivity.
Qed.

Lemma scan_wrap_some commaok rest n m :
  scan_wrap commaok rest n = Some m ->
  S m <= n /\ exists c, String.get (S m) rest = Some c
                        /\ do_wrap commaok c = true.
Proof.
  induction n as [|n IH]; simpl; [discriminate|].
  destruct (String.get (S n) rest) as [c|] eqn:G.
  - destruct (do_wrap commaok c) eqn:W.
    + intros [= <-]. split; [lia|]. now exists c.
    + intros H. destruct (IH H) as [Hle Hc]. split; [lia | exact Hc].
  - intros H. destruct (IH H) as [Hle Hc]. split; [lia | exact Hc].
Qed.

Lemma scan_wrap_none commaok rest n :
  (forall i c, 1 <= i <= n -> String.get i rest = Some c ->
               do_wrap commaok c = false) ->
  scan_wrap commaok rest n = None.
Proof.
  induction n as [|n IH]; simpl; intros H; [reflexivity|].
  destruct (String.get (S n) rest) as [c|] eqn:G.
  - rewrite (H (S n) c) by (auto; lia). apply IH.
    intros i d Hi. apply H. lia.
  - apply IH. intros i d Hi. apply H. lia.
Qed.

Lemma scan_wrap_none_inv commaok rest n :
  scan_wrap commaok rest n = None ->
  forall i c, 1 <= i <= n -> String.get i rest = Some c ->
              do_wrap commaok c = false.
Proof.
  induction n as [|n IH]; simpl; intros H i c Hi G; [lia|].
  destruct (Nat.eq_dec i (S n)) as [->|Hne].
  - rewrite G in H. destruct (do_wrap commaok c); [discriminate|reflexivity].
  - destruct (String.get (S n) rest) as [d|].
    + destruct (do_wrap commaok d); [discriminate|].
      apply (IH H i c); [lia | exact G].
    + apply (IH H i c); [lia | exact G].
Qed.


Lemma wrapped_cons L commaok o rest' outs res rest :
  rest = concat [consumed o; rest'] ->
  (forall s, o = OutWrap s ->
     exists c tail, rest' = String c tail /\ do_wrap commaok c = true
                    /\ 1 <= String.length s <= L) ->
  wrapped L commaok rest' outs res ->
  wrapped L commaok rest (o :: outs) res.
Proof.
  intros Hrest Ho [Hb Hok Hf]. split.
  - intros [|p pre] s post E; simpl in E.
    + injection E as -> ->. destruct (Ho s eq_refl) as (c & tail & -> & W & Hl).
      exists c, tail. rewrite Hrest. simpl. unfold concat. simpl.
      rewrite append_empty_r. auto.
    + injection E as -> ->.
      destruct (Hb pre s post eq_refl) as (c & tail & -> & W & Hl).
      exists c, tail. rewrite Hrest. split; [|auto].
      unfold consumed_all, concat. simpl.
      now rewrite ?append_empty_r, ?append_assoc.
  - intros E. rewrite Hrest, <- (Hok E). unfold consumed_all, concat. simpl.
    now rewrite ?append_empty_r.
  - intros msg E. destruct (Hf msg E) as (seg & -> & U).
    exists seg. split; [|exact U]. rewrite Hrest.
    unfold consumed_all, concat. simpl.
    now rewrite ?append_empty_r, ?append_assoc.
Qed.

Lemma wrap_loop_wrapped L addcr commaok line rest :
  wrapped L commaok rest (fst (wrap_loop L addcr commaok line rest))
          (snd (wrap_loop L addcr commaok line rest)).
Proof.
  funelim (wrap_loop L addcr commaok line rest).
  - split; simpl.
    + intros [|p pre] s post E; simpl in E; [discriminate|].
      injection E as _ E. destruct addcr; [|now destruct pre].
      destruct pre as [|q pre]; simpl in E; [discriminate|].
      injection E as _ E. now destruct pre.
    + intros _. unfold consumed_all, concat.
      destruct addcr; simpl; now rewrite ?append_empty_r.
    + discriminate.
  - simpl. apply wrapped_cons with (rest' := drop (S (strcspn_nl rest)) rest).
    + apply Nat.leb_le in Heq.
      rewrite <- (strcspn_nl_split rest) at 1 by lia.
      unfold consumed, concat. cbn [fold_right].
      now rewrite ?append_empty_r, ?append_assoc.
    + discriminate.
    + apply H.
  - simpl. apply scan_wrap_some in Heq as (Hle & c & G & W).
    apply wrapped_cons with (rest' := drop (S m) rest).
    + unfold consumed, concat. cbn [fold_right].
      rewrite append_empty_r. symmetry. exact (take_drop (S m) rest).
    + intros s [= <-]. destruct (drop_get _ _ _ G) as [tail ->].
      exists c, tail. pose proof (length_take (S m) rest) as Hlen.
      repeat split; auto; cbn in Hlen |- *; lia.
    + apply H.
  - split; simpl.
    + intros [|p pre] s post E; discriminate.
    + discriminate.
    + intros msg _. exists rest.
      split; [unfold concat; simpl; now rewrite append_empty_r|].
      apply Nat.leb_gt in Heq0. repeat split; try lia.
      now apply scan_wrap_none_inv.
Qed.

Lemma wrap_loop_unbreakable L addcr commaok line rest :
  unbreakable L commaok rest ->
  wrap_loop L addcr commaok line rest = ([], Fatal (wrap_fatal line)).
Proof.
  intros (Hlen & Hnl & Hscan).
  funelim (wrap_loop L addcr commaok line rest).
  - lia.
  - apply Nat.leb_le in Heq. lia.
  - rewrite (scan_wrap_none commaok rest L Hscan) in Heq. discriminate.
  - reflexivity.
Qed.

Lemma wrap_loop_fatal_msg L addcr commaok line rest msg :
  snd (wrap_loop L addcr commaok line rest) = Fatal msg ->
  msg = wrap_fatal line.
Proof.
  funelim (wrap_loop L addcr commaok line rest); simpl; auto; try discriminate.
  now intros [= <-].
Qed.


(** C5, as the code has it.  Every break the wrapper inserts stands
    immediately before a whitespace character, one of [+ - * / = ^], or
    (only when [commaok] is set) a comma: that character opens the
    continuation line.  The text before the break is between 1 and [L]
    characters long, a successful run writes every character of the line,
    and the run is fatal exactly at a segment that is longer than [L], has
    no newline within reach and has no such character at positions
    [1..L]. *)
Theorem C5_wrap_breaks_before_safe_char
        (L : nat) (line : string) (addcr commaok : bool) :
  let outs := fst (Default_wrap_write L line addcr commaok) in
  let res := snd (Default_wrap_write L line addcr commaok) in
  (forall pre s post,
      outs = pre ++ OutWrap s :: post ->
      exists c tail,
        line = concat [consumed_all pre; s; String c tail]
        /\ do_wrap commaok c = true
        /\ 1 <= String.length s <= L)
  /\ (res = Ok tt -> consumed_all outs = line)
  /\ (forall msg, res = Fatal msg ->
        msg = wrap_fatal line
        /\ exists seg, line = concat [consumed_all outs; seg]
                       /\ unbreakable L commaok seg)
  /\ (forall seg, unbreakable L commaok seg ->
        wrap_loop L addcr commaok line seg = ([], Fatal (wrap_fatal line))).
Proof.
  unfold Default_wrap_write.
  destruct (wrap_loop_wrapped L addcr commaok line line) as [Hb Hok Hf].
  repeat split.
  - exact Hb.
  - exact Hok.
  - now apply wrap_loop_fatal_msg in H.
  - now apply Hf in H.
  - intros seg. apply wrap_loop_unbreakable.
Qed.

(** The break in [aaaa+bbbb] at width 5 stands before the [+]. *)
Lemma C5_wrap_breaks_before_safe_char_witness :
  exists c tail,
    "aaaa+bbbb" = concat [consumed_all []; "aaaa"; String c tail]
    /\ do_wrap false c = true
    /\ 1 <= String.length "aaaa" <= 5.
Proof.
  exact (proj1 (C5_wrap_breaks_before_safe_char 5 "aaaa+bbbb" false false)
               [] "aaaa" [OutStr "+bbbb"] eq_refl).
Defined.

(** C5 as stated fails: at width 5 the line [aaaa+bbbb] is broken after
    the letter [a], and the operator follows the break. *)
Lemma C5_counterexample :
  Default_wrap_write 5 "aaaa+bbbb" false false
  = ([OutWrap "aaaa"; OutStr "+bbbb"], Ok tt)
  /\ render_outs [OutWrap "aaaa"; OutStr "+bbbb"]
     = concat ["aaaa"; nl; "   "; "+bbbb"]
  /\ option_map (do_wrap false) (last_char "aaaa") = Some false.
Proof. repeat split. Qed.

(** ** Running programs *)

Section RunFacts.

Context {St : Type} (h : forall X, Cmd X -> St -> Res (X * St)).

Lemma run_bind {A B} (p : Prog A) (k : A -> Prog B) (st : St) :
  run h (pbind p k) st
  = match snd (run h p st) with
    | Ok (a, st') =>
        (fst (run h p st) ++ fst (run h (k a) st'), snd (run h (k a) st'))
    | Fatal m => (fst (run h p st), Fatal m)
    end.
Proof.
  revert st; induction p as [a|m|X c k' IH]; intros st; simpl.
  - now destruct (run h (k a) st).
  - reflexivity.
  - destruct (h X c st) as [[x st']|m]; simpl; [|reflexivity].
    rewrite IH. now destruct (snd (run h (k' x) st')) as [[a st'']|m].
Qed.

Lemma run_call {X} (c : Cmd X) (st : St) :
  run h (call c) st
  = match h X c st with
    | Ok (x, st') => ([Ev c], Ok (x, st'))
    | Fatal m => ([Ev c], Fatal m)
    end.
Proof. simpl. now destruct (h X c st) as [[x st']|m]. Qed.

Lemma run_calls {A} (P : Event -> Prop) (p : Prog A) (st : St) :
  Calls P p -> Forall P (fst (run h p st)).
Proof.
  intros HC; revert st; induction HC as [a|m|X c k Hc Hk IH]; intros st;
    simpl; try constructor.
  destruct (h X c st) as [[x st']|m]; simpl; auto.
Qed.

End RunFacts.

Lemma Calls_bind {A B} (P : Event -> Prop) (p : Prog A) (k : A -> Prog B) :
  Calls P p -> (forall a, Calls P (k a)) -> Calls P (pbind p k).
Proof.
  intros HC Hk; induction HC; simpl; auto; constructor; auto.
Qed.

Lemma Calls_call {X} (P : Event -> Prop) (c : Cmd X) :
  P (Ev c) -> Calls P (call c).
Proof. intros H; constructor; auto; intros; constructor. Qed.

Lemma Calls_for_each {X} (P : Event -> Prop) (xs : list X) body :
  (forall x, Calls P (body x)) -> Calls P (for_each xs body).
Proof.
  intros H; induction xs; simpl; [constructor|].
  apply Calls_bind; auto.
Qed.

Lemma Calls_show_each P eq eqsets tuples n :
  (forall sublist, P (Ev (codegen_show_eq eq eqsets sublist))) ->
  Calls P (show_each eq eqsets tuples n).
Proof.
  intros H; revert n; induction tuples; intros n; simpl; constructor; auto.
Qed.

Lemma Calls_write_block P opts M eq :
  P (Ev (codegen_begin_block eq)) ->
  (forall sublist, P (Ev (codegen_show_eq eq (eqnsets eq) sublist))) ->
  Calls P (write_block opts M eq).
Proof.
  intros Hb Hs. unfold write_block.
  apply Calls_bind; [now apply Calls_call|]. intros _.
  destruct (is_eqn_vector opts); [now apply Calls_call|].
  apply Calls_bind; [now apply Calls_show_each|].
  intros n. destruct (n =? 0)%Z; constructor.
Qed.

(** ** Declarations come first (section 4.2, step 2) *)

Section DriverFacts.

Context {St : Type} (h : forall X, Cmd X -> St -> Res (X * St)).
Variable opts : Options.
Variable M : Model.

(** A loop of single calls followed by [k]: either the run ends inside
    the loop, after an initial part of its calls, or the loop makes all
    its calls and the run goes on with [k]. *)
Lemma run_for_each_call {X A} (mk : X -> Cmd unit) (xs : list X)
      (k : Prog A) (st : St) :
  let r := run h (for_each xs (fun x => call (mk x)) ;; k)%prog st in
  (exists done todo m,
      map (fun x => Ev (mk x)) xs = done ++ todo
      /\ r = (done, Fatal m))
  \/ (exists st',
         r = (map (fun x => Ev (mk x)) xs ++ fst (run h k st'),
              snd (run h k st'))).
Proof.
  revert st; induction xs as [|x xs IH]; intros st; simpl.
  - right. exists st. now destruct (run h k st).
  - destruct (h unit (mk x) st) as [[[] st1]|m] eqn:E; simpl.
    + destruct (IH st1) as [(done & todo & m & Hs & Hr)|(st' & Hr)];
        simpl in Hr; rewrite Hr; simpl.
      * left. exists (Ev (mk x) :: done), todo, m. simpl. now rewrite Hs.
      * right. now exists st'.
    + left. exists [Ev (mk x)], (map (fun x => Ev (mk x)) xs), m. auto.
Qed.

Lemma thread_app {X} (mk : X -> Cmd unit) (xs ys : list X) (st : St) :
  thread h mk (xs ++ ys) st
  = match thread h mk xs st with
    | Ok st' => thread h mk ys st'
    | Fatal m => Fatal m
    end.
Proof.
  revert st; induction xs as [|x xs IH]; intros st; simpl; [reflexivity|].
  destruct (h unit (mk x) st) as [[[] st']|m]; [apply IH | reflexivity].
Qed.

(** The same loop, with the state it hands on. *)
Lemma run_for_each_call_thread {X A} (mk : X -> Cmd unit) (xs : list X)
      (k : Prog A) (st : St) :
  let r := run h (for_each xs (fun x => call (mk x)) ;; k)%prog st in
  (exists done todo m,
      map (fun x => Ev (mk x)) xs = done ++ todo
      /\ thread h mk xs st = Fatal m
      /\ r = (done, Fatal m))
  \/ (exists st',
         thread h mk xs st = Ok st'
         /\ r = (map (fun x => Ev (mk x)) xs ++ fst (run h k st'),
                 snd (run h k st'))).
Proof.
  revert st; induction xs as [|x xs IH]; intros st; simpl.
  - right. exists st. split; [reflexivity|]. now destruct (run h k st).
  - destruct (h unit (mk x) st) as [[[] st1]|m] eqn:E; simpl.
    + destruct (IH st1) as [(done & todo & m & Hs & Ht & Hr)|(st' & Ht & Hr)];
        simpl in Hr; rewrite Hr; simpl.
      * left. exists (Ev (mk x) :: done), todo, m. simpl. now rewrite Hs.
      * right. now exists st'.
    + left. exists [Ev (mk x)], (map (fun x => Ev (mk x)) xs), m. auto.
Qed.

Lemma prelude_no_equation_call basename :
  Forall (fun e => is_equation_call e = false) (prelude M basename).
Proof.
  unfold prelude. constructor; [reflexivity|].
  apply Forall_forall. intros e Hin. apply in_map_iff in Hin.
  destruct Hin as (sym & <- & _). reflexivity.
Qed.

Lemma write_blocks_calls (body : Eqn -> Prog unit) :
  (forall eq, body eq = Ret tt \/ body eq = write_block opts M eq) ->
  Calls after_declare
        (for_each (eqns M) body ;; call codegen_end_file ;;
         call fclose_code ;; call fclose_info)%prog.
Proof.
  intros Hbody. apply Calls_bind.
  - apply Calls_for_each. intros eq. destruct (Hbody eq) as [-> | ->].
    + constructor.
    + apply Calls_write_block; [split; reflexivity|].
      intros sublist; split; reflexivity.
  - intros _. repeat (constructor; try (split; reflexivity); intros).
Qed.

Lemma run_prelude_then {A} (tail : Prog A) basename (st : St) :
  Calls after_declare tail ->
  let r := run h (call (codegen_begin_file basename) ;;
                  check_styles opts ;;
                  declare_symbols M set ;;
                  declare_symbols M par ;;
                  declare_symbols M var ;;
                  tail)%prog st in
  exists done todo rest,
    prelude M basename = done ++ todo
    /\ fst r = done ++ rest
    /\ (rest <> [] \/ is_ok (snd r) = true -> todo = [])
    /\ Forall after_declare rest.
Proof.
  intros Htail. unfold prelude, declare_symbols, declare_call.
  set (dc := fun sym => Ev (codegen_declare sym)).
  rewrite !map_app.
  set (S1 := map dc (symbols M set)).
  set (S2 := map dc (symbols M par)).
  set (S3 := map dc (symbols M var)).
  set (bf := Ev (codegen_begin_file basename)).
  cbn zeta. rewrite run_bind, run_call.
  assert (Hstop : forall done todo,
             bf :: S1 ++ S2 ++ S3 = done ++ todo ->
             exists done0 todo0 rest,
               bf :: S1 ++ S2 ++ S3 = done0 ++ todo0
               /\ done = done0 ++ rest
               /\ (rest <> [] \/ false = true -> todo0 = [])
               /\ Forall after_declare rest).
  { intros done todo E. exists done, todo, [].
    rewrite app_nil_r. repeat split; auto.
    intros [H|H]; [now destruct H | discriminate]. }
  destruct (h unit (codegen_begin_file basename) st) as [[[] st0]|m]; simpl.
  2: { apply (Hstop [bf] (S1 ++ S2 ++ S3)). reflexivity. }
  unfold check_styles.
  destruct (negb (is_eqn_set opts)); simpl.
  { apply (Hstop [bf] (S1 ++ S2 ++ S3)). reflexivity. }
  destruct (negb (is_sum_set opts)); simpl.
  { apply (Hstop [bf] (S1 ++ S2 ++ S3)). reflexivity. }
  destruct (run_for_each_call codegen_declare (symbols M set)
              (for_each (symbols M par) (fun s => call (codegen_declare s)) ;;
               for_each (symbols M var) (fun s => call (codegen_declare s)) ;;
               tail)%prog st0)
    as [(d1 & t1 & m & Hs & Hr)|(st1 & Hr)]; cbn zeta in Hr; rewrite Hr.
  { fold dc in Hs. fold S1 in Hs. simpl.
    apply (Hstop (bf :: d1) (t1 ++ S2 ++ S3)).
    simpl. now rewrite Hs, <- app_assoc. }
  clear Hr.
  destruct (run_for_each_call codegen_declare (symbols M par)
              (for_each (symbols M var) (fun s => call (codegen_declare s)) ;;
               tail)%prog st1)
    as [(d2 & t2 & m & Hs & Hr)|(st2 & Hr)]; cbn zeta in Hr; rewrite Hr.
  { fold dc in Hs. fold S2 in Hs. fold dc. fold S1. simpl.
    apply (Hstop (bf :: S1 ++ d2) (t2 ++ S3)).
    simpl. now rewrite Hs, <- !app_assoc. }
  clear Hr.
  destruct (run_for_each_call codegen_declare (symbols M var) tail st2)
    as [(d3 & t3 & m & Hs & Hr)|(st3 & Hr)]; cbn zeta in Hr; rewrite Hr.
  { fold dc in Hs. fold S3 in Hs. fold dc. fold S1. fold S2. simpl.
    apply (Hstop (bf :: S1 ++ S2 ++ d3) t3).
    simpl. now rewrite Hs, <- !app_assoc. }
  clear Hr. fold dc. fold S1. fold S2. fold S3. simpl.
  exists (bf :: S1 ++ S2 ++ S3), [], (fst (run h tail st3)).
  rewrite app_nil_r. repeat split; auto.
  - subst bf. simpl. now rewrite <- !app_assoc.
  - now apply run_calls.
Qed.

(** A run either ends inside the prelude, or makes all its calls and
    goes on with the state the declarations leave. *)
Lemma run_prelude_cases {A} (tail : Prog A) basename (st : St) :
  let r := run h (call (codegen_begin_file basename) ;;
                  check_styles opts ;;
                  declare_symbols M set ;;
                  declare_symbols M par ;;
                  declare_symbols M var ;;
                  tail)%prog st in
  (exists done todo m,
      prelude M basename = done ++ todo /\ r = (done, Fatal m))
  \/ (exists st0 st3,
         h unit (codegen_begin_file basename) st = Ok (tt, st0)
         /\ thread h codegen_declare
                   (symbols M set ++ symbols M par ++ symbols M var) st0
            = Ok st3
         /\ r = (prelude M basename ++ fst (run h tail st3),
                 snd (run h tail st3))).
Proof.
  unfold prelude, declare_symbols, declare_call.
  set (dc := fun sym => Ev (codegen_declare sym)).
  rewrite !map_app.
  set (S1 := map dc (symbols M set)).
  set (S2 := map dc (symbols M par)).
  set (S3 := map dc (symbols M var)).
  set (bf := Ev (codegen_begin_file basename)).
  cbn zeta. rewrite run_bind, run_call.
  destruct (h unit (codegen_begin_file basename) st) as [[[] st0]|m]; simpl.
  2: { left. exists [bf], (S1 ++ S2 ++ S3), m. auto. }
  unfold check_styles.
  destruct (negb (is_eqn_set opts)); simpl.
  { left. exists [bf], (S1 ++ S2 ++ S3). eauto. }
  destruct (negb (is_sum_set opts)); simpl.
  { left. exists [bf], (S1 ++ S2 ++ S3). eauto. }
  destruct (run_for_each_call_thread codegen_declare (symbols M set)
              (for_each (symbols M par) (fun s => call (codegen_declare s)) ;;
               for_each (symbols M var) (fun s => call (codegen_declare s)) ;;
               tail)%prog st0)
    as [(d1 & t1 & m & Hs & Ht1 & Hr)|(st1 & Ht1 & Hr)];
    cbn zeta in Hr; rewrite Hr; clear Hr.
  { left. exists (bf :: d1), (t1 ++ S2 ++ S3), m. fold dc in Hs. fold S1 in Hs.
    simpl. split; [|reflexivity]. now rewrite Hs, <- app_assoc. }
  destruct (run_for_each_call_thread codegen_declare (symbols M par)
              (for_each (symbols M var) (fun s => call (codegen_declare s)) ;;
               tail)%prog st1)
    as [(d2 & t2 & m & Hs & Ht2 & Hr)|(st2 & Ht2 & Hr)];
    cbn zeta in Hr; rewrite Hr; clear Hr.
  { left. exists (bf :: S1 ++ d2), (t2 ++ S3), m. fold dc in Hs. fold S2 in Hs.
    fold dc. fold S1. simpl. split; [|reflexivity].
    now rewrite Hs, <- !app_assoc. }
  destruct (run_for_each_call_thread codegen_declare (symbols M var) tail st2)
    as [(d3 & t3 & m & Hs & Ht3 & Hr)|(st3 & Ht3 & Hr)];
    cbn zeta in Hr; rewrite Hr; clear Hr.
  { left. exists (bf :: S1 ++ S2 ++ d3), t3, m. fold dc in Hs. fold S3 in Hs.
    fold dc. fold S1. fold S2. simpl. split; [|reflexivity].
    now rewrite Hs, <- !app_assoc. }
  right. exists st0, st3. fold dc. fold S1. fold S2. fold S3.
  split; [reflexivity|]. split.
  - rewrite thread_app, Ht1. now rewrite thread_app, Ht2.
  - simpl. now rewrite <- !app_assoc.
Qed.

(** When the hooks of the prelude return and the styles are set, the
    run makes the whole prelude and goes on with [tail]. *)
Lemma run_prelude_made {A} (tail : Prog A) basename (st st0 st3 : St) :
  is_eqn_set opts = true ->
  is_sum_set opts = true ->
  h unit (codegen_begin_file basename) st = Ok (tt, st0) ->
  thread h codegen_declare
         (symbols M set ++ symbols M par ++ symbols M var) st0 = Ok st3 ->
  run h (call (codegen_begin_file basename) ;;
         check_styles opts ;;
         declare_symbols M set ;;
         declare_symbols M par ;;
         declare_symbols M var ;;
         tail)%prog st
  = (prelude M basename ++ fst (run h tail st3), snd (run h tail st3)).
Proof.
  intros He Hs Hb Ht.
  unfold prelude, declare_symbols, declare_call, check_styles.
  rewrite He, Hs. cbn [negb].
  rewrite run_bind, run_call, Hb. cbn [fst snd pbind].
  rewrite thread_app in Ht.
  destruct (thread h codegen_declare (symbols M set) st0) as [st1|] eqn:T1;
    [|discriminate].
  rewrite thread_app in Ht.
  destruct (thread h codegen_declare (symbols M par) st1) as [st2|] eqn:T2;
    [|discriminate].
  destruct (run_for_each_call_thread codegen_declare (symbols M set)
              (for_each (symbols M par) (fun s => call (codegen_declare s)) ;;
               for_each (symbols M var) (fun s => call (codegen_declare s)) ;;
               tail)%prog st0)
    as [(d1 & t1 & m & _ & Ht1 & _)|(st1' & Ht1 & Hr)]; [congruence|].
  rewrite T1 in Ht1. injection Ht1 as <-.
  cbn zeta in Hr. rewrite Hr. clear Hr.
  destruct (run_for_each_call_thread codegen_declare (symbols M par)
              (for_each (symbols M var) (fun s => call (codegen_declare s)) ;;
               tail)%prog st1)
    as [(d2 & t2 & m & _ & Ht2 & _)|(st2' & Ht2 & Hr)]; [congruence|].
  rewrite T2 in Ht2. injection Ht2 as <-.
  cbn zeta in Hr. rewrite Hr. clear Hr.
  destruct (run_for_each_call_thread codegen_declare (symbols M var) tail st2)
    as [(d3 & t3 & m & _ & Ht3 & _)|(st3' & Ht3 & Hr)]; [congruence|].
  rewrite Ht in Ht3. injection Ht3 as <-.
  cbn zeta in Hr. rewrite Hr. clear Hr.
  cbn [fst snd]. f_equal. rewrite !map_app. simpl.
  now rewrite <- !app_assoc.
Qed.

Lemma run_makes_prelude {A} (tail : Prog A) basename (st : St) :
  Calls after_declare tail ->
  makes_prelude h opts M basename st
    (run h (call (codegen_begin_file basename) ;;
            check_styles opts ;;
            declare_symbols M set ;;
            declare_symbols M par ;;
            declare_symbols M var ;;
            tail)%prog st).
Proof.
  intros Htail. split.
  - cbn [call pbind run].
    destruct (h unit (codegen_begin_file basename) st) as [[[] st0]|m];
      eexists; reflexivity.
  - intros st0 st3 He Hs Hb Ht.
    rewrite (run_prelude_made tail basename st st0 st3 He Hs Hb Ht).
    exists (fst (run h tail st3)). split; [reflexivity|].
    now apply run_calls.
Qed.

Lemma thread_total {X} (mk : X -> Cmd unit) (xs : list X) (st : St) :
  never_fails h -> exists st', thread h mk xs st = Ok st'.
Proof.
  intros Hh. revert st; induction xs as [|x xs IH]; intros st; simpl.
  - now exists st.
  - destruct (Hh unit (mk x) st) as ([] & st1 & ->). apply IH.
Qed.

Lemma Calls_default_tail :
  Calls after_declare
        (for_each (eqns M)
                  (fun eq => if hasundec eq || negb (istimeok eq) then Ret tt
                             else write_block opts M eq) ;;
         call codegen_end_file ;; call fclose_code ;; call fclose_info)%prog.
Proof.
  apply write_blocks_calls.
  intros eq. destruct (hasundec eq || negb (istimeok eq)); auto.
Qed.

Lemma Calls_html_tail :
  Calls after_declare
        (for_each (eqns M) (write_block opts M) ;;
         call codegen_end_file ;; call fclose_code ;; call fclose_info ;;
         call (remove_file "rubbish.lis"))%prog.
Proof.
  apply Calls_bind.
  - apply Calls_for_each. intros eq.
    apply Calls_write_block; [split; reflexivity|].
    intros sublist; split; reflexivity.
  - intros _. repeat (constructor; try (split; reflexivity); intros).
Qed.

End DriverFacts.

Lemma quiet_handler_never_fails : never_fails quiet_handler.
Proof. intros X c []. destruct c; simpl; eauto. Qed.

(** C9.  In every run of the driver, of any backend, the first call is
    [begin_file], and the log starts with an initial part of the prelude:
    [begin_file] followed by one [declare] per symbol, all sets, then all
    parameters, then all variables, each class in registration order.
    When the hooks of these calls return and both styles are set, the
    whole prelude is made, each declaration once, before anything else;
    so it is with hooks that never end the run.  A run that ends early
    ends inside this prelude or after it; calls that open a block or
    render an equation are not part of the prelude and only follow after
    all of it, and no declaration follows it. *)
Theorem C9_declarations_come_first
        (St : Type) (h : forall X, Cmd X -> St -> Res (X * St))
        (opts : Options) (M : Model) (basename : string) (st : St) :
  let rd := run h (Default_write_file opts M basename) st in
  let rp := run h (PYTHON_write_file opts M basename) st in
  let rh := run h (HTML_write_file opts M basename) st in
  (declares_first M basename rd
   /\ declares_first M basename rp
   /\ declares_first M basename rh)
  /\ (makes_prelude h opts M basename st rd
      /\ makes_prelude h opts M basename st rp
      /\ makes_prelude h opts M basename st rh)
  /\ (never_fails h ->
      is_eqn_set opts = true ->
      is_sum_set opts = true ->
      forall tr, In tr [fst rd; fst rp; fst rh] ->
                 exists rest,
                   tr = prelude M basename ++ rest
                   /\ Forall after_declare rest)
  /\ prelude M basename
     = Ev (codegen_begin_file basename)
          :: map declare_call (symbols M set)
          ++ map declare_call (symbols M par)
          ++ map declare_call (symbols M var)
  /\ Forall (fun e => is_equation_call e = false) (prelude M basename).
Proof.
  cbn zeta.
  assert (HD : declares_first M basename
                 (run h (Default_write_file opts M basename) st)).
  { apply (run_prelude_then h opts M). apply Calls_default_tail. }
  assert (HH : declares_first M basename
                 (run h (HTML_write_file opts M basename) st)).
  { apply (run_prelude_then h opts M). apply Calls_html_tail. }
  assert (MD : makes_prelude h opts M basename st
                 (run h (Default_write_file opts M basename) st)).
  { apply (run_makes_prelude h opts M). apply Calls_default_tail. }
  assert (MH : makes_prelude h opts M basename st
                 (run h (HTML_write_file opts M basename) st)).
  { apply (run_makes_prelude h opts M). apply Calls_html_tail. }
  split; [repeat split; assumption|].
  split; [repeat split; solve [apply MD | apply MH]|].
  split; [|split].
  - intros Hh He Hs tr Hin.
    destruct (Hh unit (codegen_begin_file basename) st) as ([] & st0 & Hb).
    destruct (thread_total h codegen_declare
                (symbols M set ++ symbols M par ++ symbols M var) st0 Hh)
      as (st3 & Ht).
    destruct Hin as [<-|[<-|[<-|[]]]].
    + exact (proj2 MD st0 st3 He Hs Hb Ht).
    + exact (proj2 MD st0 st3 He Hs Hb Ht).
    + exact (proj2 MH st0 st3 He Hs Hb Ht).
  - unfold prelude. now rewrite !map_app.
  - apply prelude_no_equation_call.
Qed.

(** With quiet hooks the three variables of the model are declared
    after [begin_file], before anything else. *)
Lemma C9_declarations_come_first_witness :
  exists rest,
    fst (run quiet_handler
             (Default_write_file python_opts balanced_model "m") tt)
    = [Ev (codegen_begin_file "m"); declare_call (endo "x");
       declare_call (endo "y"); declare_call (endo "z")] ++ rest
    /\ Forall after_declare rest.
Proof.
  exact (proj1 (proj2 (proj2
           (C9_declarations_come_first unit quiet_handler python_opts
                                       balanced_model "m" tt)))
           quiet_handler_never_fails eq_refl eq_refl _ (or_introl eq_refl)).
Defined.

(** ** Scalar materialization (section 4.2, step 6) *)

Section ScalarFacts.

Context {St : Type} (h : forall X, Cmd X -> St -> Res (X * St)).
Variable opts : Options.
Variable M : Model.

Lemma run_show_each eq eqsets tuples n (st : St) :
  let r := run h (show_each eq eqsets tuples n) st in
  let calls := map (fun sub => Ev (codegen_show_eq eq eqsets sub)) tuples in
  (exists done todo m, calls = done ++ todo /\ r = (done, Fatal m))
  \/ (exists st', r = (calls, Ok ((n - Z.of_nat (List.length tuples))%Z, st'))).
Proof.
  revert n st; induction tuples as [|t tuples IH]; intros n st; simpl.
  - right. exists st. now rewrite Z.sub_0_r.
  - destruct (h unit (codegen_show_eq eq eqsets t) st) as [[[] st1]|m].
    + destruct (IH (n - 1)%Z st1) as [(d & td & m & Hs & Hr)|(st' & Hr)];
        cbn zeta in Hr; rewrite Hr; simpl.
      * left. exists (Ev (codegen_show_eq eq eqsets t) :: d), td, m.
        simpl. now rewrite Hs.
      * right. exists st'. do 3 f_equal. lia.
    + left. exists [Ev (codegen_show_eq eq eqsets t)],
              (map (fun sub => Ev (codegen_show_eq eq eqsets sub)) tuples), m.
      auto.
Qed.

Lemma run_write_block_scalar eq (st : St) :
  is_eqn_vector opts = false ->
  let r := run h (write_block opts M eq) st in
  exists done todo,
    scalar_block_calls M eq = done ++ todo
    /\ fst r = done
    /\ (is_ok (snd r) = true -> todo = [] /\ count_matches M eq)
    /\ (~ count_matches M eq -> exists m, snd r = Fatal m).
Proof.
  intros Hv. unfold write_block, scalar_block_calls, count_matches.
  rewrite Hv. cbn zeta. rewrite run_bind, run_call.
  set (calls := map _ (cart M (eqnsets eq))).
  destruct (h unit (codegen_begin_block eq) st) as [[[] st0]|m]; simpl.
  2: { exists [Ev (codegen_begin_block eq)], calls.
       repeat split; try discriminate; eauto. }
  rewrite run_bind.
  destruct (run_show_each eq (eqnsets eq) (cart M (eqnsets eq))
                          (eqncount eq) st0)
    as [(d & td & m & Hs & Hr)|(st' & Hr)]; cbn zeta in Hr; rewrite Hr; simpl.
  - exists (Ev (codegen_begin_block eq) :: d), td. fold calls in Hs.
    simpl. rewrite Hs. repeat split; try discriminate; eauto.
  - exists (Ev (codegen_begin_block eq) :: calls), [].
    rewrite !app_nil_r.
    destruct (Z.eqb_spec (eqncount eq - Z.of_nat (List.length
                                                    (cart M (eqnsets eq)))) 0);
      simpl; rewrite ?app_nil_r; repeat split; try discriminate; eauto;
      try lia.
Qed.

Hypothesis h_total : never_fails h.

Lemma run_for_each_call_total {X} (mk : X -> Cmd unit) (xs : list X)
      (st : St) :
  exists st', run h (for_each xs (fun x => call (mk x))) st
              = (map (fun x => Ev (mk x)) xs, Ok (tt, st')).
Proof.
  revert st; induction xs as [|x xs IH]; intros st; simpl; [now exists st|].
  destruct (h_total unit (mk x) st) as ([] & st1 & ->).
  destruct (IH st1) as [st' ->]. now exists st'.
Qed.

Lemma run_show_each_total eq eqsets tuples n (st : St) :
  exists st',
    run h (show_each eq eqsets tuples n) st
    = (map (fun sub => Ev (codegen_show_eq eq eqsets sub)) tuples,
       Ok ((n - Z.of_nat (List.length tuples))%Z, st')).
Proof.
  revert n st; induction tuples as [|t tuples IH]; intros n st; simpl.
  - exists st. now rewrite Z.sub_0_r.
  - destruct (h_total unit (codegen_show_eq eq eqsets t) st)
      as ([] & st1 & ->).
    destruct (IH (n - 1)%Z st1) as [st' ->]. exists st'. simpl.
    do 3 f_equal. lia.
Qed.

Lemma run_write_block_total eq (st : St) :
  is_eqn_vector opts = false ->
  exists st',
    run h (write_block opts M eq) st
    = (scalar_block_calls M eq,
       if (eqncount eq =? Z.of_nat (List.length (cart M (eqnsets eq))))%Z
       then Ok (tt, st') else Fatal count_message).
Proof.
  intros Hv. unfold write_block, scalar_block_calls. rewrite Hv.
  cbn zeta. rewrite run_bind, run_call.
  destruct (h_total unit (codegen_begin_block eq) st) as ([] & st0 & ->).
  simpl. rewrite run_bind.
  destruct (run_show_each_total eq (eqnsets eq) (cart M (eqnsets eq))
                                (eqncount eq) st0) as (st' & Hr).
  - rewrite Hr. simpl. exists st'.
    destruct (Z.eqb_spec (eqncount eq - Z.of_nat (List.length
                                                    (cart M (eqnsets eq)))) 0);
      destruct (Z.eqb_spec (eqncount eq)
                           (Z.of_nat (List.length (cart M (eqnsets eq)))));
      simpl; rewrite ?app_nil_r; try reflexivity; lia.
Qed.

Lemma run_blocks_total eqs (st : St) :
  is_eqn_vector opts = false ->
  (forall eq, In eq eqs -> skipped eq = false -> count_matches M eq) ->
  exists st',
    run h (for_each eqs
             (fun eq => if hasundec eq || negb (istimeok eq) then Ret tt
                        else write_block opts M eq)) st
    = (flat_map (scalar_block_calls M)
                (filter (fun eq => negb (skipped eq)) eqs),
       Ok (tt, st')).
Proof.
  intros Hv. revert st; induction eqs as [|eq eqs IH]; intros st Hc; simpl.
  - now exists st.
  - rewrite run_bind. unfold skipped at 1.
    destruct (hasundec eq || negb (istimeok eq)) eqn:Hs.
    + simpl. destruct (IH st) as [st' ->]; [intros; apply Hc; simpl; auto|].
      now exists st'.
    + destruct (run_write_block_total eq st Hv) as [st1 ->].
      assert (Hm : count_matches M eq) by (apply Hc; simpl; auto).
      unfold count_matches in Hm. rewrite Hm, Z.eqb_refl.
      cbn [fst snd negb filter flat_map].
      destruct (IH st1) as [st' ->]; [intros; apply Hc; simpl; auto|].
      now exists st'.
Qed.

Lemma run_write_file_total basename (st : St) :
  is_eqn_vector opts = false ->
  is_eqn_set opts = true ->
  is_sum_set opts = true ->
  (forall eq, In eq (eqns M) -> skipped eq = false -> count_matches M eq) ->
  exists st',
    run h (Default_write_file opts M basename) st
    = (prelude M basename
         ++ flat_map (scalar_block_calls M)
                     (filter (fun eq => negb (skipped eq)) (eqns M))
         ++ postlude,
       Ok (tt, st')).
Proof.
  intros Hv He Hs Hc. unfold Default_write_file, check_styles, prelude.
  rewrite He, Hs. simpl negb. cbv iota.
  rewrite run_bind, run_call.
  destruct (h_total unit (codegen_begin_file basename) st) as ([] & s0 & ->).
  simpl fst; simpl snd; cbv iota. simpl pbind at 1.
  unfold declare_symbols.
  rewrite run_bind.
  destruct (run_for_each_call_total codegen_declare (symbols M set) s0)
    as (s1 & ->). simpl fst; simpl snd; cbv iota.
  rewrite run_bind.
  destruct (run_for_each_call_total codegen_declare (symbols M par) s1)
    as (s2 & ->). simpl fst; simpl snd; cbv iota.
  rewrite run_bind.
  destruct (run_for_each_call_total codegen_declare (symbols M var) s2)
    as (s3 & ->). simpl fst; simpl snd; cbv iota.
  rewrite run_bind.
  destruct (run_blocks_total (eqns M) s3 Hv Hc) as (s4 & ->).
  simpl fst; simpl snd; cbv iota.
  cbn [run].
  destruct (h_total unit codegen_end_file s4) as ([] & s5 & ->).
  destruct (h_total unit fclose_code s5) as ([] & s6 & ->).
  destruct (h_total unit fclose_info s6) as ([] & s7 & ->).
  exists s7. simpl fst; simpl snd. f_equal.
  unfold declare_call, postlude. rewrite !map_app. simpl.
  now rewrite <- !app_assoc.
Qed.

End ScalarFacts.

(** C4.  In scalar mode the block of a non-skipped equation logs
    [begin_block] and then one [show_eq] per tuple the iterator yields, in
    the iterator's order; a run that ends inside the block has logged an
    initial part of these calls.  The block ends normally only if the
    number of tuples equals [eqncount], and a different number always ends
    the run.  With hooks that never end the run, it ends in the count
    message after all tuples were rendered, and a whole file whose counts
    match is the prelude, the blocks of the non-skipped equations in file
    order, and the closing calls.  The iterator modelled from the
    specification enumerates [R x G] with [G] varying fastest. *)
Theorem C4_scalar_blocks
        (St : Type) (h : forall X, Cmd X -> St -> Res (X * St))
        (opts : Options) (M : Model) (basename : string) (st : St) :
  is_eqn_vector opts = false ->
  (forall eq st0,
      let r := run h (write_block opts M eq) st0 in
      exists done todo,
        scalar_block_calls M eq = done ++ todo
        /\ fst r = done
        /\ (is_ok (snd r) = true -> todo = [] /\ count_matches M eq)
        /\ (~ count_matches M eq -> exists m, snd r = Fatal m))
  /\ (never_fails h ->
      (forall eq st0,
          exists st',
            run h (write_block opts M eq) st0
            = (scalar_block_calls M eq,
               if (eqncount eq
                   =? Z.of_nat (List.length (cart M (eqnsets eq))))%Z
               then Ok (tt, st') else Fatal count_message))
      /\ (is_eqn_set opts = true ->
          is_sum_set opts = true ->
          (forall eq, In eq (eqns M) -> skipped eq = false ->
                      count_matches M eq) ->
          exists st',
            run h (Default_write_file opts M basename) st
            = (prelude M basename
                 ++ flat_map (scalar_block_calls M)
                             (filter (fun eq => negb (skipped eq)) (eqns M))
                 ++ postlude,
               Ok (tt, st'))))
  /\ cart_product RG_elements ["R"; "G"]
     = [["US"; "A"]; ["US"; "B"]; ["US"; "C"];
        ["EU"; "A"]; ["EU"; "B"]; ["EU"; "C"]].
Proof.
  intros Hv. split; [|split].
  - intros eq st0. now apply run_write_block_scalar.
  - intros Ht. split.
    + intros eq st0. now apply run_write_block_total.
    + intros He Hs Hc. now apply run_write_file_total.
  - reflexivity.
Qed.

(** The equation over [R] and [G] is rendered six times, in table order. *)
Lemma C4_scalar_blocks_witness :
  exists st',
    run quiet_handler (Default_write_file scalar_opts RG_model "model") tt
    = ([Ev (codegen_begin_file "model");
        Ev (codegen_begin_block RG_eqn);
        Ev (codegen_show_eq RG_eqn ["R"; "G"] ["US"; "A"]);
        Ev (codegen_show_eq RG_eqn ["R"; "G"] ["US"; "B"]);
        Ev (codegen_show_eq RG_eqn ["R"; "G"] ["US"; "C"]);
        Ev (codegen_show_eq RG_eqn ["R"; "G"] ["EU"; "A"]);
        Ev (codegen_show_eq RG_eqn ["R"; "G"] ["EU"; "B"]);
        Ev (codegen_show_eq RG_eqn ["R"; "G"] ["EU"; "C"]);
        Ev codegen_end_file; Ev fclose_code; Ev fclose_info],
       Ok (tt, st')).
Proof.
  refine (proj2 (proj1 (proj2
            (C4_scalar_blocks unit quiet_handler scalar_opts RG_model
                              "model" tt eq_refl))
            quiet_handler_never_fails) eq_refl eq_refl _).
  intros eq [<-|[]] _. reflexivity.
Defined.

(** ** Which equations get a block (section 4.2, step 3) *)

Lemma flat_map_filter {X Y} (f : X -> list Y) (sk : X -> bool) xs :
  flat_map (fun x => if sk x then [] else f x) xs
  = flat_map f (filter (fun x => negb (sk x)) xs).
Proof.
  induction xs as [|x xs IH]; simpl; [reflexivity|].
  destruct (sk x); simpl; now rewrite IH.
Qed.

Lemma flat_map_single {X Y} (f : X -> Y) xs :
  flat_map (fun x => [f x]) xs = map f xs.
Proof. induction xs as [|x xs IH]; simpl; congruence. Qed.

Section FollowFacts.

Context {St : Type} (h : forall X, Cmd X -> St -> Res (X * St)).
Variable opts : Options.
Variable M : Model.

Lemma follows_call {X} (c : Cmd X) (st : St) :
  follows [Ev c] (run h (call c) st).
Proof.
  rewrite run_call. destruct (h X c st) as [[x st']|m];
    exists []; split; auto.
Qed.

Lemma follows_bind {A B} t1 t2 (p : Prog A) (k : A -> Prog B) (st : St) :
  follows t1 (run h p st) ->
  (forall a st', follows t2 (run h (k a) st')) ->
  follows (t1 ++ t2) (run h (pbind p k) st).
Proof.
  intros (todo1 & E1 & Hok1) Hk. rewrite run_bind.
  destruct (snd (run h p st)) as [[a st']|m].
  - rewrite (Hok1 eq_refl), app_nil_r in E1.
    destruct (Hk a st') as (todo2 & E2 & Hok2).
    exists todo2. cbn [fst snd]. split; [|exact Hok2].
    now rewrite E1, E2, app_assoc.
  - exists (todo1 ++ t2). cbn [fst snd]. split; [|discriminate].
    now rewrite E1, app_assoc.
Qed.

Lemma follows_for_each {X} (calls : X -> list Event) (xs : list X)
      (body : X -> Prog unit) (st : St) :
  (forall x st', follows (calls x) (run h (body x) st')) ->
  follows (flat_map calls xs) (run h (for_each xs body) st).
Proof.
  intros Hb. revert st; induction xs as [|x xs IH]; intros st.
  - exists []. split; auto.
  - cbn [for_each flat_map]. apply follows_bind; auto.
Qed.

Lemma follows_show_each eq eqsets tuples n (st : St) :
  follows (map (fun sub => Ev (codegen_show_eq eq eqsets sub)) tuples)
          (run h (show_each eq eqsets tuples n) st).
Proof.
  destruct (run_show_each h eq eqsets tuples n st)
    as [(d & td & m & Hs & Hr)|(st' & Hr)]; cbn zeta in Hr; rewrite Hr.
  - exists td. split; [exact Hs | discriminate].
  - exists []. split; [now rewrite app_nil_r | reflexivity].
Qed.

Lemma follows_write_block eq (st : St) :
  follows (block_calls opts M eq) (run h (write_block opts M eq) st).
Proof.
  unfold block_calls, write_block, scalar_block_calls. cbn zeta.
  destruct (is_eqn_vector opts).
  - apply (follows_bind [Ev (codegen_begin_block eq)]
                        [Ev (codegen_show_eq eq (eqnsets eq) [])]);
      [apply follows_call|]. intros _ st'. apply follows_call.
  - apply (follows_bind [Ev (codegen_begin_block eq)]);
      [apply follows_call|]. intros _ st'.
    rewrite <- (app_nil_r (map _ (cart M (eqnsets eq)))).
    apply follows_bind; [apply follows_show_each|].
    intros n st''. exists []. destruct (n =? 0)%Z; split; auto; discriminate.
Qed.

Lemma follows_prelude {A} target (tail : Prog A) basename (st : St) :
  (forall st', follows target (run h tail st')) ->
  follows (prelude M basename ++ target)
          (run h (call (codegen_begin_file basename) ;;
                  check_styles opts ;;
                  declare_symbols M set ;;
                  declare_symbols M par ;;
                  declare_symbols M var ;;
                  tail)%prog st).
Proof.
  intros Htail.
  assert (Hdecl : forall t st',
             follows (map declare_call (symbols M t))
                     (run h (declare_symbols M t) st')).
  { intros t st'. unfold declare_symbols.
    rewrite <- (flat_map_single declare_call).
    apply follows_for_each. intros sym st''. apply follows_call. }
  unfold prelude. rewrite !map_app.
  change (Ev (codegen_begin_file basename)
            :: (map declare_call (symbols M set)
                ++ map declare_call (symbols M par)
                ++ map declare_call (symbols M var)))
    with ([Ev (codegen_begin_file basename)]
            ++ [] ++ (map declare_call (symbols M set)
                      ++ map declare_call (symbols M par)
                      ++ map declare_call (symbols M var))).
  rewrite <- !app_assoc.
  apply follows_bind; [apply follows_call|]. intros _ st0.
  apply follows_bind.
  { unfold check_styles.
    destruct (negb (is_eqn_set opts)); [exists []; split; auto; discriminate|].
    destruct (negb (is_sum_set opts)); exists []; split; auto; discriminate. }
  intros _ st1.
  apply follows_bind; [apply Hdecl|]. intros _ st2.
  apply follows_bind; [apply Hdecl|]. intros _ st3.
  apply follows_bind; [apply Hdecl|]. intros _ st4.
  apply Htail.
Qed.

Lemma follows_html basename (st : St) :
  follows (html_calls opts M basename)
          (run h (HTML_write_file opts M basename) st).
Proof.
  unfold html_calls, HTML_write_file, postlude.
  apply follows_prelude. intros st'.
  apply follows_bind.
  { apply follows_for_each. intros eq st''. apply follows_write_block. }
  intros _ st1.
  apply (follows_bind [Ev codegen_end_file]); [apply follows_call|].
  intros _ st2.
  apply (follows_bind [Ev fclose_code]); [apply follows_call|].
  intros _ st3.
  apply (follows_bind [Ev fclose_info]); [apply follows_call|].
  intros _ st4. apply follows_call.
Qed.

Lemma follows_default basename (st : St) :
  follows (default_calls opts M basename)
          (run h (Default_write_file opts M basename) st).
Proof.
  unfold default_calls, Default_write_file, postlude.
  apply follows_prelude. intros st'.
  apply follows_bind.
  { rewrite <- (flat_map_filter (block_calls opts M) skipped).
    apply follows_for_each. intros eq st''. unfold skipped.
    destruct (hasundec eq || negb (istimeok eq)).
    - exists []. split; auto.
    - apply follows_write_block. }
  intros _ st1.
  apply (follows_bind [Ev codegen_end_file]); [apply follows_call|].
  intros _ st2.
  apply (follows_bind [Ev fclose_code]); [apply follows_call|].
  intros _ st3. apply follows_call.
Qed.

Hypothesis h_total : never_fails h.

Lemma run_for_each_total {X} (calls : X -> list Event) (xs : list X)
      (body : X -> Prog unit) (st : St) :
  (forall x, In x xs -> forall st0,
      exists st', run h (body x) st0 = (calls x, Ok (tt, st'))) ->
  exists st', run h (for_each xs body) st = (flat_map calls xs, Ok (tt, st')).
Proof.
  revert st; induction xs as [|x xs IH]; intros st Hb.
  - now exists st.
  - cbn [for_each flat_map]. rewrite run_bind.
    destruct (Hb x (or_introl eq_refl) st) as (st1 & ->). cbn [fst snd].
    destruct (IH st1) as (st' & ->); [intros; apply Hb; simpl; auto|].
    now exists st'.
Qed.

Lemma run_block_total eq (st : St) :
  is_eqn_vector opts = true \/ count_matches M eq ->
  exists st',
    run h (write_block opts M eq) st = (block_calls opts M eq, Ok (tt, st')).
Proof.
  intros Hc. unfold block_calls.
  destruct (is_eqn_vector opts) eqn:Hv.
  - unfold write_block. rewrite Hv. cbn [pbind call run].
    destruct (h_total unit (codegen_begin_block eq) st) as ([] & st0 & ->).
    destruct (h_total unit (codegen_show_eq eq (eqnsets eq) []) st0)
      as ([] & st1 & ->).
    now exists st1.
  - destruct Hc as [Hc|Hc]; [discriminate|].
    destruct (run_write_block_total h opts M h_total eq st Hv) as (st' & ->).
    unfold count_matches in Hc. rewrite Hc, Z.eqb_refl. now exists st'.
Qed.

Lemma run_html_total basename (st : St) :
  is_eqn_set opts = true ->
  is_sum_set opts = true ->
  counts_ok opts M (eqns M) ->
  exists st',
    run h (HTML_write_file opts M basename) st
    = (html_calls opts M basename, Ok (tt, st')).
Proof.
  intros He Hs Hc.
  destruct (h_total unit (codegen_begin_file basename) st) as ([] & st0 & Hb).
  destruct (thread_total h codegen_declare
              (symbols M set ++ symbols M par ++ symbols M var) st0 h_total)
    as (st3 & Ht).
  unfold HTML_write_file, html_calls.
  rewrite (run_prelude_made h opts M _ basename st st0 st3 He Hs Hb Ht).
  rewrite run_bind.
  destruct (run_for_each_total (block_calls opts M) (eqns M)
                               (write_block opts M) st3) as (s4 & ->).
  { intros eq Hin st1. apply run_block_total.
    destruct Hc as [Hc|Hc]; [now left | right; now apply Hc]. }
  cbn [fst snd pbind call run].
  destruct (h_total unit codegen_end_file s4) as ([] & s5 & ->).
  destruct (h_total unit fclose_code s5) as ([] & s6 & ->).
  destruct (h_total unit fclose_info s6) as ([] & s7 & ->).
  destruct (h_total unit (remove_file "rubbish.lis") s7) as ([] & s8 & ->).
  exists s8. reflexivity.
Qed.

Lemma run_default_total basename (st : St) :
  is_eqn_set opts = true ->
  is_sum_set opts = true ->
  counts_ok opts M (filter (fun eq => negb (skipped eq)) (eqns M)) ->
  exists st',
    run h (Default_write_file opts M basename) st
    = (default_calls opts M basename, Ok (tt, st')).
Proof.
  intros He Hs Hc.
  destruct (h_total unit (codegen_begin_file basename) st) as ([] & st0 & Hb).
  destruct (thread_total h codegen_declare
              (symbols M set ++ symbols M par ++ symbols M var) st0 h_total)
    as (st3 & Ht).
  unfold Default_write_file, default_calls.
  rewrite (run_prelude_made h opts M _ basename st st0 st3 He Hs Hb Ht).
  rewrite run_bind.
  destruct (run_for_each_total
              (fun eq => if skipped eq then [] else block_calls opts M eq)
              (eqns M)
              (fun eq => if hasundec eq || negb (istimeok eq) then Ret tt
                         else write_block opts M eq) st3) as (s4 & ->).
  { intros eq Hin st1. unfold skipped at 1.
    destruct (hasundec eq || negb (istimeok eq)) eqn:Hsk.
    - now exists st1.
    - apply run_block_total.
      destruct Hc as [Hc|Hc]; [now left | right]. apply Hc.
      apply filter_In. split; [exact Hin|]. unfold skipped. now rewrite Hsk. }
  cbn [fst snd pbind call run].
  destruct (h_total unit codegen_end_file s4) as ([] & s5 & ->).
  destruct (h_total unit fclose_code s5) as ([] & s6 & ->).
  destruct (h_total unit fclose_info s6) as ([] & s7 & ->).
  exists s7. now rewrite flat_map_filter.
Qed.

End FollowFacts.

(** C6.  The documentation backend renders every equation of the file,
    in file order, whatever [hasundec] and [istimeok] answer.  With hooks
    that never end the run, both styles set and, in scalar mode, element
    counts that match, the log of [HTML_write_file] is the prelude, then
    for every equation of the file its [begin_block] and its [show_eq]
    calls, then the closing calls, and the run ends normally.  With any
    hooks the log is an initial part of these calls, and all of them when
    the run ends normally.  The default driver does the same with the
    equations that pass the test, and makes no call for the others. *)
Theorem C6_html_renders_every_equation
        (St : Type) (h : forall X, Cmd X -> St -> Res (X * St))
        (opts : Options) (M : Model) (basename : string) (st : St) :
  let rh := run h (HTML_write_file opts M basename) st in
  let rd := run h (Default_write_file opts M basename) st in
  follows (html_calls opts M basename) rh
  /\ (never_fails h ->
      is_eqn_set opts = true ->
      is_sum_set opts = true ->
      counts_ok opts M (eqns M) ->
      exists st', rh = (html_calls opts M basename, Ok (tt, st')))
  /\ follows (default_calls opts M basename) rd
  /\ (never_fails h ->
      is_eqn_set opts = true ->
      is_sum_set opts = true ->
      counts_ok opts M (filter (fun eq => negb (skipped eq)) (eqns M)) ->
      exists st', rd = (default_calls opts M basename, Ok (tt, st'))).
Proof.
  cbn zeta. split; [|split; [|split]].
  - apply follows_html.
  - intros Hh. now apply run_html_total.
  - apply follows_default.
  - intros Hh. now apply run_default_total.
Qed.

(** With quiet hooks, the documentation backend renders the three
    equations of the model, the one with an undeclared symbol
    included. *)
Lemma C6_html_renders_every_equation_witness :
  exists st',
    run quiet_handler (HTML_write_file vector_opts three_eqn_model "m") tt
    = ([Ev (codegen_begin_file "m");
        Ev (codegen_begin_block (sound_eqn "x"));
        Ev (codegen_show_eq (sound_eqn "x") [] []);
        Ev (codegen_begin_block undeclared_eqn);
        Ev (codegen_show_eq undeclared_eqn [] []);
        Ev (codegen_begin_block (sound_eqn "z"));
        Ev (codegen_show_eq (sound_eqn "z") [] []);
        Ev codegen_end_file; Ev fclose_code; Ev fclose_info;
        Ev (remove_file "rubbish.lis")],
       Ok (tt, st')).
Proof.
  exact (proj1 (proj2
           (C6_html_renders_every_equation unit quiet_handler vector_opts
                                           three_eqn_model "m" tt))
           quiet_handler_never_fails eq_refl eq_refl (or_introl eq_refl)).
Defined.

(** The default driver makes no call for the equation with the
    undeclared symbol. *)
Example default_skips_undeclared_equation :
  fst (run quiet_handler
           (Default_write_file vector_opts three_eqn_model "m") tt)
  = [Ev (codegen_begin_file "m");
     Ev (codegen_begin_block (sound_eqn "x"));
     Ev (codegen_show_eq (sound_eqn "x") [] []);
     Ev (codegen_begin_block (sound_eqn "z"));
     Ev (codegen_show_eq (sound_eqn "z") [] []);
     Ev codegen_end_file; Ev fclose_code; Ev fclose_info].
Proof. reflexivity. Qed.

(** ** Equation assembly (section 4.2, [show_eq]) *)

Lemma emit_emit {U} a b (st : string * U) :
  emit b (emit a st) = emit (a ++ b)%string st.
Proof. unfold emit. simpl. now rewrite append_assoc. Qed.

Lemma emit_empty {U} (st : string * U) : emit "" st = st.
Proof. unfold emit. rewrite append_empty_r. now destruct st. Qed.

Lemma wrap_write_short L head addcr commaok :
  String.length head <= L ->
  Default_wrap_write L head addcr commaok
  = (OutStr head :: (if addcr then [OutCr] else []), Ok tt).
Proof.
  intros H. unfold Default_wrap_write.
  funelim (wrap_loop L addcr commaok head head); try lia. reflexivity.
Qed.

Lemma length_append (a b : string) :
  String.length (a ++ b) = String.length a + String.length b.
Proof. induction a; simpl; auto. Qed.

(** A text that fits the width leaves the wrapper as it entered it. *)
Lemma wrapped_text_short L head rest :
  String.length (head ++ rest) <= L ->
  wrapped_text L head rest = ((head ++ rest)%string, Ok tt).
Proof.
  revert head; induction rest as [|c rest IH]; intros head H; simpl.
  - rewrite append_empty_r in *. rewrite wrap_write_short by exact H.
    unfold render_outs, concat. simpl. now rewrite append_empty_r.
  - rewrite length_append in H. simpl in H.
    destruct (Ascii.eqb c (ascii_of_nat 10)) eqn:E.
    + apply Ascii.eqb_eq in E. subst c.
      rewrite wrap_write_short by lia. simpl.
      rewrite (IH EmptyString) by (simpl; lia). simpl.
      unfold render_outs, concat, nl. simpl.
      now rewrite append_assoc.
    + rewrite IH.
      * unfold append_char. now rewrite append_assoc.
      * unfold append_char. rewrite !length_append. simpl. lia.
Qed.

Section ShowEqFacts.

Context {U : Type}.
Variable hooks : forall X, Cmd X -> string * U -> Res (X * (string * U)).
Variable L : nat.

(** Running the loop over the lines writes [wrapped_text]. *)
Lemma run_wrap_lines head rest st :
  snd (run (stream_handler L hooks) (wrap_lines head rest) st)
  = match snd (wrapped_text L head rest) with
    | Ok _ => Ok (tt, emit (fst (wrapped_text L head rest)) st)
    | Fatal m => Fatal m
    end.
Proof.
  revert head st; induction rest as [|c rest IH]; intros head st; simpl.
  - now destruct (snd (Default_wrap_write L head false false)).
  - destruct (Ascii.eqb c (ascii_of_nat 10)).
    + simpl. destruct (snd (Default_wrap_write L head true false)) eqn:E;
        simpl; [|reflexivity].
      rewrite IH.
      destruct (snd (wrapped_text L "" rest)); simpl; [|reflexivity].
      now rewrite emit_emit.
    + apply IH.
Qed.

End ShowEqFacts.

(** C8.  [show_eq] asks the [show_node] hook for the left and the right
    side, in this order and with parent kind [nul], then calls
    [begin_eqn]; the text [LHS = RHS], or [LHS - (RHS)] in normalized
    mode, is then written to the code stream, verbatim at line width zero
    and as the line wrapper writes it otherwise, and [end_eqn] is called on
    the stream so extended.  A line the wrapper cannot break ends the
    run. *)
Theorem C8_show_eq_assembly
        (U : Type)
        (hooks : forall X, Cmd X -> string * U -> Res (X * (string * U)))
        (opts : Options) (eq : Eqn) (setlist sublist : list string)
        (st st1 st2 st3 : string * U) (lstr rstr : string) :
  hooks string (codegen_show_node nul (getlhs eq) setlist sublist) st
  = Ok (lstr, st1) ->
  hooks string (codegen_show_node nul (getrhs eq) setlist sublist) st1
  = Ok (rstr, st2) ->
  hooks unit (codegen_begin_eqn eq) st2 = Ok (tt, st3) ->
  let h := stream_handler (get_line_length opts) hooks in
  let r := run h (Default_show_eq opts eq setlist sublist) st in
  let all := assembled opts lstr rstr in
  snd r = match snd (eqn_text opts all) with
          | Ok _ => hooks unit (codegen_end_eqn eq)
                          (emit (fst (eqn_text opts all)) st3)
          | Fatal m => Fatal m
          end
  /\ firstn 3 (fst r)
     = [Ev (codegen_show_node nul (getlhs eq) setlist sublist);
        Ev (codegen_show_node nul (getrhs eq) setlist sublist);
        Ev (codegen_begin_eqn eq)]
  /\ (is_ok (snd (eqn_text opts all)) = true ->
      last (fst r) (Ev fclose_code) = Ev (codegen_end_eqn eq))
  /\ (get_line_length opts = 0 ->
      skipn 3 (fst r) = [Ev (fprintf_code all); Ev (codegen_end_eqn eq)]).
Proof.
  intros H1 H2 H3 h r all. subst r.
  set (sn1 := Ev (codegen_show_node nul (getlhs eq) setlist sublist)).
  set (sn2 := Ev (codegen_show_node nul (getrhs eq) setlist sublist)).
  set (body :=
         (if (get_line_length opts =? 0)%nat
          then (call (fprintf_code all) ;; call (codegen_end_eqn eq))%prog
          else ((if (String.length all <=? get_line_length opts)%nat
                 then call (fprintf_code all)
                 else wrap_lines EmptyString all) ;;
                call (codegen_end_eqn eq))%prog)).
  assert (Hrun : run h (Default_show_eq opts eq setlist sublist) st
                 = (sn1 :: sn2 :: Ev (codegen_begin_eqn eq)
                        :: fst (run h body st3),
                    snd (run h body st3))).
  { unfold Default_show_eq, show_eq_gen, h.
    cbn [pbind call run stream_handler]. rewrite H1.
    cbn [pbind call run stream_handler fst snd]. rewrite H2.
    cbn [pbind call run stream_handler fst snd]. rewrite H3.
    cbn [fst snd]. subst body sn1 sn2 all. unfold assembled.
    destruct (get_line_length opts =? 0)%nat; reflexivity. }
  rewrite Hrun. clear Hrun. cbn [fst snd firstn skipn].
  unfold body, eqn_text. clear body.
  destruct (get_line_length opts =? 0)%nat eqn:E0.
  - cbn [pbind call run fst snd]. unfold h. cbn [stream_handler].
    cbn [fst snd].
    destruct (hooks unit (codegen_end_eqn eq) (emit all st3))
      as [[[] st4]|m]; cbn; repeat split; auto.
  - apply Nat.eqb_neq in E0.
    destruct (String.length all <=? get_line_length opts)%nat eqn:E1.
    + apply Nat.leb_le in E1. rewrite wrapped_text_short by exact E1.
      cbn [pbind call run fst snd]. unfold h.
      cbn [stream_handler]. cbn [fst snd append].
      destruct (hooks unit (codegen_end_eqn eq) (emit all st3))
        as [[[] st4]|m]; cbn; repeat split; auto; intros; lia.
    + rewrite run_bind.
      pose proof (run_wrap_lines hooks (get_line_length opts) "" all st3)
        as Hw. fold h in Hw. rewrite Hw.
      destruct (snd (wrapped_text (get_line_length opts) "" all)) as [[]|m].
      * cbn [fst snd]. rewrite run_call.
        change (h unit (codegen_end_eqn eq))
          with (hooks unit (codegen_end_eqn eq)).
        destruct (hooks unit (codegen_end_eqn eq) _) as [[[] st4]|m];
          cbn [fst snd]; repeat split; auto; try (intros; lia);
          intros _; rewrite !app_comm_cons, last_last; reflexivity.
      * cbn [fst snd]. repeat split; auto; try discriminate; intros; lia.
Qed.

(** At width 3 the text [x = x] is broken before its second blank. *)
Lemma C8_show_eq_assembly_witness :
  snd (run (stream_handler 3 sample_hooks)
           (Default_show_eq narrow_opts sample_eqn [] []) ("", tt))
  = Ok (tt, (concat ["    "; "x ="; nl; "   "; " x"; nl], tt)).
Proof.
  exact (proj1 (C8_show_eq_assembly unit sample_hooks narrow_opts sample_eqn
                  [] [] ("", tt) ("", tt) ("", tt) ("    ", tt) "x" "x"
                  eq_refl eq_refl eq_refl)).
Defined.

(** ** The slot allocator (section 4.4) *)

Lemma lengths_ok_inv vi :
  lengths_ok vi ->
  exists a0 a1 a2 a3 a4 a5 a6 a7 a8 a9 a10 a11 a12 a13,
    vi = [a0; a1; a2; a3; a4; a5; a6; a7; a8; a9; a10; a11; a12; a13]
    /\ (0 <= a0 /\ 0 <= a1 /\ 0 <= a2 /\ 0 <= a3 /\ 0 <= a4 /\ 0 <= a5
        /\ 0 <= a6 /\ 0 <= a7 /\ 0 <= a8 /\ 0 <= a9 /\ 0 <= a10
        /\ 0 <= a11 /\ 0 <= a12 /\ 0 <= a13)%Z.
Proof.
  intros [Hlen Hpos].
  do 14 (destruct vi as [|? vi]; [discriminate Hlen|]).
  destruct vi; [|discriminate Hlen].
  repeat match goal with
         | H : Forall _ (_ :: _) |- _ => inversion H; clear H; subst
         end.
  do 14 eexists. split; [reflexivity|]. repeat split; assumption.
Qed.

Ltac decide_started :=
  repeat match goal with
         | |- context [(?x <? 0)%Z] =>
             rewrite (proj2 (Z.ltb_ge x 0)) by lia
         end.





(** ** Time shifts in [get_msgname] *)

Lemma find_variable_names str h1 h2 :
  same_names h1 h2 ->
  match find_variable str h1, find_variable str h2 with
  | Ok _, Ok _ => True
  | Fatal m1, Fatal m2 => m1 = m2
  | _, _ => False
  end.
Proof.
  unfold same_names. revert h2; induction h1 as [|v1 h1 IH];
    intros [|v2 h2] H; try discriminate; simpl; [reflexivity|].
  injection H as Hv Ht. rewrite Hv.
  destruct (strcasecmp str (v_str v2) =? 0)%Z; [exact I|].
  destruct (strcasecmp str (v_str v2) <? 0)%Z; [reflexivity|].
  now apply IH.
Qed.

(** C10.  A reference that [get_msgname] renders has a time shift of -1,
    0 or 1.  With a shift below -1 or above 1 the run ends, for a
    registered name with the message about nested lags or nested leads,
    and the outcome is the same for any registry with the same names: no
    vector and no offset has been looked at. *)
Theorem C10_time_shift_range
        (M : Model) (head : list variable) (str : string)
        (sublist : list string) (context : Context) :
  (forall text, get_msgname M head str sublist context = Ok text ->
                (-1 <= ctx_dt context <= 1)%Z)
  /\ ((ctx_dt context < -1 \/ 1 < ctx_dt context)%Z ->
      is_ok (get_msgname M head str sublist context) = false
      /\ (forall v, find_variable str head = Ok v ->
                    get_msgname M head str sublist context
                    = Fatal (if (ctx_dt context <? -1)%Z
                             then lag_message else lead_message))
      /\ (forall head', same_names head' head ->
                        get_msgname M head' str sublist context
                        = get_msgname M head str sublist context)).
Proof.
  split.
  - unfold get_msgname. intros text.
    destruct head as [|v0 head0]; [discriminate|].
    destruct (find_variable str (v0 :: head0)); [|discriminate]. simpl.
    destruct (Z.ltb_spec (ctx_dt context) (-1)); [discriminate|].
    destruct (Z.gtb_spec (ctx_dt context) 1); [discriminate|]. lia.
  - intros Hdt.
    assert (Hget : forall h v,
               find_variable str h = Ok v ->
               get_msgname M h str sublist context
               = Fatal (if (ctx_dt context <? -1)%Z
                        then lag_message else lead_message)).
    { intros h v Hv. unfold get_msgname.
      destruct h as [|v0 h0]; [discriminate|]. rewrite Hv. simpl.
      destruct (Z.ltb_spec (ctx_dt context) (-1)); [reflexivity|].
      destruct (Z.gtb_spec (ctx_dt context) 1); [reflexivity | lia]. }
    assert (Hfail : forall h m,
               find_variable str h = Fatal m ->
               get_msgname M h str sublist context
               = match h with
                 | [] => Fatal "Variable list is blank in get_msgname"
                 | _ => Fatal m
                 end).
    { intros h m Hm. unfold get_msgname.
      destruct h as [|v0 h0]; [reflexivity|]. now rewrite Hm. }
    split; [|split].
    + destruct (find_variable str head) as [v|m] eqn:E.
      * now rewrite (Hget head v E).
      * rewrite (Hfail head m E). now destruct head.
    + intros v Hv. now apply (Hget head v).
    + intros head' Hn.
      pose proof (find_variable_names str head' head Hn) as Hf.
      destruct (find_variable str head') as [v'|m'] eqn:E';
        destruct (find_variable str head) as [v|m] eqn:E; try contradiction.
      * now rewrite (Hget head' v' E'), (Hget head v E).
      * subst m'. rewrite (Hfail head' m E'), (Hfail head m E).
        unfold same_names in Hn.
        destruct head', head; try discriminate; reflexivity.
Qed.

(** A lag of a lag of [x] ends the run. *)
Lemma C10_time_shift_range_witness :
  get_msgname balanced_model [x_end] "X" [] (mkContext false (-2) None)
  = Fatal lag_message.
Proof.
  refine (proj1 (proj2 (proj2
            (C10_time_shift_range balanced_model [x_end] "X" []
                                  (mkContext false (-2) None)) _))
            x_end eq_refl).
  left. simpl. lia.
Defined.

(** ** The registry (section 4.4, registration) *)

Lemma strcasecmp_flip a b : strcasecmp b a = (- strcasecmp a b)%Z.
Proof.
  revert b; induction a as [|c a IH]; intros [|d b]; simpl; try lia.
  rewrite (Nat.eqb_sym (tolower d) (tolower c)).
  destruct (Nat.eqb_spec (tolower c) (tolower d)) as [E|E]; [|lia].
  rewrite <- E. destruct (tolower c =? 0)%nat; [reflexivity | apply IH].
Qed.

(** Composition of two comparisons. *)
Lemma strcasecmp_compose a b c :
  (strcasecmp a b <= 0 -> strcasecmp b c <= 0 ->
   strcasecmp a c <= 0
   /\ (strcasecmp a b < 0 \/ strcasecmp b c < 0 -> strcasecmp a c < 0))%Z.
Proof.
  revert b c; induction a as [|x a IH]; intros [|y b] [|z c]; simpl;
    repeat match goal with
           | |- context [(?m =? ?n)%nat] =>
               destruct (Nat.eqb_spec m n)
           end;
    try lia; try (apply IH).
Qed.

Lemma strcasecmp_lt_trans a b c :
  (strcasecmp a b < 0 -> strcasecmp b c < 0 -> strcasecmp a c < 0)%Z.
Proof.
  intros H1 H2. apply (strcasecmp_compose a b c); lia.
Qed.

Lemma strcasecmp_lt_same a b c :
  (strcasecmp a b < 0 -> strcasecmp c b = 0 -> strcasecmp a c < 0)%Z.
Proof.
  intros H1 H2. rewrite strcasecmp_flip in H2.
  apply (strcasecmp_compose a b c); lia.
Qed.

Lemma same_name_iff a b : same_name a b = true <-> strcasecmp a b = 0%Z.
Proof. unfold same_name. apply Z.eqb_eq. Qed.

(** Where [insert_after] links the new entry in. *)
Lemma insert_after_split newvar cur rest l :
  insert_after newvar cur rest = Ok l ->
  exists pre post,
    rest = pre ++ post
    /\ l = cur :: pre ++ newvar :: post
    /\ Forall (fun v => (0 < strcasecmp (v_str newvar) (v_str v))%Z) pre
    /\ match post with
       | [] => True
       | nxt :: _ => (strcasecmp (v_str newvar) (v_str nxt) < 0)%Z
       end.
Proof.
  revert cur l; induction rest as [|nxt rest IH]; intros cur l; simpl.
  - intros [= <-]. exists [], []. auto.
  - destruct (Z.eqb_spec (strcasecmp (v_str newvar) (v_str nxt)) 0);
      [discriminate|].
    destruct (Z.ltb_spec (strcasecmp (v_str newvar) (v_str nxt)) 0).
    + intros [= <-]. exists [], (nxt :: rest). auto.
    + destruct (insert_after newvar nxt rest) as [tl|] eqn:E; [|discriminate].
      intros [= <-].
      destruct (IH nxt tl E) as (pre & post & -> & -> & Hpre & Hpost).
      exists (nxt :: pre), post. repeat split; auto.
      constructor; [lia | exact Hpre].
Qed.

Lemma insert_variable_split newvar head l :
  insert_variable newvar head = Ok l ->
  exists pre post,
    head = pre ++ post
    /\ l = pre ++ newvar :: post
    /\ Forall (fun v => (0 < strcasecmp (v_str newvar) (v_str v))%Z) pre
    /\ match post with
       | [] => True
       | nxt :: _ => (strcasecmp (v_str newvar) (v_str nxt) < 0)%Z
       end.
Proof.
  destruct head as [|cur rest]; simpl.
  - intros [= <-]. exists [], []. auto.
  - destruct (Z.eqb_spec (strcasecmp (v_str newvar) (v_str cur)) 0);
      [discriminate|].
    destruct (Z.ltb_spec (strcasecmp (v_str newvar) (v_str cur)) 0).
    + intros [= <-]. exists [], (cur :: rest). auto.
    + intros Hins.
      destruct (insert_after_split _ _ _ _ Hins)
        as (pre & post & -> & -> & Hpre & Hpost).
      exists (cur :: pre), post. repeat split; auto.
      constructor; [lia | exact Hpre].
Qed.

Lemma sorted_app_inv (pre post : list variable) :
  registry_sorted (pre ++ post) ->
  registry_sorted pre /\ registry_sorted post
  /\ Forall (fun u => Forall (name_lt u) post) pre.
Proof.
  unfold registry_sorted. induction pre as [|u pre IH]; simpl; intros Hall.
  - repeat split; [constructor | exact Hall | constructor].
  - inversion Hall as [|? ? Hs Hf]; subst.
    destruct (IH Hs) as (H1 & H2 & H3).
    apply Forall_app in Hf as [Hf1 Hf2].
    repeat split; auto; constructor; auto.
Qed.

Lemma sorted_insert (pre post : list variable) (newvar : variable) :
  registry_sorted (pre ++ post) ->
  Forall (fun v => (0 < strcasecmp (v_str newvar) (v_str v))%Z) pre ->
  match post with
  | [] => True
  | nxt :: _ => (strcasecmp (v_str newvar) (v_str nxt) < 0)%Z
  end ->
  registry_sorted (pre ++ newvar :: post).
Proof.
  intros Hs Hpre Hpost.
  destruct (sorted_app_inv pre post Hs) as (H1 & H2 & H3).
  assert (Hnew : Forall (name_lt newvar) post).
  { destruct post as [|nxt post]; [constructor|].
    inversion H2 as [|? ? _ Hf]; subst.
    constructor; [exact Hpost|].
    eapply Forall_impl; [|exact Hf]. intros v Hv.
    unfold name_lt in *. eapply strcasecmp_lt_trans; eauto. }
  clear Hpost Hs. unfold registry_sorted in *.
  induction pre as [|u pre IH]; simpl.
  - constructor; auto.
  - inversion H1 as [|? ? Hs1 Hf1]; subst.
    inversion H3 as [|? ? Hu H3']; subst.
    inversion Hpre as [|? ? Hun Hpre']; subst.
    constructor; [now apply IH|].
    apply Forall_app. split; [exact Hf1|].
    constructor; [|exact Hu].
    unfold name_lt. rewrite strcasecmp_flip. lia.
Qed.

Lemma insert_variable_sorted newvar head l :
  registry_sorted head ->
  insert_variable newvar head = Ok l ->
  registry_sorted l.
Proof.
  intros Hs H.
  destruct (insert_variable_split _ _ _ H)
    as (pre & post & -> & -> & Hpre & Hpost).
  now apply sorted_insert.
Qed.

Lemma sorted_unique head : registry_sorted head -> names_unique head.
Proof.
  unfold registry_sorted, names_unique.
  induction 1 as [|u head Hs IH Hf]; constructor; auto.
  eapply Forall_impl; [|exact Hf]. intros v Hv. unfold name_lt in Hv.
  unfold same_name. apply Z.eqb_neq. lia.
Qed.

(** In a sorted registry the walk meets a name that is registered. *)
Lemma insert_after_duplicate newvar cur rest :
  registry_sorted (cur :: rest) ->
  (0 < strcasecmp (v_str newvar) (v_str cur))%Z ->
  registered (v_str newvar) rest ->
  insert_after newvar cur rest = Fatal duplicate_message.
Proof.
  revert cur; induction rest as [|nxt rest IH]; intros cur Hs Hc (v & Hin & Hv).
  - destruct Hin.
  - simpl. apply same_name_iff in Hv.
    inversion Hs as [|? ? Hs' Hf]; subst.
    destruct Hin as [->|Hin].
    + rewrite Hv. reflexivity.
    + inversion Hs' as [|? ? _ Hfn]; subst.
      assert (Hlt : name_lt nxt v) by (eapply Forall_forall; eauto).
      unfold name_lt in Hlt.
      pose proof (strcasecmp_lt_same _ _ _ Hlt Hv) as Hn.
      rewrite strcasecmp_flip in Hn.
      destruct (Z.eqb_spec (strcasecmp (v_str newvar) (v_str nxt)) 0); [lia|].
      destruct (Z.ltb_spec (strcasecmp (v_str newvar) (v_str nxt)) 0); [lia|].
      rewrite IH; auto; [lia|].
      exists v. split; auto. now apply same_name_iff.
Qed.

Lemma insert_variable_duplicate newvar head :
  registry_sorted head ->
  registered (v_str newvar) head ->
  insert_variable newvar head = Fatal duplicate_message.
Proof.
  intros Hs (v & Hin & Hv). destruct head as [|cur rest]; [destruct Hin|].
  simpl. apply same_name_iff in Hv.
  destruct Hin as [->|Hin].
  - rewrite Hv. reflexivity.
  - inversion Hs as [|? ? _ Hf]; subst.
    assert (Hlt : name_lt cur v) by (eapply Forall_forall; eauto).
    unfold name_lt in Hlt.
    pose proof (strcasecmp_lt_same _ _ _ Hlt Hv) as Hn.
    rewrite strcasecmp_flip in Hn.
    destruct (Z.eqb_spec (strcasecmp (v_str newvar) (v_str cur)) 0); [lia|].
    destruct (Z.ltb_spec (strcasecmp (v_str newvar) (v_str cur)) 0); [lia|].
    apply insert_after_duplicate; auto; [lia|].
    exists v. split; auto. now apply same_name_iff.
Qed.

Ltac step_in H :=
  match type of H with
  | match ?x with _ => _ end = _ => destruct x eqn:?; try discriminate H
  | (if ?b then _ else _) = _ => destruct b eqn:?; try discriminate H
  end.

(** A declaration that succeeds is a no-op for a set, and the insertion
    of an entry named after the symbol otherwise. *)
Lemma declare_inv M sym st st' :
  PYTHON_declare M sym st = Ok st' ->
  (istype sym set = true /\ st' = st)
  \/ (istype sym set = false
      /\ exists newvar,
          v_str newvar = symname sym
          /\ insert_variable newvar (v_head st) = Ok (v_head st')).
Proof.
  unfold PYTHON_declare, rbind, msg_error. intros H.
  destruct (istype sym set) eqn:Hset.
  - left. split; [reflexivity|]. now injection H as <-.
  - right. split; [reflexivity|].
    repeat step_in H.
    injection H as <-. simpl. eexists. split; [|eassumption]. reflexivity.
Qed.

Lemma declare_duplicate M sym st :
  registry_sorted (v_head st) ->
  istype sym set = false ->
  registered (symname sym) (v_head st) ->
  is_ok (PYTHON_declare M sym st) = false.
Proof.
  intros Hs Hset Hreg.
  destruct (PYTHON_declare M sym st) as [st'|m] eqn:E; [|reflexivity].
  destruct (declare_inv _ _ _ _ E) as [[Hset' _]|(_ & nv & Hn & Hins)];
    [congruence|].
  rewrite <- Hn in Hreg.
  rewrite (insert_variable_duplicate nv (v_head st) Hs Hreg) in Hins.
  discriminate.
Qed.

Lemma declare_sorted M sym st st' :
  registry_sorted (v_head st) ->
  PYTHON_declare M sym st = Ok st' ->
  registry_sorted (v_head st').
Proof.
  intros Hs E.
  destruct (declare_inv _ _ _ _ E) as [[_ ->]|(_ & nv & Hn & Hins)];
    [exact Hs|].
  eapply insert_variable_sorted; eauto.
Qed.

Lemma strcasecmp_refl a : strcasecmp a a = 0%Z.
Proof.
  induction a as [|c a IH]; simpl; [reflexivity|].
  rewrite Nat.eqb_refl. now destruct (tolower c =? 0)%nat.
Qed.

(** What a successful declaration leaves registered. *)
Lemma declare_registered M sym st st' :
  PYTHON_declare M sym st = Ok st' ->
  (forall name, registered name (v_head st) -> registered name (v_head st'))
  /\ (istype sym set = false -> registered (symname sym) (v_head st')).
Proof.
  intros E.
  destruct (declare_inv _ _ _ _ E) as [[Hset ->]|(Hset & nv & Hn & Hins)].
  - split; [auto | congruence].
  - destruct (insert_variable_split _ _ _ Hins)
      as (pre & post & Hh & Hl & _ & _).
    rewrite Hh, Hl. split.
    + intros name (v & Hin & Hv). exists v. split; [|exact Hv].
      apply in_app_iff in Hin. apply in_app_iff. simpl. tauto.
    + intros _. exists nv. split.
      * apply in_app_iff. simpl. tauto.
      * rewrite Hn. apply same_name_iff, strcasecmp_refl.
Qed.

Lemma declare_each_app M xs ys st :
  declare_each M (xs ++ ys) st
  = match declare_each M xs st with
    | Ok st' => declare_each M ys st'
    | Fatal m => Fatal m
    end.
Proof.
  revert st; induction xs as [|x xs IH]; intros st; simpl; [reflexivity|].
  destruct (PYTHON_declare M x st); [apply IH | reflexivity].
Qed.

Lemma declare_each_keeps M syms st st' :
  registry_sorted (v_head st) ->
  declare_each M syms st = Ok st' ->
  registry_sorted (v_head st')
  /\ (forall name, registered name (v_head st) -> registered name (v_head st')).
Proof.
  revert st; induction syms as [|sym syms IH]; intros st Hs; simpl.
  - intros [= <-]. auto.
  - destruct (PYTHON_declare M sym st) as [st1|m] eqn:E; [|discriminate].
    intros H.
    destruct (IH st1 (declare_sorted _ _ _ _ Hs E) H) as [Hs' Hk].
    split; [exact Hs'|]. intros name Hr. apply Hk.
    now apply (declare_registered _ _ _ _ E).
Qed.

Lemma declare_each_duplicate M syms st :
  registry_sorted (v_head st) ->
  has_duplicate syms ->
  is_ok (declare_each M syms st) = false.
Proof.
  intros Hs (pre & s1 & mid & s2 & post & -> & H1 & H2 & Hsame).
  rewrite declare_each_app.
  destruct (declare_each M pre st) as [st1|m] eqn:E1; [|reflexivity].
  destruct (declare_each_keeps _ _ _ _ Hs E1) as [Hs1 _].
  simpl.
  destruct (PYTHON_declare M s1 st1) as [st2|m] eqn:E2; [|reflexivity].
  pose proof (declare_sorted _ _ _ _ Hs1 E2) as Hs2.
  pose proof (proj2 (declare_registered _ _ _ _ E2) H1) as Hr2.
  rewrite declare_each_app.
  destruct (declare_each M mid st2) as [st3|m] eqn:E3; [|reflexivity].
  destruct (declare_each_keeps _ _ _ _ Hs2 E3) as [Hs3 Hk3].
  simpl.
  assert (Hr3 : registered (symname s2) (v_head st3)).
  { destruct (Hk3 _ Hr2) as (v & Hin & Hv). exists v. split; [exact Hin|].
    apply same_name_iff in Hv. apply same_name_iff in Hsame.
    apply same_name_iff.
    pose proof (strcasecmp_flip (symname s1) (v_str v)) as F1.
    pose proof (strcasecmp_flip (symname s2) (symname s1)) as F2.
    pose proof (strcasecmp_flip (symname s2) (v_str v)) as F3.
    pose proof (strcasecmp_compose (symname s2) (symname s1) (v_str v)).
    pose proof (strcasecmp_compose (v_str v) (symname s1) (symname s2)).
    lia. }
  pose proof (declare_duplicate M s2 st3 Hs3 H2 Hr3) as Hd.
  now destruct (PYTHON_declare M s2 st3).
Qed.

Lemma python_thread M opts syms code st :
  thread (python_handler M opts) codegen_declare syms (code, st)
  = match declare_each M syms st with
    | Ok st' => Ok (code, st')
    | Fatal m => Fatal m
    end.
Proof.
  revert st; induction syms as [|sym syms IH]; intros st; simpl;
    [reflexivity|].
  destruct (PYTHON_declare M sym st) as [st'|m]; simpl;
    [apply IH | reflexivity].
Qed.

Lemma python_begin_file_head M opts basename s s0 :
  @python_handler M opts unit (codegen_begin_file basename) s = Ok (tt, s0) ->
  v_head (snd s0) = v_head (snd s).
Proof.
  simpl. unfold unit_result, PYTHON_begin_file, rbind.
  destruct (open_files M (side_files basename)); [|discriminate].
  now intros [= <-].
Qed.

(** With two symbols of the same name the run of the backend ends while
    it declares: the log is an initial part of the prelude. *)
Lemma python_run_duplicate M opts basename :
  has_duplicate (symbols M set ++ symbols M par ++ symbols M var) ->
  let r := python_run M opts basename in
  is_ok (snd r) = false
  /\ (exists todo, prelude M basename = fst r ++ todo)
  /\ Forall (fun e => is_equation_call e = false) (fst r).
Proof.
  intros Hdup. unfold python_run, PYTHON_write_file, Default_write_file.
  destruct (run_prelude_cases (python_handler M opts) opts M
              (for_each (eqns M)
                 (fun eq => if hasundec eq || negb (istimeok eq) then Ret tt
                            else write_block opts M eq) ;;
               call codegen_end_file ;; call fclose_code ;;
               call fclose_info)%prog basename (EmptyString, initial_state))
    as [(done & todo & m & Hp & Hr)|(st0 & st3 & Hb & Ht & _)];
    cbn zeta in *.
  - rewrite Hr. simpl. split; [reflexivity|]. split; [now exists todo|].
    pose proof (prelude_no_equation_call M basename) as Hpre.
    rewrite Hp in Hpre. now apply Forall_app in Hpre.
  - exfalso. destruct st0 as [code0 py0].
    rewrite python_thread in Ht.
    assert (Hs : registry_sorted (v_head py0)).
    { apply python_begin_file_head in Hb. simpl in Hb. rewrite Hb.
      constructor. }
    pose proof (declare_each_duplicate M _ py0 Hs Hdup) as Hd.
    destruct (declare_each M _ py0); discriminate.
Qed.

(** C7.  A declaration that succeeds on a registry with strictly
    increasing names (compared without case) leaves such a registry, in
    which no two names are equal without case.  Declaring a parameter or
    variable whose name equals a registered name without case ends the
    run.  In a run of the backend on a model with two such symbols the
    end comes while the symbols are declared: the log is an initial part
    of the prelude and holds no call for an equation. *)
Theorem C7_registry_sorted_unique
        (M : Model) (sym : Symbol) (st : PyState) :
  registry_sorted (v_head st) ->
  (forall st', PYTHON_declare M sym st = Ok st' ->
               registry_sorted (v_head st') /\ names_unique (v_head st'))
  /\ (istype sym set = false ->
      registered (symname sym) (v_head st) ->
      is_ok (PYTHON_declare M sym st) = false)
  /\ (forall opts basename,
         has_duplicate (symbols M set ++ symbols M par ++ symbols M var) ->
         let r := python_run M opts basename in
         is_ok (snd r) = false
         /\ (exists todo, prelude M basename = fst r ++ todo)
         /\ Forall (fun e => is_equation_call e = false) (fst r)).
Proof.
  intros Hs. split; [|split].
  - intros st' E. pose proof (declare_sorted _ _ _ _ Hs E) as Hs'.
    split; [exact Hs' | now apply sorted_unique].
  - now apply declare_duplicate.
  - intros opts basename. apply python_run_duplicate.
Qed.

(** Declaring [X] when [x] is registered ends the run. *)
Lemma C7_registry_sorted_unique_witness :
  is_ok (PYTHON_declare twice_model (endo "X") (state_with [x_end])) = false.
Proof.
  refine (proj1 (proj2 (C7_registry_sorted_unique twice_model (endo "X")
                          (state_with [x_end]) _)) eq_refl _).
  - repeat constructor.
  - exists x_end. split; [now left | reflexivity].
Defined.

(** The model that declares [gdp] and [GDP] ends after two declarations. *)
Example duplicate_ends_in_declarations :
  python_run twice_model python_opts "m"
  = ([Ev (codegen_begin_file "m"); Ev (codegen_declare (endo "gdp"));
      Ev (codegen_declare (endo "GDP"))],
     Fatal duplicate_message).
Proof. reflexivity. Qed.

(** ** Reconciliation at the end of a run (section 4.4) *)






Section EndFileFacts.

Variable M : Model.
Variable opts : Options.








End EndFileFacts.




(** *** The driver up to [end_file] *)

Section SplitFacts.

Context {St : Type} (h : forall X, Cmd X -> St -> Res (X * St)).





End SplitFacts.


(** *** What [PYTHON_end_file] writes *)

Lemma count_char_app c a b :
  count_char c (a ++ b) = count_char c a + count_char c b.
Proof. induction a as [|d a IH]; simpl; [reflexivity|]. rewrite IH. lia. Qed.






Section ReportFacts.

Variable M : Model.




End ReportFacts.




(** What that run leaves on [info]. *)
Example short_report :
  info (snd (fst (end_file_outcome short_model (EmptyString, short_state))))
  = concat [nl; "Length of MSGPROC Vectors:"; nl; nl;
            "   z1l has 3 elements"; nl; "   zel has 0 elements"; nl;
            "   j1l has 0 elements"; nl; "   x1l has 0 elements"; nl;
            "   exo has 0 elements"; nl; "   par has 0 elements"; nl; nl;
            "Equation Count: 2"; nl;
            "Endogenous Variables, Used:   3"; nl;
            "Endogenous Variables, Total:  3"; nl; nl;
            "Fatal Error:"; nl;
            "   Counts of equations and endogenous variables do not match.";
            nl].
Proof. reflexivity. Qed.

(** ** The allocator in a declaration *)

(** The type found for a symbol is a row of the table searched. *)
Lemma find_type_row M sym rows i found vi vi' :
  find_type M sym rows i found vi = Ok (true, vi') ->
  (found = true /\ vi' = vi) \/ (i <= vi' < i + List.length rows)%nat.
Proof.
  revert i found vi; induction rows as [|row rows IH]; intros i found vi;
    simpl.
  - intros [= -> ->]. now left.
  - destruct (String.length (vt_type row) =? 0)%nat; [discriminate|].
    destruct (istype sym par && String.eqb (vt_type row) "par").
    { intros [= <-]. right. lia. }
    destruct (istype sym var && ismember M (vt_type row) (symattrib sym)).
    + destruct found; [discriminate|]. intros H.
      destruct (IH _ _ _ H) as [[_ ->]|Hr]; right; lia.
    + intros H. destruct (IH _ _ _ H) as [Hl|Hr]; [now left | right; lia].
Qed.






(** ** Looking up what was declared *)

Lemma strcasecmp_eq_trans a b c :
  strcasecmp a b = 0%Z -> strcasecmp a c = 0%Z -> strcasecmp b c = 0%Z.
Proof.
  intros H1 H2.
  pose proof (strcasecmp_flip a b) as F1.
  pose proof (strcasecmp_flip a c) as F2.
  pose proof (strcasecmp_flip b c) as F3.
  pose proof (strcasecmp_compose b a c) as C1.
  pose proof (strcasecmp_compose c a b) as C2.
  lia.
Qed.

(** The search loop on a sorted registry: it stops on the entry of that
    name, and where it gives up no entry has that name. *)
Lemma find_variable_sorted name head :
  registry_sorted head ->
  match find_variable name head with
  | Ok v => In v head /\ same_name name (v_str v) = true
  | Fatal m => m = not_in_list /\ ~ registered name head
  end.
Proof.
  induction 1 as [|u head Hs IH Hf]; simpl.
  - split; [reflexivity|]. intros (v & [] & _).
  - destruct (Z.eqb_spec (strcasecmp name (v_str u)) 0) as [E|E].
    + split; [now left|]. now apply same_name_iff.
    + destruct (Z.ltb_spec (strcasecmp name (v_str u)) 0) as [L|L].
      * split; [reflexivity|].
        intros (v & [<-|Hin] & Hv); apply same_name_iff in Hv;
          [contradiction|].
        rewrite Forall_forall in Hf. specialize (Hf v Hin).
        unfold name_lt in Hf.
        pose proof (strcasecmp_lt_trans _ _ _ L Hf). lia.
      * destruct (find_variable name head) as [v|m].
        -- destruct IH as [Hin Hv]. split; [now right | exact Hv].
        -- destruct IH as [-> Hn]. split; [reflexivity|].
           intros (v & [<-|Hin] & Hv).
           ++ apply same_name_iff in Hv. contradiction.
           ++ apply Hn. now exists v.
Qed.

Lemma sorted_same_name head u v :
  registry_sorted head -> In u head -> In v head ->
  same_name (v_str u) (v_str v) = true -> u = v.
Proof.
  induction 1 as [|w head Hs IH Hf]; simpl; [contradiction|].
  rewrite Forall_forall in Hf.
  intros [Hu|Hu] [Hv|Hv] E; try congruence; auto;
    apply same_name_iff in E; exfalso.
  - subst w. specialize (Hf v Hv). unfold name_lt in Hf. lia.
  - subst w. specialize (Hf u Hu). unfold name_lt in Hf.
    rewrite strcasecmp_flip in Hf. lia.
Qed.

(** What [get_msgname] does once the search loop has found the entry. *)
Lemma get_msgname_found M head name v sublist ctx :
  find_variable name head = Ok v ->
  get_msgname M head name sublist ctx
  = reference M name (v_type v) (v_vecid v) (v_vecoff v) sublist ctx.
Proof.
  intros H. unfold get_msgname, reference.
  destruct head as [|v0 head0]; [discriminate|]. rewrite H. simpl.
  destruct (ctx_dt ctx <? -1)%Z; [reflexivity|].
  destruct (ctx_dt ctx >? 1)%Z; reflexivity.
Qed.

(** A declaration that succeeds links one new entry into the registry:
    the entry carries the symbol's name, the row of its type, and the
    offsets the allocator returned for the symbol's element count. *)
Lemma declare_shape M sym st st' :
  PYTHON_declare M sym st = Ok st' ->
  istype sym set = false ->
  exists row offs newvar pre post,
    In row vlist
    /\ (1 <= symsize sym)%Z
    /\ reserve_all (symsize sym) (vt_vecid row) sync_init (vecinfo st)
       = Ok (offs, vecinfo st')
    /\ v_head st = pre ++ post
    /\ v_head st' = pre ++ newvar :: post
    /\ v_str newvar = symname sym
    /\ v_type newvar = vt_type row
    /\ v_vecid newvar = vt_vecid row
    /\ v_vecoff newvar = offs.
Proof.
  unfold PYTHON_declare, rbind, msg_error. intros H Hset. rewrite Hset in H.
  destruct (negb (isident sym)); [discriminate|].
  destruct (Z.ltb_spec (symsize sym) 1) as [Hc|Hc]; [discriminate|].
  destruct (if istype sym par || istype sym var
            then setup_pythonname M (symname sym) (symvalue sym)
            else Ok (mkNameform o_unk 0 0 0 0 0 0)) as [nf|]; [|discriminate].
  destruct (find_type M sym vlist 0 false 0) as [[found vi]|] eqn:Ef;
    [|discriminate].
  assert (Hfound : found = true).
  { destruct found; [reflexivity|]. exfalso.
    unfold istype in *. destruct (symtype sym); simpl in *; discriminate. }
  subst found.
  destruct (find_type_row _ _ _ _ _ _ _ Ef) as [[Hf _]|Hr]; [discriminate|].
  rewrite !andb_false_r in H.
  set (row := nth vi vlist (mkVartype "" [])) in *.
  destruct (if istype sym var
            then match find_unit M (symattrib sym) units with
                 | Some u => Ok u
                 | None => _
                 end
            else Ok "") as [unit|]; [|discriminate].
  destruct (reserve_all (symsize sym) (vt_vecid row) sync_init (vecinfo st))
    as [[offs vi']|] eqn:Er; [|discriminate].
  destruct (if istype sym var then _ else Ok (0%Z, MSGPROC_vars st))
    as [[first vars']|]; [|discriminate].
  match type of H with
  | match insert_variable ?nv _ with _ => _ end = _ =>
      set (newvar := nv) in *
  end.
  destruct (insert_variable newvar (v_head st)) as [head'|] eqn:Ei;
    [|discriminate].
  destruct (write_varmap M head' newvar (symvalue sym)); [|discriminate].
  injection H as <-.
  destruct (insert_variable_split _ _ _ Ei) as (pre & post & Hh & Hl & _).
  exists row, offs, newvar, pre, post.
  split; [unfold row; apply nth_In; simpl in Hr; exact (proj2 Hr)|].
  split; [exact Hc|].
  split; [exact Er|].
  split; [exact Hh|].
  split; [exact Hl|].
  repeat split.
Qed.

(** The entry a sorted registry holds under a name is the one found. *)
Lemma find_variable_entry head v :
  registry_sorted head -> In v head ->
  find_variable (v_str v) head = Ok v.
Proof.
  intros Hs Hin.
  pose proof (find_variable_sorted (v_str v) head Hs) as Hf.
  destruct (find_variable (v_str v) head) as [w|m].
  - destruct Hf as [Hw Hn]. f_equal. symmetry.
    now apply (sorted_same_name head v w Hs Hin Hw).
  - destruct Hf as [_ Hn]. exfalso. apply Hn. exists v.
    split; [exact Hin|]. apply same_name_iff, strcasecmp_refl.
Qed.

(** X1.  In a registry with increasing names the search loop of [get_msgname]
    finds every registered name, whatever its case, and returns an entry
    of the registry with that name; for a name that is not registered it
    ends the run with the message of the missing name.  The early exit
    of the loop, taken on the first entry whose name is greater, never
    misses an entry. *)
Theorem X1_lookup_finds_registered (head : list variable) (name : string) :
  registry_sorted head ->
  (registered name head ->
   exists v, find_variable name head = Ok v
             /\ In v head /\ same_name name (v_str v) = true)
  /\ (~ registered name head -> find_variable name head = Fatal not_in_list).
Proof.
  intros Hs. pose proof (find_variable_sorted name head Hs) as Hf.
  destruct (find_variable name head) as [v|m].
  - destruct Hf as [Hin Hv]. split.
    + intros _. now exists v.
    + intros Hn. exfalso. apply Hn. now exists v.
  - destruct Hf as [-> Hn]. split; [|reflexivity].
    intros Hr. contradiction.
Qed.

(** [X] is found in the registry that holds [x]. *)
Lemma X1_lookup_finds_registered_witness :
  exists v, find_variable "X" [x_end] = Ok v
            /\ In v [x_end] /\ same_name "X" (v_str v) = true.
Proof.
  refine (proj1 (X1_lookup_finds_registered [x_end] "X" _) _).
  - repeat constructor.
  - exists x_end. split; [now left | reflexivity].
Defined.

(** The loop over [vlist] on a variable and on a parameter. *)
Lemma find_type_tagged M sym :
  (istype sym var = true ->
   find_type M sym vlist 0 false 0
   = match tagged_rows M (symattrib sym) vlist 0 with
     | [] => Ok (false, 0%nat)
     | [i] => Ok (true, i)
     | _ => msg_error "Multiple variable types for variable: " (symname sym)
     end)
  /\ (istype sym par = true ->
      find_type M sym vlist 0 false 0 = Ok (true, 6%nat)).
Proof.
  split; intros H.
  - assert (Hp : istype sym par = false)
      by (unfold istype in *; destruct (symtype sym); try discriminate;
          reflexivity).
    simpl. rewrite H, Hp. simpl.
    destruct (ismember M "end" (symattrib sym));
      destruct (ismember M "ets" (symattrib sym));
      destruct (ismember M "exo" (symattrib sym));
      destruct (ismember M "cos" (symattrib sym));
      destruct (ismember M "sta" (symattrib sym));
      destruct (ismember M "stl" (symattrib sym));
      destruct (ismember M "par" (symattrib sym)); reflexivity.
  - assert (Hv : istype sym var = false)
      by (unfold istype in *; destruct (symtype sym); try discriminate;
          reflexivity).
    simpl. rewrite H, Hv. reflexivity.
Qed.

(** The row a declaration uses is the row the loop over [vlist] finds
    for the symbol. *)
Lemma declare_shape_typed M sym st st' :
  PYTHON_declare M sym st = Ok st' ->
  istype sym set = false ->
  exists vi offs newvar pre post,
    find_type M sym vlist 0 false 0 = Ok (true, vi)
    /\ (vi < List.length vlist)%nat
    /\ reserve_all (symsize sym)
                   (vt_vecid (nth vi vlist (mkVartype "" []))) sync_init
                   (vecinfo st)
       = Ok (offs, vecinfo st')
    /\ v_head st = pre ++ post
    /\ v_head st' = pre ++ newvar :: post
    /\ v_str newvar = symname sym
    /\ v_type newvar = vt_type (nth vi vlist (mkVartype "" []))
    /\ v_vecid newvar = vt_vecid (nth vi vlist (mkVartype "" []))
    /\ v_vecoff newvar = offs.
Proof.
  unfold PYTHON_declare, rbind, msg_error. intros H Hset. rewrite Hset in H.
  destruct (negb (isident sym)); [discriminate|].
  destruct (Z.ltb_spec (symsize sym) 1) as [Hc|Hc]; [discriminate|].
  destruct (if istype sym par || istype sym var
            then setup_pythonname M (symname sym) (symvalue sym)
            else Ok (mkNameform o_unk 0 0 0 0 0 0)) as [nf|]; [|discriminate].
  destruct (find_type M sym vlist 0 false 0) as [[found vi]|] eqn:Ef;
    [|discriminate].
  assert (Hfound : found = true).
  { destruct found; [reflexivity|]. exfalso.
    unfold istype in *. destruct (symtype sym); simpl in *; discriminate. }
  subst found.
  destruct (find_type_row _ _ _ _ _ _ _ Ef) as [[Hf _]|Hr]; [discriminate|].
  rewrite !andb_false_r in H.
  set (row := nth vi vlist (mkVartype "" [])) in *.
  destruct (if istype sym var
            then match find_unit M (symattrib sym) units with
                 | Some u => Ok u
                 | None => _
                 end
            else Ok "") as [unit|]; [|discriminate].
  destruct (reserve_all (symsize sym) (vt_vecid row) sync_init (vecinfo st))
    as [[offs vi']|] eqn:Er; [|discriminate].
  destruct (if istype sym var then _ else Ok (0%Z, MSGPROC_vars st))
    as [[first vars']|]; [|discriminate].
  match type of H with
  | match insert_variable ?nv _ with _ => _ end = _ =>
      set (newvar := nv) in *
  end.
  destruct (insert_variable newvar (v_head st)) as [head'|] eqn:Ei;
    [|discriminate].
  destruct (write_varmap M head' newvar (symvalue sym)); [|discriminate].
  injection H as <-.
  destruct (insert_variable_split _ _ _ Ei) as (pre & post & Hh & Hl & _).
  exists vi, offs, newvar, pre, post.
  split; [reflexivity|].
  split; [simpl in Hr; exact (proj2 Hr)|].
  split; [exact Er|].
  split; [exact Hh|].
  split; [exact Hl|].
  repeat split.
Qed.

(** X2.  A symbol that has been declared can be referenced: [get_msgname] on
    its name answers from the row of its type and the offsets reserved by
    the declaration.  The row is the one the loop over [vlist] finds for
    the symbol: for a variable the only row whose tag is among the
    symbol's attributes, for a parameter the row [par].  The reference is
    fatal for a shift outside -1..1 and for a context whose slot of the
    row is 0; in every other context it is the name of the slot's vector
    with the subscripts computed from the offset of that slot. *)
Theorem X2_declared_variable_reference
        (M : Model) (sym : Symbol) (st st' : PyState) :
  registry_sorted (v_head st) ->
  PYTHON_declare M sym st = Ok st' ->
  istype sym set = false ->
  exists vi offs,
    let row := nth vi vlist (mkVartype "" []) in
    find_type M sym vlist 0 false 0 = Ok (true, vi)
    /\ In row vlist
    /\ (istype sym var = true ->
        tagged_rows M (symattrib sym) vlist 0 = [vi]
        /\ ismember M (vt_type row) (symattrib sym) = true)
    /\ (istype sym par = true -> vt_type row = "par")
    /\ reserve_all (symsize sym) (vt_vecid row) sync_init (vecinfo st)
       = Ok (offs, vecinfo st')
    /\ forall sublist ctx,
        get_msgname M (v_head st') (symname sym) sublist ctx
        = reference M (symname sym) (vt_type row) (vt_vecid row) offs
                    sublist ctx.
Proof.
  intros Hs E Hset.
  pose proof (declare_sorted M sym st st' Hs E) as Hs'.
  destruct (declare_shape_typed M sym st st' E Hset)
    as (vi & offs & nv & pre & post & Hf & Hvi & Hr & _ & Hh' & Hn & Ht
        & Hv & Ho).
  exists vi, offs. cbn zeta.
  split; [exact Hf|].
  split; [now apply nth_In|].
  split; [|split; [|split; [exact Hr|]]].
  - intros Hvar. rewrite (proj1 (find_type_tagged M sym) Hvar) in Hf.
    assert (Ht1 : tagged_rows M (symattrib sym) vlist 0 = [vi]).
    { destruct (tagged_rows M (symattrib sym) vlist 0) as [|i [|i' l]];
        try discriminate. now injection Hf as <-. }
    split; [exact Ht1|].
    revert Ht1. simpl.
    destruct (ismember M "end" (symattrib sym)) eqn:E0;
      destruct (ismember M "ets" (symattrib sym)) eqn:E1;
      destruct (ismember M "exo" (symattrib sym)) eqn:E2;
      destruct (ismember M "cos" (symattrib sym)) eqn:E3;
      destruct (ismember M "sta" (symattrib sym)) eqn:E4;
      destruct (ismember M "stl" (symattrib sym)) eqn:E5;
      destruct (ismember M "par" (symattrib sym)) eqn:E6;
      intros [= <-]; assumption.
  - intros Hpar. rewrite (proj2 (find_type_tagged M sym) Hpar) in Hf.
    now injection Hf as <-.
  - intros sublist ctx.
    assert (Hin : In nv (v_head st')).
    { rewrite Hh'. apply in_app_iff. simpl. tauto. }
    pose proof (find_variable_entry (v_head st') nv Hs' Hin) as Hfv.
    rewrite Hn in Hfv.
    rewrite (get_msgname_found M _ _ nv sublist ctx Hfv).
    now rewrite Ht, Hv, Ho.
Qed.

(** [x] of type [end], declared first, is referenced from row 0. *)
Lemma X2_declared_variable_reference_witness :
  exists vi offs,
    let row := nth vi vlist (mkVartype "" []) in
    find_type balanced_model (endo "x") vlist 0 false 0 = Ok (true, vi)
    /\ In row vlist
    /\ (istype (endo "x") var = true ->
        tagged_rows balanced_model (symattrib (endo "x")) vlist 0 = [vi]
        /\ ismember balanced_model (vt_type row) (symattrib (endo "x"))
           = true)
    /\ (istype (endo "x") par = true -> vt_type row = "par")
    /\ reserve_all (symsize (endo "x")) (vt_vecid row) sync_init
                   (vecinfo initial_state)
       = Ok (offs, vecinfo x_declared)
    /\ forall sublist ctx,
        get_msgname balanced_model (v_head x_declared) (symname (endo "x"))
                    sublist ctx
        = reference balanced_model (symname (endo "x")) (vt_type row)
                    (vt_vecid row) offs sublist ctx.
Proof.
  exact (X2_declared_variable_reference balanced_model (endo "x")
           initial_state x_declared (SSorted_nil _) eq_refl eq_refl).
Defined.

(** X3.  A declaration does not change how the names registered before it
    are referenced: for every such name, subscript list and context
    [get_msgname] answers as before. *)
Theorem X3_declaration_keeps_references
        (M : Model) (sym : Symbol) (st st' : PyState) (name : string)
        (sublist : list string) (ctx : Context) :
  registry_sorted (v_head st) ->
  PYTHON_declare M sym st = Ok st' ->
  registered name (v_head st) ->
  get_msgname M (v_head st') name sublist ctx
  = get_msgname M (v_head st) name sublist ctx.
Proof.
  intros Hs E Hreg.
  pose proof (declare_sorted M sym st st' Hs E) as Hs'.
  destruct (declare_inv M sym st st' E) as [[_ ->]|(Hset & _)];
    [reflexivity|].
  destruct (declare_shape M sym st st' E Hset)
    as (row & offs & nv & pre & post & _ & _ & _ & Hh & Hh' & _).
  pose proof (find_variable_sorted name (v_head st) Hs) as Hf.
  pose proof (find_variable_sorted name (v_head st') Hs') as Hf'.
  destruct (find_variable name (v_head st)) as [v|m] eqn:Ev.
  2: { destruct Hf as [_ Hn]. contradiction. }
  destruct Hf as [Hin Hv].
  assert (Hin' : In v (v_head st')).
  { rewrite Hh'. rewrite Hh in Hin. apply in_app_iff in Hin.
    apply in_app_iff. simpl. tauto. }
  destruct (find_variable name (v_head st')) as [v'|m'] eqn:Ev'.
  2: { destruct Hf' as [_ Hn]. exfalso. apply Hn. now exists v. }
  destruct Hf' as [Hw Hv'].
  assert (v = v').
  { apply (sorted_same_name (v_head st') v v' Hs' Hin' Hw).
    apply same_name_iff in Hv, Hv'. apply same_name_iff.
    exact (strcasecmp_eq_trans _ _ _ Hv Hv'). }
  subst v'.
  now rewrite (get_msgname_found M _ _ v sublist ctx Ev'),
    (get_msgname_found M _ _ v sublist ctx Ev).
Qed.

(** Declaring [y] leaves the reference to [x] as it was. *)
Lemma X3_declaration_keeps_references_witness :
  exists st',
    PYTHON_declare balanced_model (endo "y") (state_with [x_end]) = Ok st'
    /\ get_msgname balanced_model (v_head st') "x" []
                   (mkContext false 0 None)
       = get_msgname balanced_model [x_end] "x" [] (mkContext false 0 None).
Proof.
  eexists. split; [reflexivity|].
  refine (X3_declaration_keeps_references balanced_model (endo "y")
            (state_with [x_end]) _ "x" [] (mkContext false 0 None)
            _ eq_refl _).
  - repeat constructor.
  - exists x_end. split; [now left | reflexivity].
Defined.

(** ** The map of a variable, [write_varmap] *)







(** ** Offsets never collide *)

Lemma lengths_ok_get vi i : lengths_ok vi -> (0 <= vec_get vi i)%Z.
Proof.
  intros [_ Hpos]. unfold vec_get. revert i.
  induction Hpos as [|x vi Hx Hpos IH]; intros [|i]; simpl; auto; lia.
Qed.

(** The loop over the six contexts on a row of [vlist]: each context
    starts at the running length of the vector it is taken from, and
    that length moves on by the element count. *)
Lemma reserve_all_vlist row count vi :
  In row vlist -> lengths_ok vi -> (1 <= count)%Z ->
  exists offs vi',
    reserve_all count (vt_vecid row) sync_init vi = Ok (offs, vi')
    /\ lengths_ok vi'
    /\ (forall i, (vec_get vi i <= vec_get vi' i)%Z)
    /\ (forall j, nth j (vt_vecid row) 0%nat <> 0%nat ->
          nth j offs 0%Z = vec_get vi (base_of (nth j (vt_vecid row) 0%nat))
          /\ vec_get vi' (base_of (nth j (vt_vecid row) 0%nat))
             = (vec_get vi (base_of (nth j (vt_vecid row) 0%nat)) + count)%Z).
Proof.
  intros Hrow Hok Hc.
  destruct (lengths_ok_inv vi Hok)
    as (a0 & a1 & a2 & a3 & a4 & a5 & a6 & a7 & a8 & a9 & a10 & a11 & a12
        & a13 & -> & Hpos).
  simpl in Hrow.
  destruct Hrow as [<-|[<-|[<-|[<-|[<-|[<-|[<-|[]]]]]]]];
    simpl; unfold reserve; simpl; unfold vec_get; simpl;
    repeat (progress (decide_started; simpl));
    (do 2 eexists; split; [reflexivity|]);
    (split; [split; [reflexivity | repeat constructor; lia]|]);
    (split;
     [intros i; do 14 (destruct i as [|i]; [simpl; lia|]);
      destruct i; simpl; lia
     |intros j Hj;
      do 6 (destruct j as [|j];
            [simpl in Hj; try (exfalso; apply Hj; reflexivity);
             split; reflexivity|]);
      exfalso; apply Hj; destruct j; reflexivity]).
Qed.

Lemma alloc_inv_start : alloc_inv (state_with []).
Proof.
  split.
  - split; [reflexivity | repeat constructor; lia].
  - intros v j [].
  - intros u v j k [].
Qed.

(** A declaration that succeeds keeps the offsets inside their vectors
    and apart from each other. *)
Lemma declare_alloc_inv M sym st st' :
  alloc_inv st -> PYTHON_declare M sym st = Ok st' -> alloc_inv st'.
Proof.
  intros [Hlen Hb Ha] E.
  destruct (declare_inv M sym st st' E) as [[_ ->]|(Hset & _)];
    [now split|].
  destruct (declare_shape M sym st st' E Hset)
    as (row & offs & nv & pre & post & Hrow & Hc & Hr & Hh & Hh' & Hn & _
        & Hv & Ho).
  destruct (reserve_all_vlist row (symsize sym) (vecinfo st) Hrow Hlen Hc)
    as (offs0 & vi0 & Hr0 & Hlen' & Hmono & Hnew).
  rewrite Hr in Hr0. injection Hr0 as <- <-.
  assert (Hold : forall v, In v (v_head st') -> v = nv \/ In v (v_head st)).
  { intros v. rewrite Hh', Hh, !in_app_iff. simpl. intuition auto. }
  assert (Hnv : forall j, slot_vec nv j <> 0%nat ->
            slot_off nv j = vec_get (vecinfo st) (base_of (slot_vec nv j))
            /\ vec_get (vecinfo st') (base_of (slot_vec nv j))
               = (vec_get (vecinfo st) (base_of (slot_vec nv j))
                  + symsize sym)%Z).
  { intros j. unfold slot_vec, slot_off. rewrite Hv, Ho. apply Hnew. }
  split.
  - exact Hlen'.
  - intros v j Hin Hj. destruct (Hold v Hin) as [->|Hin0].
    + destruct (Hnv j Hj) as [-> ->].
      pose proof (lengths_ok_get (vecinfo st) (base_of (slot_vec nv j)) Hlen).
      lia.
    + specialize (Hb v j Hin0 Hj).
      specialize (Hmono (base_of (slot_vec v j))). lia.
  - intros u v j k Hu Hvin Hne Hj Hk Hbase.
    destruct (Hold u Hu) as [->|Hu0]; destruct (Hold v Hvin) as [->|Hv0].
    + unfold same_name in Hne. rewrite strcasecmp_refl in Hne. discriminate.
    + destruct (Hnv j Hj) as [-> _]. specialize (Hb v k Hv0 Hk).
      rewrite Hbase. lia.
    + destruct (Hnv k Hk) as [-> _]. specialize (Hb u j Hu0 Hj).
      rewrite <- Hbase. lia.
    + now apply Ha.
Qed.

(** *** The lengths as [int] *)

Lemma int_wrap_small z :
  (-2147483648 <= z <= INT_MAX)%Z -> int_wrap z = z.
Proof.
  unfold int_wrap, INT_MAX. intros H.
  rewrite Z.mod_small by lia. lia.
Qed.

(** With room for the element count, the loop over the six contexts
    makes no addition that wraps. *)
Lemma reserve_all_int_vlist row count vi :
  In row vlist -> lengths_ok vi -> (1 <= count)%Z ->
  Forall (fun x => (x + count <= INT_MAX)%Z) vi ->
  reserve_all_int count (vt_vecid row) sync_init vi
  = reserve_all count (vt_vecid row) sync_init vi.
Proof.
  intros Hrow Hok Hc Hroom.
  destruct (lengths_ok_inv vi Hok)
    as (a0 & a1 & a2 & a3 & a4 & a5 & a6 & a7 & a8 & a9 & a10 & a11 & a12
        & a13 & -> & Hpos).
  repeat match goal with
         | H : Forall _ (_ :: _) |- _ => inversion H; clear H; subst
         end.
  unfold INT_MAX in *. simpl in Hrow.
  destruct Hrow as [<-|[<-|[<-|[<-|[<-|[<-|[<-|[]]]]]]]];
    simpl; unfold reserve, reserve_int; simpl; unfold vec_get; simpl;
    rewrite ?int_wrap_small by (unfold INT_MAX; lia); reflexivity.
Qed.

(** The loop raises no length by more than the element count. *)
Lemma reserve_all_vlist_bound row count vi offs vi' :
  In row vlist -> lengths_ok vi -> (1 <= count)%Z ->
  reserve_all count (vt_vecid row) sync_init vi = Ok (offs, vi') ->
  Forall2 (fun x y => (y <= x + count)%Z) vi vi'.
Proof.
  intros Hrow Hok Hc.
  destruct (lengths_ok_inv vi Hok)
    as (a0 & a1 & a2 & a3 & a4 & a5 & a6 & a7 & a8 & a9 & a10 & a11 & a12
        & a13 & -> & Hpos).
  simpl in Hrow.
  destruct Hrow as [<-|[<-|[<-|[<-|[<-|[<-|[<-|[]]]]]]]];
    simpl; unfold reserve; simpl; unfold vec_get; simpl;
    repeat (progress (decide_started; simpl));
    intros [= <- <-]; repeat constructor; lia.
Qed.

Lemma room_after count rest vi vi' :
  Forall (fun x => (x + (count + rest) <= INT_MAX)%Z) vi ->
  Forall2 (fun x y => (y <= x + count)%Z) vi vi' ->
  Forall (fun y => (y + rest <= INT_MAX)%Z) vi'.
Proof.
  intros Hroom H2. induction H2 as [|x y vi vi' Hxy _ IH]; [constructor|].
  inversion Hroom; subst. constructor; [lia | auto].
Qed.

(** With room for the element count of the symbol, the declaration is
    the same with the lengths counted in [int]. *)
Lemma declare_int_agrees M sym st :
  lengths_ok (vecinfo st) ->
  Forall (fun x => (x + symsize sym <= INT_MAX)%Z) (vecinfo st) ->
  PYTHON_declare_int M sym st = PYTHON_declare M sym st.
Proof.
  intros Hok Hroom. unfold PYTHON_declare_int, PYTHON_declare, rbind.
  destruct (istype sym set) eqn:Hset; [reflexivity|].
  destruct (negb (isident sym)); [reflexivity|].
  destruct (Z.ltb_spec (symsize sym) 1) as [Hc|Hc]; [reflexivity|].
  destruct (if istype sym par || istype sym var
            then setup_pythonname M (symname sym) (symvalue sym)
            else Ok (mkNameform o_unk 0 0 0 0 0 0)) as [nf|]; [|reflexivity].
  destruct (find_type M sym vlist 0 false 0) as [[found vi]|] eqn:Ef;
    [|reflexivity].
  destruct found.
  2: { unfold istype in *. destruct (symtype sym); simpl in *;
       try discriminate; reflexivity. }
  destruct (find_type_row _ _ _ _ _ _ _ Ef) as [[Hf _]|Hr]; [discriminate|].
  rewrite !andb_false_r.
  destruct (if istype sym var
            then match find_unit M (symattrib sym) units with
                 | Some u => Ok u
                 | None => _
                 end
            else Ok "") as [unit|]; [|reflexivity].
  rewrite (reserve_all_int_vlist (nth vi vlist (mkVartype "" []))
             (symsize sym) (vecinfo st)); auto.
  apply nth_In. simpl in Hr. exact (proj2 Hr).
Qed.

Lemma declare_int_size M sym st st' :
  PYTHON_declare_int M sym st = Ok st' ->
  (istype sym set = true /\ st' = st)
  \/ (istype sym set = false /\ (1 <= symsize sym)%Z).
Proof.
  unfold PYTHON_declare_int. intros H.
  destruct (istype sym set); [left; split; congruence|].
  right. split; [reflexivity|].
  destruct (negb (isident sym)); [discriminate|].
  destruct (Z.ltb_spec (symsize sym) 1); [discriminate | assumption].
Qed.

Lemma declare_each_int_size M syms st st' :
  declare_each_int M syms st = Ok st' -> (0 <= declared_size syms)%Z.
Proof.
  revert st; induction syms as [|sym syms IH]; intros st; simpl; [lia|].
  destruct (PYTHON_declare_int M sym st) as [st1|] eqn:E; [|discriminate].
  intros H. specialize (IH _ H).
  destruct (declare_int_size M sym st st1 E) as [[-> _]|[-> Hc]]; lia.
Qed.

(** X5.  The running lengths counted as the code counts them, in [int].
    From the empty registry and vectors of length zero, any sequence of
    declarations that succeeds and has room for its element counts (no
    running length plus the counts declared is beyond [INT_MAX]) leaves
    every offset inside the vector it was taken from, and no two
    variables of different names start at the same place of a vector: a
    context of one never shares its first element with a context of the
    other that is allocated from the same vector.  No addition has
    wrapped: the lengths are those counted without bound, and none is
    beyond [INT_MAX].  The same holds from any state in which it holds. *)
Theorem X5_declared_offsets_never_collide
        (M : Model) (syms : list Symbol) (st st' : PyState) :
  alloc_inv st ->
  room_for syms (vecinfo st) ->
  declare_each_int M syms st = Ok st' ->
  alloc_inv st'
  /\ int_lengths (vecinfo st')
  /\ declare_each M syms st = Ok st'.
Proof.
  revert st; induction syms as [|sym syms IH]; intros st Hinv Hroom; simpl.
  - intros [= <-]. split; [exact Hinv|]. split; [|reflexivity].
    unfold room_for in Hroom. simpl in Hroom.
    eapply Forall_impl; [|exact Hroom]. simpl. intros x Hx. lia.
  - destruct (PYTHON_declare_int M sym st) as [st1|m] eqn:E; [|discriminate].
    intros Hrun.
    pose proof (declare_each_int_size M syms st1 st' Hrun) as Hrest.
    unfold room_for in Hroom. simpl in Hroom.
    destruct (declare_int_size M sym st st1 E) as [[Hset ->]|[Hset Hc]];
      rewrite Hset in Hroom.
    + assert (Ez : PYTHON_declare M sym st = Ok st).
      { unfold PYTHON_declare. now rewrite Hset. }
      rewrite Ez. now apply IH.
    + rewrite declare_int_agrees in E.
      2: exact (ai_lengths Hinv).
      2: { eapply Forall_impl; [|exact Hroom]. simpl. intros x Hx. lia. }
      rewrite E.
      destruct (declare_shape M sym st st1 E Hset)
        as (row & offs & nv & pre & post & Hrow & _ & Hr & _).
      apply IH; [exact (declare_alloc_inv M sym st st1 Hinv E)| |exact Hrun].
      exact (room_after (symsize sym) (declared_size syms) (vecinfo st)
               (vecinfo st1) Hroom
               (reserve_all_vlist_bound row (symsize sym) (vecinfo st) offs
                  (vecinfo st1) Hrow (ai_lengths Hinv) Hc Hr)).
Qed.

Lemma room_for_three : room_for three_endo (vecinfo (state_with [])).
Proof. repeat constructor; vm_compute; discriminate. Qed.

(** The three endogenous scalars [x], [y] and [z]. *)
Lemma X5_declared_offsets_never_collide_witness :
  alloc_inv three_declared
  /\ int_lengths (vecinfo three_declared)
  /\ declare_each balanced_model three_endo (state_with [])
     = Ok three_declared.
Proof.
  exact (X5_declared_offsets_never_collide balanced_model three_endo
           (state_with []) three_declared alloc_inv_start room_for_three
           eq_refl).
Defined.

(** Without room the lengths wrap: two variables of [INT_MAX] elements
    leave the length -2 in [z1l], where counting without bound gives
    4294967294, and the offset of the second is not below it. *)
Example lengths_wrap_without_room :
  match declare_each_int balanced_model [huge_endo "x"; huge_endo "y"]
                         (state_with []) with
  | Ok st => vec_get (vecinfo st) Z1L = (-2)%Z
             /\ map (fun v => slot_off v 1) (v_head st) = [0; INT_MAX]%Z
  | Fatal _ => False
  end
  /\ match declare_each balanced_model [huge_endo "x"; huge_endo "y"]
                        (state_with []) with
     | Ok st => vec_get (vecinfo st) Z1L = 4294967294%Z
     | Fatal _ => False
     end.
Proof. vm_compute. repeat split. Qed.

(** ** The type of a variable, [find_type] *)

(** X6.  The loop over [vlist] for a variable: with no attribute among the
    seven type tags nothing is found, with exactly one the index of its
    row is returned, and with two or more the run ends on the second.
    For a parameter the loop returns the row [par], whatever the
    attributes are. *)
Theorem X6_variable_has_one_type (M : Model) (sym : Symbol) :
  (istype sym var = true ->
   find_type M sym vlist 0 false 0
   = match tagged_rows M (symattrib sym) vlist 0 with
     | [] => Ok (false, 0%nat)
     | [i] => Ok (true, i)
     | _ => msg_error "Multiple variable types for variable: " (symname sym)
     end)
  /\ (istype sym par = true ->
      find_type M sym vlist 0 false 0 = Ok (true, 6%nat)).
Proof.
  split; intros H.
  - assert (Hp : istype sym par = false)
      by (unfold istype in *; destruct (symtype sym); try discriminate;
          reflexivity).
    simpl. rewrite H, Hp. simpl.
    destruct (ismember M "end" (symattrib sym));
      destruct (ismember M "ets" (symattrib sym));
      destruct (ismember M "exo" (symattrib sym));
      destruct (ismember M "cos" (symattrib sym));
      destruct (ismember M "sta" (symattrib sym));
      destruct (ismember M "stl" (symattrib sym));
      destruct (ismember M "par" (symattrib sym)); reflexivity.
  - assert (Hv : istype sym var = false)
      by (unfold istype in *; destruct (symtype sym); try discriminate;
          reflexivity).
    simpl. rewrite H, Hv. reflexivity.
Qed.

(** A variable tagged [end] and [exo] is rejected. *)
Lemma X6_variable_has_one_type_witness :
  find_type balanced_model two_types vlist 0 false 0
  = msg_error "Multiple variable types for variable: " "w".
Proof.
  exact (proj1 (X6_variable_has_one_type balanced_model two_types) eq_refl).
Defined.

(** ** The lines the wrapper writes *)

Lemma lines_within_le B cur cur' s :
  cur' <= cur -> lines_within B cur s = true -> lines_within B cur' s = true.
Proof.
  revert cur cur'; induction s as [|c s IH]; intros cur cur' Hle;
    cbn [lines_within]; [reflexivity|].
  destruct (is_char c nl); [apply IH; lia|].
  rewrite !andb_true_iff, !Nat.leb_le. intros [H1 H2]. split; [lia|].
  apply (IH (S cur)); [lia | exact H2].
Qed.

(** A text that fits on the line as a whole, followed by [t]. *)
Lemma lines_within_short B cur s t :
  String.length s + cur <= B ->
  lines_within B (cur + String.length s) t = true ->
  lines_within B cur (s ++ t) = true.
Proof.
  revert cur; induction s as [|c s IH]; intros cur Hlen Ht;
    cbn [lines_within String.append String.length] in *.
  - now rewrite Nat.add_0_r in Ht.
  - destruct (is_char c nl).
    + apply (IH 0); [lia|].
      apply (lines_within_le B (cur + S (String.length s))); [lia | exact Ht].
    + apply andb_true_iff. split; [apply Nat.leb_le; lia|].
      apply IH; [lia|]. now replace (S cur + String.length s)
                          with (cur + S (String.length s)) by lia.
Qed.

Lemma length_take_le n s : String.length (take n s) <= n.
Proof.
  revert s; induction n as [|n IH]; intros [|c s]; simpl; try lia.
  specialize (IH s). lia.
Qed.

Lemma lines_within_loop L addcr commaok line rest : forall cur,
  cur <= 3 ->
  lines_within (3 + L) cur
               (render_outs (fst (wrap_loop L addcr commaok line rest)))
  = true.
Proof.
  funelim (wrap_loop L addcr commaok line rest); intros cur Hcur.
  - unfold render_outs. cbn [fst map render_out concat fold_right].
    apply lines_within_short; [lia|].
    destruct addcr; reflexivity.
  - unfold render_outs, out_then. cbn [fst map render_out concat fold_right].
    rewrite !append_assoc.
    pose proof (length_take_le (strcspn_nl rest) rest) as Hl.
    apply Nat.leb_le in Heq.
    apply lines_within_short; [lia|].
    change (lines_within (3 + L) 0
              (render_outs (fst (wrap_loop L addcr commaok line
                                   (drop (S (strcspn_nl rest)) rest))))
            = true).
    apply H. lia.
  - unfold render_outs, out_then. cbn [fst map render_out concat fold_right].
    rewrite !append_assoc.
    apply scan_wrap_some in Heq as (Hle & _).
    pose proof (length_take_le (S m) rest) as Hl.
    apply lines_within_short; [lia|].
    change (lines_within (3 + L) 3
              (render_outs (fst (wrap_loop L addcr commaok line
                                   (drop (S m) rest))))
            = true).
    apply H. lia.
  - reflexivity.
Qed.

(** X7.  No line of what the wrapper writes is longer than the width
    plus three, the three being the blanks that indent a continuation
    line.  This holds for every text, width and setting of the flags,
    and for what is written before a fatal end as well. *)
Theorem X7_wrapped_lines_fit (L : nat) (line : string) (addcr commaok : bool) :
  lines_within (L + 3) 0
               (render_outs (fst (Default_wrap_write L line addcr commaok)))
  = true.
Proof.
  unfold Default_wrap_write. rewrite (Nat.add_comm L 3).
  apply lines_within_loop. lia.
Qed.

Lemma wrap_loop_zero L addcr commaok line rest :
  L = 0 ->
  snd (wrap_loop L addcr commaok line rest)
  = if only_newlines rest then Ok tt else Fatal (wrap_fatal line).
Proof.
  funelim (wrap_loop L addcr commaok line rest); intros HL; subst.
  - destruct rest as [|c rest]; [reflexivity | simpl in *; lia].
  - apply Nat.leb_le in Heq.
    destruct rest as [|c rest]; [simpl in *; lia|].
    simpl in Heq. simpl.
    destruct (Ascii.eqb c (ascii_of_nat 10)) eqn:E; [|lia].
    simpl in H. rewrite E in H. simpl in H. exact (H eq_refl).
  - discriminate.
  - apply Nat.leb_gt in Heq0.
    destruct rest as [|c rest]; [simpl in *; lia|].
    simpl in Heq0. simpl.
    destruct (Ascii.eqb c (ascii_of_nat 10)) eqn:E; [lia|]. reflexivity.
Qed.

(** X8.  At width zero nothing can be wrapped: the wrapper ends normally on a
    text that holds newlines only, and on every other text it ends the
    run with the message for a line that cannot be wrapped. *)
Theorem X8_width_zero_wraps_nothing (line : string) (addcr commaok : bool) :
  snd (Default_wrap_write 0 line addcr commaok)
  = if only_newlines line then Ok tt else Fatal (wrap_fatal line).
Proof.
  unfold Default_wrap_write.
  exact (wrap_loop_zero 0 addcr commaok line line eq_refl).
Qed.

Lemma lines_within_strcspn B cur s :
  lines_within B cur s = true -> strcspn_nl s = 0 \/ cur + strcspn_nl s <= B.
Proof.
  revert cur; induction s as [|c s IH]; intros cur;
    cbn [lines_within strcspn_nl]; [now left|].
  destruct (is_char c nl); [now left|].
  rewrite andb_true_iff, Nat.leb_le. intros [H1 H2]. right.
  destruct (IH (S cur) H2); lia.
Qed.

Lemma lines_within_drop B cur s :
  lines_within B cur s = true ->
  lines_within B 0 (drop (S (strcspn_nl s)) s) = true.
Proof.
  revert cur; induction s as [|c s IH]; intros cur;
    cbn [lines_within strcspn_nl drop]; [reflexivity|].
  destruct (is_char c nl); [intros H; exact H|].
  rewrite andb_true_iff. intros [_ H2]. exact (IH (S cur) H2).
Qed.

Lemma wrap_loop_fitting L addcr commaok line rest :
  lines_within L 0 rest = true ->
  snd (wrap_loop L addcr commaok line rest) = Ok tt
  /\ render_outs (fst (wrap_loop L addcr commaok line rest))
     = (rest ++ (if addcr then nl else ""))%string.
Proof.
  funelim (wrap_loop L addcr commaok line rest); intros Hfit.
  - split; [reflexivity|].
    unfold render_outs. cbn [fst map render_out concat fold_right].
    destruct addcr; reflexivity.
  - apply Nat.leb_le in Heq.
    destruct (H (lines_within_drop L 0 rest Hfit)) as [Hok Hr].
    split; [exact Hok|].
    unfold out_then. cbn [fst].
    change (render_outs (?o :: ?os)) with (render_out o ++ render_outs os)%string.
    rewrite Hr, <- append_assoc. f_equal.
    etransitivity; [|exact (strcspn_nl_split rest ltac:(lia))].
    unfold render_out, concat. cbn [fold_right].
    now rewrite ?append_assoc, ?append_empty_r.
  - apply Nat.leb_gt in Heq0.
    destruct (lines_within_strcspn L 0 rest Hfit); lia.
  - apply Nat.leb_gt in Heq0.
    destruct (lines_within_strcspn L 0 rest Hfit); lia.
Qed.

(** X9.  A text whose lines all fit the width is written as it is: the
    wrapper ends normally and what it writes is the text, followed by a
    newline when [addcr] is set.  No break is added and no character is
    moved. *)
Theorem X9_fitting_text_is_unchanged
        (L : nat) (line : string) (addcr commaok : bool) :
  lines_within L 0 line = true ->
  snd (Default_wrap_write L line addcr commaok) = Ok tt
  /\ render_outs (fst (Default_wrap_write L line addcr commaok))
     = (line ++ (if addcr then nl else ""))%string.
Proof.
  unfold Default_wrap_write. apply wrap_loop_fitting.
Qed.

(** Two lines of four characters at width 5. *)
Lemma X9_fitting_text_is_unchanged_witness :
  snd (Default_wrap_write 5 (concat ["aaaa"; nl; "bbbb"]) true false) = Ok tt
  /\ render_outs (fst (Default_wrap_write 5 (concat ["aaaa"; nl; "bbbb"])
                                          true false))
     = (concat ["aaaa"; nl; "bbbb"] ++ nl)%string.
Proof.
  exact (X9_fitting_text_is_unchanged 5 (concat ["aaaa"; nl; "bbbb"]) true false
           eq_refl).
Defined.

(** ** The HTML backend: buffers and names *)

Lemma length_concat3 (a b c : string) :
  String.length (concat [a; b; c])
  = String.length a + String.length b + String.length c.
Proof.
  unfold concat. cbn [fold_right].
  rewrite !length_append. simpl. lia.
Qed.

Lemma slprint_text_length items : forall n obuf,
  n <> 0 ->
  String.length (slprint_text items n obuf)
  = String.length obuf + total_length items + 2 * List.length items.
Proof.
  induction items as [|cur rest IH]; intros n obuf Hn;
    cbn [slprint_text total_length fold_right List.length]; [lia|].
  fold (total_length rest).
  destruct (Nat.eqb_spec n 0) as [E|_]; [contradiction|].
  rewrite IH by lia. rewrite length_concat3. simpl. lia.
Qed.

Lemma slprint_size_started items : forall size,
  size <> 0 ->
  slprint_size items size = size + total_length items + 2 * List.length items.
Proof.
  induction items as [|cur rest IH]; intros size Hs; simpl; [lia|].
  destruct (Nat.eqb_spec size 0) as [E|_]; [contradiction|].
  rewrite IH by lia. lia.
Qed.

Lemma slprint_size_unsized items :
  total_length items + 2 * List.length items
  = slprint_size items 0 + unsized items.
Proof.
  induction items as [|cur rest IH]; [reflexivity|].
  cbn [total_length fold_right List.length slprint_size unsized Nat.eqb].
  fold (total_length rest).
  destruct (Nat.eqb_spec (String.length cur) 0) as [E|E].
  - rewrite E. simpl. lia.
  - rewrite slprint_size_started by (simpl; lia). simpl. lia.
Qed.

(** X10.  The buffer of [html_slprint] against the text written to it.  For a
    list that starts with an item that is not empty the text has exactly
    the size computed for it.  The size loop adds the two characters of
    a separator only once the size is not zero, the writing loop writes
    a separator before every item but the first: for a list that starts
    with an empty item the text is longer than the size computed, by two
    characters for each item up to and including the first one after it
    that is not empty. *)
Theorem X10_html_slprint_buffer (cur : string) (rest : list string) :
  String.length (html_slprint (cur :: rest))
  = html_slprint_size (cur :: rest)
    + (if (String.length cur =? 0)%nat then unsized rest else 0).
Proof.
  unfold html_slprint, html_slprint_size.
  cbn [slprint_text slprint_size Nat.eqb].
  rewrite slprint_text_length by lia.
  destruct (Nat.eqb_spec (String.length cur) 0) as [E|E].
  - rewrite E. simpl. apply slprint_size_unsized.
  - rewrite slprint_size_started by (simpl; lia). simpl. lia.
Qed.

Lemma length_anchorTag s : String.length (anchorTag s) = 2 * String.length s + 16.
Proof.
  unfold anchorTag, concat. cbn [fold_right].
  rewrite !length_append. simpl. lia.
Qed.

Lemma anchors_text_length items : forall n obuf,
  n <> 0 ->
  String.length (anchors_text items n obuf)
  = String.length obuf + 2 * total_length items + 18 * List.length items.
Proof.
  induction items as [|cur rest IH]; intros n obuf Hn;
    cbn [anchors_text total_length fold_right List.length]; [lia|].
  fold (total_length rest).
  destruct (Nat.eqb_spec n 0) as [E|_]; [contradiction|].
  rewrite IH by lia. rewrite length_concat3, length_anchorTag. simpl. lia.
Qed.

Lemma anchors_size_started items : forall size,
  size <> 0 ->
  anchors_size items size
  = size + 2 * total_length items + 21 * List.length items.
Proof.
  induction items as [|cur rest IH]; intros size Hs; simpl; [lia|].
  destruct (Nat.eqb_spec size 0) as [E|_]; [contradiction|].
  rewrite IH by lia. lia.
Qed.

(** X11.  The buffers of [html_slprint_for_setlist] and
    [html_slprint_for_eqnlist] always hold the text written to them: the
    size counts 19 characters for the 16 an anchor adds to the two
    copies of a name, so that three characters per item stay unused. *)
Theorem X11_anchor_list_buffer (cur : string) (rest : list string) :
  String.length (html_slprint_for_setlist (cur :: rest))
  + 3 * List.length (cur :: rest)
  = html_slprint_for_setlist_size (cur :: rest)
  /\ String.length (html_slprint_for_eqnlist (cur :: rest))
     + 3 * List.length (cur :: rest)
     = html_slprint_for_eqnlist_size (cur :: rest).
Proof.
  assert (H : String.length (anchors_text (cur :: rest) 0 "")
              + 3 * List.length (cur :: rest)
              = anchors_size (cur :: rest) 0).
  { cbn [anchors_text anchors_size Nat.eqb].
    rewrite anchors_text_length by lia.
    rewrite anchors_size_started by lia.
    rewrite length_anchorTag. simpl. lia. }
  split; exact H.
Qed.

(** *** [str_replace] *)

Lemma prefix_split a : forall b,
  String.prefix a b = true -> b = (a ++ drop (String.length a) b)%string.
Proof.
  induction a as [|c a IH]; intros [|d b]; simpl; try discriminate;
    try reflexivity.
  destruct (ascii_dec c d) as [->|]; [|discriminate].
  intros H. f_equal. now apply IH.
Qed.

Lemma length_drop n : forall s,
  String.length (drop n s) = String.length s - n.
Proof.
  induction n as [|n IH]; intros [|c s]; simpl; auto.
Qed.

Lemma strstr_split needle : forall hay k,
  strstr hay needle = Some k ->
  hay = concat [take k hay; needle; drop (k + String.length needle) hay]
  /\ k + String.length needle <= String.length hay.
Proof.
  assert (Hfound : forall hay,
             String.prefix needle hay = true ->
             hay = concat [take 0 hay; needle;
                           drop (0 + String.length needle) hay]
             /\ 0 + String.length needle <= String.length hay).
  { intros hay Hp. pose proof (prefix_split needle hay Hp) as Hs.
    split.
    - unfold concat. cbn [fold_right]. rewrite append_empty_r.
      destruct hay; exact Hs.
    - rewrite Hs at 1. rewrite length_append. simpl. lia. }
  induction hay as [|c hay IH]; intros k; cbn [strstr].
  - destruct (String.prefix needle "") eqn:Hp; [|discriminate].
    intros [= <-]. now apply Hfound.
  - destruct (String.prefix needle (String c hay)) eqn:Hp.
    + intros [= <-]. now apply Hfound.
    + destruct (strstr hay needle) as [k'|]; [|discriminate].
      intros [= <-]. destruct (IH k' eq_refl) as [Hs Hl]. split.
      * cbn [take drop Nat.add]. unfold concat in *. cbn [fold_right] in *.
        simpl. f_equal. exact Hs.
      * simpl. lia.
Qed.

Lemma build_after_count c rep' ins w :
  exists result,
    build_loop (count_loop c rep' ins) ins (String c rep') w = Ok result
    /\ (Z.of_nat (String.length result) + 1
        = str_replace_size ins (String c rep') w (count_loop c rep' ins))%Z.
Proof.
  funelim (count_loop c rep' ins).
  - exists "". split; [reflexivity|]. unfold str_replace_size. simpl. lia.
  - destruct (H w) as (tl & Htl & Hlen).
    destruct (strstr_split _ _ _ Heq) as [Hs Hl].
    cbn [build_loop]. rewrite Heq.
    rewrite (Nat.add_comm k (String.length (String c rep'))).
    rewrite Htl. cbn [rbind].
    eexists. split; [reflexivity|].
    unfold str_replace_size in *.
    rewrite length_concat3, length_take by lia.
    rewrite length_drop in Hlen.
    rewrite Nat2Z.inj_succ, Z.mul_succ_r.
    set (X := ((Z.of_nat (String.length w)
                - Z.of_nat (String.length (String c rep')))
               * Z.of_nat (count_loop c rep'
                             (drop (String.length (String c rep') + k)
                                   (String d ins'))))%Z) in *.
    lia.
  - exists (String d ins'). split; [reflexivity|].
    unfold str_replace_size. lia.
Qed.

(** X12.  [str_replace] writes exactly the buffer it asks for.  For an empty
    [rep] it returns the null pointer.  Otherwise the copying loop finds
    an occurrence of [rep] each of the times the counting loop counted
    one, so that no null result of [strstr] is used, and the text
    returned, with its final NUL, has the size passed to [malloc]: the
    length of [orig] plus, for each occurrence counted, the difference
    of the lengths of [with] and [rep]. *)
Theorem X12_str_replace_fills_buffer (orig rep w : string) :
  match rep with
  | EmptyString => str_replace orig rep w = Ok None
  | String c rep' =>
      exists result,
        str_replace orig rep w = Ok (Some result)
        /\ (Z.of_nat (String.length result) + 1
            = str_replace_size orig rep w (count_loop c rep' orig))%Z
  end.
Proof.
  destruct rep as [|c rep']; [reflexivity|].
  destruct (build_after_count c rep' orig w) as (result & Hb & Hlen).
  exists result. unfold str_replace. rewrite Hb. split; [reflexivity|].
  exact Hlen.
Qed.

Lemma strstr_char c : forall s,
  match strstr s (String c "") with
  | None => forall w, replace_char c w s = s
  | Some k => forall w,
      replace_char c w s
      = concat [take k s; w; replace_char c w (drop (k + 1) s)]
  end.
Proof.
  induction s as [|d s IH]; [intros w; reflexivity|].
  cbn [strstr String.prefix].
  destruct (ascii_dec c d) as [->|Hne].
  - replace (String.prefix "" s) with true by now destruct s.
    intros w. cbn [replace_char take drop Nat.add].
    rewrite Ascii.eqb_refl. unfold concat. cbn [fold_right].
    now rewrite append_empty_r.
  - assert (E : Ascii.eqb d c = false)
      by (apply Ascii.eqb_neq; congruence).
    destruct (strstr s (String c "")) as [k|]; cbn [option_map];
      intros w; cbn [replace_char take drop Nat.add]; rewrite E, IH.
    + reflexivity.
    + reflexivity.
Qed.

Lemma build_after_count_char c rep' ins w :
  rep' = EmptyString ->
  build_loop (count_loop c rep' ins) ins (String c rep') w
  = Ok (replace_char c w ins).
Proof.
  funelim (count_loop c rep' ins); intros ->.
  - reflexivity.
  - cbn [build_loop]. rewrite Heq.
    rewrite (Nat.add_comm k (String.length (String c ""))).
    rewrite (H w eq_refl). cbn [rbind].
    pose proof (strstr_char c (String d ins')) as Hc. rewrite Heq in Hc.
    rewrite (Hc w). do 3 f_equal.
    now rewrite (Nat.add_comm k 1).
  - pose proof (strstr_char c (String d ins')) as Hc. rewrite Heq in Hc.
    cbn [build_loop]. now rewrite Hc.
Qed.

(** X13.  With a [rep] of one character, as [htmlvar] and [HTML_begin_func]
    call it to escape the underscores of a name, [str_replace] returns
    the text in which every occurrence of the character is replaced by
    [with], and every other character is kept in place. *)
Theorem X13_str_replace_escapes_character (orig w : string) (c : ascii) :
  str_replace orig (String c "") w = Ok (Some (replace_char c w orig)).
Proof.
  unfold str_replace.
  now rewrite (build_after_count_char c "" orig w eq_refl).
Qed.

(** *** [getLhsVariableName] *)

Lemma lhs_name_not_empty isname : forall n,
  names_not_empty isname n = true ->
  (0 <? String.length (getLhsVariableName isname n))%nat = true.
Proof.
  fix IH 1. intros [t s cl cr_ d b z].
  cbn [names_not_empty getLhsVariableName].
  rewrite !andb_true_iff. intros [[Hs Hl] Hr].
  destruct (isname (NODE t s cl cr_ d b z)); [exact Hs|].
  assert (Hright :
            (0 <? String.length
                    match cr_ with
                    | Some y =>
                        if (0 <? String.length (getLhsVariableName isname y))%nat
                        then getLhsVariableName isname y
                        else "Not a variable"
                    | None => "Not a variable"
                    end)%nat = true).
  { destruct cr_ as [y|]; [|reflexivity]. now rewrite (IH y Hr), (IH y Hr). }
  destruct cl as [x|]; [|exact Hright].
  now rewrite (IH x Hl), (IH x Hl).
Qed.

(** X14.  In a tree whose names have tokens that are not empty, the name
    [getLhsVariableName] returns for a node that is no name and has a
    left operand is the one it returns for the left operand: the right
    operand is looked at only when there is no left one.  The answer of
    a left operand without a name, [Not a variable], is not empty and is
    passed on as if it were a name. *)
Theorem X14_lhs_name_follows_left_operand
        (isname : Node -> bool) (n x : Node) :
  names_not_empty isname n = true ->
  isname n = false ->
  l n = Some x ->
  getLhsVariableName isname n = getLhsVariableName isname x.
Proof.
  destruct n as [t s cl cr_ d b z]. cbn [l].
  intros Hne Hname ->. cbn [getLhsVariableName]. rewrite Hname.
  cbn [names_not_empty] in Hne. rewrite !andb_true_iff in Hne.
  destruct Hne as [[_ Hl] _].
  now rewrite (lhs_name_not_empty isname x Hl).
Qed.

(** The left-hand side [1*x] has no name, though [x] is a variable. *)
Lemma X14_lhs_name_follows_left_operand_witness :
  getLhsVariableName is_nam (binop mul "*" (leaf num "1") (leaf nam "x"))
  = getLhsVariableName is_nam (leaf num "1").
Proof.
  exact (X14_lhs_name_follows_left_operand is_nam
           (binop mul "*" (leaf num "1") (leaf nam "x")) (leaf num "1")
           eq_refl eq_refl eq_refl).
Defined.

(** ** Parentheses of the rendered text *)

Lemma nesting_app a : forall b depth,
  nesting (a ++ b) depth
  = match nesting a depth with
    | Some d => nesting b d
    | None => None
    end.
Proof.
  induction a as [|c a IH]; intros b depth; cbn [nesting String.append];
    [reflexivity|].
  destruct (is_char c "("); [apply IH|].
  destruct (is_char c ")"); [|apply IH].
  destruct depth; [reflexivity | apply IH].
Qed.

Lemma nesting_nested a b depth :
  well_nested a -> nesting (a ++ b) depth = nesting b depth.
Proof. intros H. now rewrite nesting_app, H. Qed.

Lemma well_nested_empty : well_nested "".
Proof. intros d. reflexivity. Qed.

Lemma well_nested_app a b : well_nested a -> well_nested b -> well_nested (a ++ b).
Proof. intros Ha Hb d. now rewrite nesting_nested. Qed.

(** Rewriting through a text built from parts a lemma [lem] passes
    over, and literal texts. *)
Ltac pass_by lem :=
  unfold concat; cbn [fold_right];
  repeat first
    [ rewrite lem by assumption
    | rewrite append_assoc
    | progress simpl ].

Lemma well_nested_nl : well_nested nl.
Proof. intros d. reflexivity. Qed.

Ltac innermost x :=
  match x with
  | match ?y with _ => _ end => innermost y
  | _ => x
  end.

(** Case analysis on the first result a computation depends on. *)
Ltac crack H :=
  match type of H with
  | match ?x with _ => _ end = _ =>
      let y := innermost x in destruct y eqn:?; try discriminate H
  end.


Section ShowNodeNesting.

Variable show_symbol :
  string -> list string -> list string -> list string -> Context -> Res string.
Variable begin_func : string -> option string -> Res string.
Variable end_func : Res string.
Variable scalar_sums : bool.
Variable elements : string -> list string.
Variables pow_op cr_text : string.

Hypothesis Hsym : symbols_nested show_symbol.
Hypothesis Henv : envelope_nested begin_func end_func.
Hypothesis Hpow : well_nested pow_op.
Hypothesis Hcr : well_nested cr_text.

Lemma sum_loop_nested (render : string -> Res string) (isprd : bool) op :
  (forall ele t, render ele = Ok t -> well_nested t) ->
  well_nested op ->
  forall eles buf thisop out,
    well_nested thisop ->
    sum_loop render op (if isprd then "(" else "") (if isprd then ")" else "")
             eles buf thisop = Ok out ->
    forall d d', nesting buf d = Some d' -> nesting out d = Some d'.
Proof.
  intros Hrender Hop.
  induction eles as [|ele rest IH]; intros buf thisop out Hthis; simpl.
  - now intros [= <-].
  - unfold rbind. destruct (render ele) as [rstr|] eqn:E; [|discriminate].
    apply Hrender in E. intros H d d' Hbuf.
    apply (IH _ _ _ Hop H).
    pose proof well_nested_nl.
    unfold concat. cbn [fold_right]. rewrite nesting_app, Hbuf.
    destruct isprd; pass_by nesting_nested; reflexivity.
Qed.

Lemma show_node_rec_nested : forall cur prevtype setlist sublist text,
  tokens_nested cur ->
  show_node_rec show_symbol begin_func end_func scalar_sums elements
                pow_op cr_text prevtype cur setlist sublist = Ok text ->
  well_nested text.
Proof.
  fix IH 1.
  intros [ctype cstr cl cr_ cdomain clhs cdt] prevtype setlist sublist text.
  cbn [tokens_nested]. intros (Hs & Hl & Hr).
  assert (HL : match cl with
               | Some x =>
                   forall p sets subs t,
                     show_node_rec show_symbol begin_func end_func
                                   scalar_sums elements pow_op cr_text
                                   p x sets subs = Ok t ->
                     well_nested t
               | None => True
               end).
  { destruct cl as [x|]; [|exact I]. intros p sets subs t.
    exact (IH x p sets subs t Hl). }
  assert (HR : match cr_ with
               | Some y =>
                   forall p sets subs t,
                     show_node_rec show_symbol begin_func end_func
                                   scalar_sums elements pow_op cr_text
                                   p y sets subs = Ok t ->
                     well_nested t
               | None => True
               end).
  { destruct cr_ as [y|]; [|exact I]. intros p sets subs t.
    exact (IH y p sets subs t Hr). }
  clear IH. intros H. cbn [show_node_rec] in H. unfold rbind in H.
  destruct (show_node_parens prevtype ctype) as [parens|]; [|discriminate].
  pose proof well_nested_empty as Hempty.
  destruct ctype.
  all: destruct cl as [x|], cr_ as [y|]; cbn [wrap_right_of] in H;
    repeat (crack H; cbv beta iota in H);
    repeat match goal with
           | E : show_node_rec _ _ _ _ _ _ _ _ _ _ _ = Ok _ |- _ =>
               first [ apply HL in E | apply HR in E ]
           | E : show_symbol _ _ _ _ _ = Ok _ |- _ => apply Hsym in E
           end;
    try discriminate H; try assumption;
    try (injection H as <-).
  all: try (intros d;
            repeat match goal with
                   | |- context [if ?b then _ else _] => destruct b
                   end;
            pass_by nesting_nested; reflexivity).
  all: try (lazymatch goal with
            | Henv' : envelope_nested ?bf (Ok ?e), Eb : ?bf ?f ?arg = Ok ?b
              |- well_nested _ =>
                intros d;
                assert (Hbe : nesting b d = Some (S d)
                              /\ nesting e (S d) = Some d);
                [ apply (Henv' f arg b e);
                  [ assumption
                  | first [ intros ? ?; discriminate
                          | intros ? [= E]; rewrite <- E;
                            match goal with
                            | Hx : tokens_nested ?x
                              |- well_nested (str ?x) =>
                                destruct x; exact (proj1 Hx)
                            end ]
                  | exact Eb
                  | reflexivity ]
                | destruct Hbe as [Hb He];
                  rewrite ?andb_false_r;
                  repeat match goal with
                         | |- context [if ?c then _ else _] => destruct c
                         end;
                  cbn [String.append];
                  rewrite nesting_app, Hb; pass_by nesting_nested;
                  rewrite nesting_app, He; reflexivity ]
            end).
  all: lazymatch goal with
       | E : sum_loop ?render ?op (if ?b then _ else _) _ ?eles ?buf ?thisop
             = Ok ?a
         |- well_nested (?a ++ ")") =>
           intros d; rewrite nesting_app;
           rewrite (sum_loop_nested render b op
                      ltac:(intros ele t Ht;
                            first [ exact (HR _ _ _ _ Ht)
                                  | injection Ht as <-; exact Hempty ])
                      ltac:(intros ?; reflexivity)
                      eles buf thisop a
                      ltac:(intros ?; reflexivity)
                      E d (S d) eq_refl);
           reflexivity
       end.
Qed.

End ShowNodeNesting.

Lemma default_envelope_nested :
  envelope_nested Default_begin_func Default_end_func.
Proof.
  intros func arg b e Hf Ha Hb [= <-] d.
  split; [|reflexivity].
  destruct arg as [a|]; injection Hb as <-.
  - specialize (Ha a eq_refl). pass_by nesting_nested. reflexivity.
  - pass_by nesting_nested. reflexivity.
Qed.

(** X15.  The code the renderer writes has matching parentheses.  With a
    [show_symbol] hook whose references are well nested, and
    [begin_func] and [end_func] hooks that open one level and close it,
    as the default hooks do, the text [Default_show_node] or
    [PYTHON_show_node] returns for a tree with well-nested tokens is
    well nested: every closing parenthesis has an opening one before
    it, and none is left open.  This covers the parentheses set by the
    [parens] flag, those around the right operand of a subtraction, the
    envelope of [log] and [exp], and both forms of sums and products. *)
Theorem X15_rendered_code_is_well_nested :
  envelope_nested Default_begin_func Default_end_func
  /\ forall show_symbol begin_func end_func (scalar_sums : bool) elements
            prevtype cur setlist sublist text,
      symbols_nested show_symbol ->
      envelope_nested begin_func end_func ->
      tokens_nested cur ->
      Default_show_node show_symbol begin_func end_func scalar_sums elements
                        prevtype (Some cur) setlist sublist = Ok text
      \/ PYTHON_show_node show_symbol begin_func end_func scalar_sums
                          elements prevtype (Some cur) setlist sublist
         = Ok text ->
      well_nested text.
Proof.
  split; [exact default_envelope_nested|].
  intros show_symbol begin_func end_func scalar_sums elements prevtype cur
         setlist sublist text Hsym Henv Htok [H|H];
    unfold Default_show_node, PYTHON_show_node, show_node_gen in H;
    eapply show_node_rec_nested; try exact H; try assumption;
    intros d; reflexivity.
Qed.

(** The sum over [s] of [x*(y+1)], written as a function call. *)
Lemma X15_rendered_code_is_well_nested_witness :
  well_nested "sum(s,x*(x+1))".
Proof.
  refine (proj2 X15_rendered_code_is_well_nested x_symbol
            Default_begin_func Default_end_func false (fun _ => [])
            nul sum_of_products [] [] _ _ default_envelope_nested _
            (or_introl eq_refl)).
  - intros name dom sets subs ctx text [= <-] d. reflexivity.
  - simpl. repeat split; intros d; reflexivity.
Defined.

(** *** The diagnostic renderer *)

Lemma spprint_comma_nested prevtype ctype parens comma :
  spprint_parens prevtype ctype = Ok (parens, comma) -> well_nested comma.
Proof.
  destruct prevtype, ctype; simpl; intros [= <- <-] d; reflexivity.
Qed.

Lemma lst_items_nested : forall n, tokens_nested n -> well_nested (lst_items n).
Proof.
  fix IH 1. intros [t s cl cr_ d b z]. cbn [tokens_nested lst_items].
  intros (Hs & _ & Hr).
  destruct cr_ as [y|]; [|exact Hs].
  pose proof (IH y Hr) as Hy. clear IH.
  intros depth. pass_by nesting_nested. reflexivity.
Qed.

Lemma spprint_node_nested indent :
  (forall ind, indent = Some ind -> well_nested ind) ->
  forall cur prevtype text,
    tokens_nested cur ->
    spprint_node prevtype cur indent = Ok text ->
    well_nested text.
Proof.
  intros Hind. fix IH 1.
  intros [ctype cstr cl cr_ cdomain clhs cdt] prevtype text.
  cbn [tokens_nested]. intros (Hs & Hl & Hr).
  assert (HL : match cl with
               | Some x =>
                   forall p t, spprint_node p x indent = Ok t -> well_nested t
               | None => True
               end).
  { destruct cl as [x|]; [|exact I]. intros p t.
    exact (IH x p t Hl). }
  assert (HR : match cr_ with
               | Some y =>
                   forall p t, spprint_node p y indent = Ok t -> well_nested t
               | None => True
               end).
  { destruct cr_ as [y|]; [|exact I]. intros p t.
    exact (IH y p t Hr). }
  assert (Hitems : match cr_ with
                   | Some y => well_nested (lst_items y)
                   | None => True
                   end).
  { destruct cr_ as [y|]; [|exact I]. now apply lst_items_nested. }
  clear IH. intros H. cbn [spprint_node] in H. unfold rbind in H.
  destruct (spprint_parens prevtype ctype) as [[parens comma]|] eqn:Ep;
    [|discriminate].
  apply spprint_comma_nested in Ep.
  pose proof well_nested_empty as Hempty.
  pose proof well_nested_nl as Hnl.
  assert (Hi : match indent with
               | Some ind => well_nested ind
               | None => True
               end).
  { destruct indent as [ind|]; [|exact I]. now apply Hind. }
  clear Hind.
  destruct ctype;
    destruct cl as [x|], cr_ as [y|]; cbn [wrap_right_of] in H;
    repeat (crack H; cbv beta iota in H);
    repeat match goal with
           | E : spprint_node _ _ _ = Ok _ |- _ =>
               first [ apply HL in E | apply HR in E ]
           end;
    try discriminate H; try (injection H as <-);
    destruct indent as [ind|];
    intros d;
    repeat match goal with
           | |- context [if ?b then _ else _] => destruct b
           end;
    pass_by nesting_nested; reflexivity.
Qed.

(** X16.  The text of the diagnostic renderer has matching parentheses: for a
    tree with well-nested tokens, and an indentation that is well
    nested, the text [Default_spprint] returns is well nested.  The
    texts of [node2string] and [snprint] are such texts, for no
    indentation and for one of three blanks. *)
Theorem X16_diagnostic_text_is_well_nested
        (prevtype : Nodetype) (cur : Node) (indent : option string)
        (text : string) :
  tokens_nested cur ->
  (forall ind, indent = Some ind -> well_nested ind) ->
  Default_spprint prevtype (Some cur) indent = Ok text ->
  well_nested text.
Proof.
  intros Htok Hind H.
  exact (spprint_node_nested indent Hind cur prevtype text Htok H).
Qed.

(** The product [x*(y+1)]. *)
Lemma X16_diagnostic_text_is_well_nested_witness : well_nested "x*(y+1)".
Proof.
  refine (X16_diagnostic_text_is_well_nested nul
            (binop mul "*" (leaf nam "x")
                   (binop add "+" (leaf nam "y") (leaf num "1")))
            None "x*(y+1)" _ _ eq_refl).
  - simpl. repeat split; intros d; reflexivity.
  - intros ind [=].
Defined.

(** ** Braces of the HTML diagnostic text *)

Lemma spprint_comma_brace_free prevtype ctype parens comma :
  spprint_parens prevtype ctype = Ok (parens, comma) -> brace_free comma.
Proof.
  destruct prevtype, ctype; simpl; intros [= <- <-]; split; reflexivity.
Qed.

Lemma lst_items_brace_free : forall n,
  tokens_brace_free n -> brace_free (lst_items n).
Proof.
  fix IH 1. intros [t s cl cr_ d b z]. cbn [tokens_brace_free lst_items].
  intros (Hs & _ & Hr).
  destruct cr_ as [y|]; [|exact Hs].
  destruct (IH y Hr) as [Hy1 Hy2]. clear IH. destruct Hs as [Hs1 Hs2].
  unfold brace_free, concat. cbn [fold_right].
  rewrite !count_char_app, Hy1, Hy2, Hs1, Hs2. split; reflexivity.
Qed.

Lemma HTML_spprint_node_braces indent :
  (forall ind, indent = Some ind -> brace_free ind) ->
  forall cur prevtype text,
    tokens_brace_free cur ->
    HTML_spprint_node prevtype cur indent = Ok text ->
    count_char lbrace text
    = count_char rbrace text + flagged_operands prevtype cur.
Proof.
  intros Hind. fix IH 1.
  intros [ctype cstr cl cr_ cdomain clhs cdt] prevtype text.
  cbn [tokens_brace_free]. intros (Hs & Hl & Hr).
  assert (HL : match cl with
               | Some x =>
                   forall p t,
                     HTML_spprint_node p x indent = Ok t ->
                     count_char lbrace t
                     = count_char rbrace t + flagged_operands p x
               | None => True
               end).
  { destruct cl as [x|]; [|exact I]. intros p t.
    exact (IH x p t Hl). }
  assert (HR : match cr_ with
               | Some y =>
                   forall p t,
                     HTML_spprint_node p y indent = Ok t ->
                     count_char lbrace t
                     = count_char rbrace t + flagged_operands p y
               | None => True
               end).
  { destruct cr_ as [y|]; [|exact I]. intros p t.
    exact (IH y p t Hr). }
  assert (Hitems : match cr_ with
                   | Some y => brace_free (lst_items y)
                   | None => True
                   end).
  { destruct cr_ as [y|]; [|exact I]. now apply lst_items_brace_free. }
  clear IH. intros H. cbn [HTML_spprint_node] in H. unfold rbind in H.
  cbn [flagged_operands].
  destruct (spprint_parens prevtype ctype) as [[parens comma]|] eqn:Ep;
    [|discriminate].
  destruct (spprint_comma_brace_free _ _ _ _ Ep) as [Hc1 Hc2].
  destruct Hs as [Hs1 Hs2].
  assert (Hi : match indent with
               | Some ind => brace_free ind
               | None => True
               end).
  { destruct indent as [ind|]; [|exact I]. now apply Hind. }
  clear Hind.
  destruct ctype;
    destruct cl as [x|], cr_ as [y|]; cbn [wrap_right_of] in H;
    repeat (crack H; cbv beta iota in H);
    repeat match goal with
           | E : HTML_spprint_node _ _ _ = Ok _ |- _ =>
               first [ apply HL in E | apply HR in E ]
           end;
    try discriminate H; try (injection H as <-);
    destruct indent as [ind|];
    repeat match goal with
           | Hb : brace_free _ |- _ => destruct Hb
           end;
    destruct parens;
    repeat match goal with
           | |- context [if ?b then _ else _] => destruct b
           end;
    unfold concat; cbn [fold_right];
    repeat first [ rewrite count_char_app | progress simpl ];
    lia.
Qed.


(** X17.  [HTML_spprint] opens a brace for every operand it puts in
    parentheses and never closes it.  For a tree and an indentation
    whose texts hold no braces, the text returned holds one opening
    brace more than closing ones for every operand rendered with the
    [parens] flag set; only the braces around a list are closed.  The
    text of a flagged operand therefore never has matching braces. *)
Theorem X17_html_diagnostic_braces_stay_open
        (prevtype : Nodetype) (cur : Node) (indent : option string)
        (text : string) :
  tokens_brace_free cur ->
  (forall ind, indent = Some ind -> brace_free ind) ->
  HTML_spprint prevtype (Some cur) indent = Ok text ->
  count_char lbrace text
  = count_char rbrace text + flagged_operands prevtype cur.
Proof.
  intros Htok Hind H.
  exact (HTML_spprint_node_braces indent Hind cur prevtype text Htok H).
Qed.

(** In [x*(y+1)] the brace before the parenthesis stays open. *)
Lemma X17_html_diagnostic_braces_stay_open_witness :
  count_char lbrace "x*{(y+1)" = count_char rbrace "x*{(y+1)" + 1.
Proof.
  refine (X17_html_diagnostic_braces_stay_open nul product_with_sum None
            "x*{(y+1)" _ _ eq_refl).
  - simpl. repeat split.
  - intros ind [=].
Defined.

(** *** The text without the braces *)

Lemma erase_braces_app a b :
  erase_braces (a ++ b) = (erase_braces a ++ erase_braces b)%string.
Proof.
  induction a as [|c a IH]; simpl; [reflexivity|].
  rewrite IH. now destruct (Ascii.eqb c lbrace || Ascii.eqb c rbrace).
Qed.

Lemma erase_brace_free s : brace_free s -> erase_braces s = s.
Proof.
  unfold brace_free. induction s as [|c s IH]; simpl; [reflexivity|].
  destruct (Ascii.eqb c lbrace); simpl; [lia|].
  destruct (Ascii.eqb c rbrace); simpl; [lia|].
  intros [H1 H2]. now rewrite IH.
Qed.

Lemma HTML_spprint_node_erased : forall cur prevtype,
  tokens_brace_free cur ->
  rmap erase_braces (HTML_spprint_node prevtype cur None)
  = spprint_node prevtype cur None.
Proof.
  fix IH 1.
  intros [ctype cstr cl cr_ cdomain clhs cdt] prevtype.
  cbn [tokens_brace_free]. intros (Hs & Hl & Hr).
  assert (HL : match cl with
               | Some x =>
                   forall p,
                     spprint_node p x None
                     = rmap erase_braces (HTML_spprint_node p x None)
               | None => True
               end).
  { destruct cl as [x|]; [|exact I]. intros p. symmetry.
    exact (IH x p Hl). }
  assert (HR : match cr_ with
               | Some y =>
                   forall p,
                     spprint_node p y None
                     = rmap erase_braces (HTML_spprint_node p y None)
               | None => True
               end).
  { destruct cr_ as [y|]; [|exact I]. intros p. symmetry.
    exact (IH y p Hr). }
  assert (Hitems : match cr_ with
                   | Some y => erase_braces (lst_items y) = lst_items y
                   | None => True
                   end).
  { destruct cr_ as [y|]; [|exact I].
    now apply erase_brace_free, lst_items_brace_free. }
  clear IH. apply erase_brace_free in Hs.
  cbn [HTML_spprint_node spprint_node]. unfold rbind.
  destruct (spprint_parens prevtype ctype) as [[parens comma]|] eqn:Ep;
    [|reflexivity].
  apply spprint_comma_brace_free, erase_brace_free in Ep.
  destruct ctype;
    destruct cl as [x|], cr_ as [y|]; cbn [wrap_right_of];
    rewrite ?HL, ?HR;
    repeat match goal with
           | |- context [HTML_spprint_node ?p ?n None] =>
               destruct (HTML_spprint_node p n None)
           end;
    cbn [rmap]; try reflexivity;
    repeat match goal with
           | |- context [if ?b then _ else _] => destruct b
           end;
    cbn [rmap]; try reflexivity;
    f_equal; unfold concat; cbn [fold_right];
    repeat first [ rewrite erase_braces_app | progress simpl ];
    rewrite ?Hs, ?Ep, ?Hitems; reflexivity.
Qed.

(** X18.  Without an indentation, [HTML_spprint] differs from
    [Default_spprint] in braces only: for a tree whose tokens hold no
    braces, the text of [HTML_spprint] with its braces taken out is the
    text of [Default_spprint], and the one ends the run exactly when the
    other does, with the same message. *)
Theorem X18_html_diagnostic_text_adds_braces_only
        (prevtype : Nodetype) (cur : Node) :
  tokens_brace_free cur ->
  rmap erase_braces (HTML_spprint prevtype (Some cur) None)
  = Default_spprint prevtype (Some cur) None.
Proof.
  intros Htok. exact (HTML_spprint_node_erased cur prevtype Htok).
Qed.

(** [x*{(y+1)] and [x*(y+1)]. *)
Lemma X18_html_diagnostic_text_adds_braces_only_witness :
  rmap erase_braces (HTML_spprint nul (Some product_with_sum) None)
  = Default_spprint nul (Some product_with_sum) None.
Proof.
  apply (X18_html_diagnostic_text_adds_braces_only nul product_with_sum).
  simpl. repeat split.
Defined.

(** ** The name forms of [setup_pythonname] *)

Section NameForms.

Variable M : Model.

Lemma classify_set_flags name i nf r s g :
  nf_flags nf = flags_of r s g ->
  nf_flags (classify_set M name i nf)
  = flags_of (r || in_class M setname_regions name)
             (s + b2n (in_class M setname_sectors name))
             (g + b2n (in_class M setname_goods name)).
Proof.
  unfold classify_set, in_class. intros H.
  destruct (same_name name setname_regions || issubset M name setname_regions);
    destruct (same_name name setname_sectors
              || issubset M name setname_sectors);
    destruct (same_name name setname_goods || issubset M name setname_goods);
    cbn [nf_flags b2n]; rewrite H;
    destruct r; destruct s as [|[|[|s]]]; destruct g as [|[|[|g]]];
    reflexivity.
Qed.

Lemma classify_sets_flags sets : forall i nf r s g,
  nf_flags nf = flags_of r s g ->
  nf_flags (classify_sets M sets i nf)
  = flags_of (r || (0 <? class_count M setname_regions sets)%nat)
             (s + class_count M setname_sectors sets)
             (g + class_count M setname_goods sets).
Proof.
  unfold class_count.
  induction sets as [|name rest IH]; intros i nf r s g H.
  - cbn. now rewrite orb_false_r, !Nat.add_0_r.
  - cbn [classify_sets filter].
    rewrite (IH _ _ _ _ _ (classify_set_flags name i nf r s g H)).
    destruct (in_class M setname_regions name);
      destruct (in_class M setname_sectors name);
      destruct (in_class M setname_goods name);
      cbn [b2n List.length Nat.ltb Nat.leb];
      match goal with
      | |- flags_of ?a ?b ?c = flags_of ?a' ?b' ?c' =>
          replace b with b' by lia; replace c with c' by lia;
          replace a with a'; [reflexivity|]
      end;
      destruct r;
      destruct (0 <? List.length (filter (in_class M setname_regions) rest))%nat;
      reflexivity.
Qed.

Lemma classify_set_signs name i nf :
  (0 <= i)%Z ->
  (0 <=? nf_o (classify_set M name i nf))%Z
  = (0 <=? nf_o nf)%Z || is_origin M name
  /\ (0 <=? nf_d (classify_set M name i nf))%Z
     = (0 <=? nf_d nf)%Z || is_destination M name
  /\ (0 <=? nf_g (classify_set M name i nf))%Z
     = (0 <=? nf_g nf)%Z || in_class M setname_goods name.
Proof.
  intros Hi. unfold classify_set, is_origin, is_destination, in_class.
  assert (Ei : (0 <=? i)%Z = true) by now apply Z.leb_le.
  destruct (same_name name setname_regions || issubset M name setname_regions);
    destruct (same_name name setname_sectors
              || issubset M name setname_sectors);
    destruct (same_name name setname_goods || issubset M name setname_goods);
    destruct (same_name name "orig" || same_name name "currency");
    destruct (same_name name "dest" || same_name name "owner");
    cbn [nf_o nf_d nf_g andb]; rewrite ?Ei, ?orb_true_r, ?orb_false_r;
    repeat split; reflexivity.
Qed.

Lemma classify_sets_signs sets : forall i nf,
  (0 <= i)%Z ->
  (0 <=? nf_o (classify_sets M sets i nf))%Z
  = (0 <=? nf_o nf)%Z || existsb (is_origin M) sets
  /\ (0 <=? nf_d (classify_sets M sets i nf))%Z
     = (0 <=? nf_d nf)%Z || existsb (is_destination M) sets
  /\ (0 <=? nf_g (classify_sets M sets i nf))%Z
     = (0 <=? nf_g nf)%Z
       || negb (class_count M setname_goods sets =? 0)%nat.
Proof.
  unfold class_count.
  induction sets as [|name rest IH]; intros i nf Hi.
  - cbn. now rewrite !orb_false_r.
  - cbn [classify_sets existsb filter].
    destruct (IH (i + 1)%Z (classify_set M name i nf)) as (Ho & Hd & Hg);
      [lia|].
    destruct (classify_set_signs name i nf Hi) as (Ho1 & Hd1 & Hg1).
    rewrite Ho, Hd, Hg, Ho1, Hd1, Hg1, !orb_assoc.
    repeat split.
    destruct (in_class M setname_goods name); cbn [List.length Nat.eqb negb];
      now rewrite ?orb_true_r, ?orb_false_r.
Qed.

End NameForms.

(** X19.  The form [setup_pythonname] gives a name depends on its subscripts
    through these facts only: whether a subscript is a region set, how
    many are sector sets and how many are goods sets, and whether an
    origin and a destination are among them.  A name without subscripts
    has the form [o_none]; [REXC] and [EXCH] have the form [o_cu]; a
    name with an origin and a destination has the form [o_do], or
    [o_gdo] with a goods subscript; any other name has the form given by
    the table for a region, at most one sector and at most one goods
    subscript.  The run ends for every other name: one without a region,
    sector or goods subscript, one with two sector or two goods
    subscripts, and one with a sector and a goods subscript but no
    region. *)
Theorem X19_name_form_by_subscripts
        (M : Model) (str : string) (sets : list string) :
  rmap nf_type (setup_pythonname M str sets)
  = if is_bad_form (expected_form M str sets)
    then msg_error "Variable has unexpected type: " str
    else Ok (expected_form M str sets).
Proof.
  destruct sets as [|name rest]; [reflexivity|].
  unfold setup_pythonname, expected_form.
  set (sets := name :: rest).
  set (nf0 := mkNameform o_unk (-1) (-1) (-1) (-1) (-1) 0).
  pose proof (classify_sets_flags M sets 0 nf0 false 0 0 eq_refl) as Hf.
  destruct (classify_sets_signs M sets 0 nf0 (Z.le_refl 0))
    as (Ho & Hd & Hg).
  cbn [nf_o nf_d nf_g nf0 orb Nat.add] in Ho, Hd, Hg, Hf.
  change (0 <=? -1)%Z with false in Ho, Hd, Hg. cbn [orb] in Ho, Hd, Hg.
  cbv zeta. rewrite Ho, Hd.
  replace (nf_g (classify_sets M sets 0 nf0) <? 0)%Z
    with (class_count M setname_goods sets =? 0)%nat
    by (rewrite Z.ltb_antisym, Hg; now destruct (_ =? 0)%nat).
  rewrite Hf.
  destruct (same_name str "REXC" || same_name str "EXCH"); [reflexivity|].
  destruct (existsb (is_origin M) sets && existsb (is_destination M) sets).
  - now destruct (class_count M setname_goods sets =? 0)%nat.
  - destruct (class_count M setname_regions sets) as [|r];
      destruct (class_count M setname_sectors sets) as [|[|[|s]]];
      destruct (class_count M setname_goods sets) as [|[|[|g]]];
      reflexivity.
Qed.

(** ** Brackets of the HTML code text *)

Lemma sum_loop_counts (render : string -> Res string) op lpar rpar
      (braces : bool) :
  (forall ele t, render ele = Ok t -> brackets_match t) ->
  count_char (opening braces) op = count_char (closing braces) op ->
  count_char (opening braces) lpar + count_char (opening braces) rpar
  = count_char (closing braces) lpar + count_char (closing braces) rpar ->
  forall eles buf thisop out,
    count_char (opening braces) thisop = count_char (closing braces) thisop ->
    sum_loop render op lpar rpar eles buf thisop = Ok out ->
    count_char (opening braces) out + count_char (closing braces) buf
    = count_char (closing braces) out + count_char (opening braces) buf.
Proof.
  intros Hrender Hop Hpair.
  induction eles as [|ele rest IH]; intros buf thisop out Hthis; simpl.
  - intros [= <-]. lia.
  - unfold rbind. destruct (render ele) as [rstr|] eqn:E; [|discriminate].
    apply Hrender in E. specialize (E braces). intros H.
    specialize (IH _ _ _ Hop H). revert IH.
    unfold concat. cbn [fold_right].
    destruct braces; unfold opening, closing in *;
      repeat first [ rewrite count_char_app | progress simpl ]; lia.
Qed.

Section HtmlNodeBrackets.

Variable show_symbol :
  string -> list string -> list string -> list string -> Context -> Res string.
Variable begin_func : string -> option string -> Res string.
Variable end_func : Res string.
Variable scalar_sums : bool.
Variable elements : string -> list string.

Hypothesis Hsym : symbols_match show_symbol.
Hypothesis Henv : envelope_matches begin_func end_func.

Lemma HTML_show_node_rec_matches : forall cur prevtype setlist sublist text,
  tokens_match cur ->
  HTML_show_node_rec show_symbol begin_func end_func scalar_sums elements
                     prevtype cur setlist sublist = Ok text ->
  brackets_match text.
Proof.
  fix IH 1.
  intros [ctype cstr cl cr_ cdomain clhs cdt] prevtype setlist sublist text.
  cbn [tokens_match]. intros (Hs & Hl & Hr).
  assert (HL : match cl with
               | Some x =>
                   forall p sets subs t,
                     HTML_show_node_rec show_symbol begin_func end_func
                                        scalar_sums elements
                                        p x sets subs = Ok t ->
                     brackets_match t
               | None => True
               end).
  { destruct cl as [x|]; [|exact I]. intros p sets subs t.
    exact (IH x p sets subs t Hl). }
  assert (HR : match cr_ with
               | Some y =>
                   forall p sets subs t,
                     HTML_show_node_rec show_symbol begin_func end_func
                                        scalar_sums elements
                                        p y sets subs = Ok t ->
                     brackets_match t
               | None => True
               end).
  { destruct cr_ as [y|]; [|exact I]. intros p sets subs t.
    exact (IH y p sets subs t Hr). }
  clear IH. intros H. cbn [HTML_show_node_rec] in H. unfold rbind in H.
  destruct (show_node_parens prevtype ctype) as [parens|]; [|discriminate].
  assert (Hempty : brackets_match "") by (intros []; reflexivity).
  destruct ctype;
    destruct cl as [x|], cr_ as [y|]; cbn [wrap_right_of] in H;
    repeat (crack H; cbv beta iota in H);
    repeat match goal with
           | E : HTML_show_node_rec _ _ _ _ _ _ _ _ _ = Ok _ |- _ =>
               first [ apply HL in E | apply HR in E ]
           | E : show_symbol _ _ _ _ _ = Ok _ |- _ => apply Hsym in E
           end;
    try discriminate H; try assumption;
    try (injection H as <-);
    try match goal with
        | Henv' : envelope_matches ?bf (Ok ?e), Eb : ?bf ?f ?arg = Ok ?b
          |- _ =>
            assert (Hbe : brackets_match (b ++ e))
              by (apply (Henv' f arg b e);
                  [ assumption
                  | first [ intros ? ?; discriminate
                          | intros ? [= E]; rewrite <- E;
                            match goal with
                            | Hx : tokens_match ?x
                              |- brackets_match (str ?x) =>
                                destruct x; exact (proj1 Hx)
                            end ]
                  | exact Eb
                  | reflexivity ])
        end;
    intros braces;
    try match goal with
        | E : sum_loop ?render ?op ?lpar ?rpar ?eles ?buf ?thisop = Ok ?a
          |- _ =>
            pose proof (sum_loop_counts render op lpar rpar braces
                          ltac:(intros ele t Ht;
                                first [ exact (HR _ _ _ _ Ht)
                                      | injection Ht as <-; exact Hempty ])
                          ltac:(destruct braces; reflexivity)
                          ltac:(destruct braces; reflexivity)
                          eles buf thisop a
                          ltac:(destruct braces; reflexivity)
                          E)
        end;
    repeat match goal with
           | Hm : brackets_match _ |- _ => specialize (Hm braces)
           end;
    destruct braces; unfold opening, closing in *;
    repeat match goal with
           | |- context [if ?b then _ else _] => destruct b
           end;
    unfold concat in *; cbn [fold_right] in *;
    repeat first [ rewrite count_char_app in * | progress simpl in * ]; lia.
Qed.

End HtmlNodeBrackets.

Lemma count_replace_char c d w s :
  Ascii.eqb d c = false -> count_char c w = 0 ->
  count_char c (replace_char d w s) = count_char c s.
Proof.
  intros Hne Hw. induction s as [|ch s IH]; [reflexivity|].
  cbn [replace_char count_char].
  destruct (Ascii.eqb ch d) eqn:E.
  - apply Ascii.eqb_eq in E. subst ch.
    rewrite count_char_app, Hw, Hne, IH. reflexivity.
  - cbn [count_char]. now rewrite IH.
Qed.

(** The hooks of the HTML backend open one parenthesis and one brace
    more than they close, and close them at the end. *)
Lemma html_envelope_matches isequal set_index :
  (forall key index, set_index key = Some index -> brackets_match index) ->
  envelope_matches (HTML_begin_func isequal set_index) HTML_end_func.
Proof.
  intros Hidx func arg b e Hf Ha Hb [= <-] braces.
  unfold HTML_begin_func in Hb.
  destruct (isequal func "sum" || isequal func "prod").
  - destruct (set_index arg) as [index|] eqn:Ei; [|discriminate].
    destruct arg as [a|]; [|discriminate].
    unfold str_replace in Hb.
    rewrite (build_after_count_char _ "" a "\_" eq_refl) in Hb.
    cbn [rbind] in Hb. injection Hb as <-.
    specialize (Hidx _ _ Ei braces). specialize (Ha a eq_refl braces).
    specialize (Hf braces).
    assert (Hesc : forall c, In c ["("; ")"; "{"; "}"]%char ->
                     count_char c (replace_char "_" "\_" a)
                     = count_char c a).
    { intros c Hc. apply count_replace_char;
        simpl in Hc; decompose [or] Hc; subst; try reflexivity;
        contradiction. }
    unfold concat. cbn [fold_right].
    destruct braces; unfold opening, closing in *;
      repeat first [ rewrite count_char_app | progress simpl ];
      rewrite !Hesc by (simpl; tauto); lia.
  - destruct arg as [a|]; [discriminate|].
    specialize (Hf braces).
    destruct (isequal func "log"); injection Hb as <-;
      unfold concat; cbn [fold_right];
      destruct braces; unfold opening, closing in *;
      repeat first [ rewrite count_char_app | progress simpl ]; lia.
Qed.

(** X20.  The code text of the HTML backend has matching brackets.  With
    a [show_symbol] hook whose references have as many opening as
    closing parentheses and braces, and [begin_func] and [end_func]
    hooks whose texts together have, the text [HTML_show_node] returns
    for a tree whose tokens have is such a text: the braces and
    parentheses of flagged operands, of quotients, of scalar sums and
    products and of function calls all come in pairs.  The hooks of the
    backend, [HTML_begin_func] and [HTML_end_func], are such a pair
    whenever the set indexes are such texts. *)
Theorem X20_html_code_brackets_match :
  (forall isequal set_index,
      (forall key index, set_index key = Some index ->
                         brackets_match index) ->
      envelope_matches (HTML_begin_func isequal set_index) HTML_end_func)
  /\ forall show_symbol begin_func end_func (scalar_sums : bool) elements
            prevtype cur setlist sublist text,
      symbols_match show_symbol ->
      envelope_matches begin_func end_func ->
      tokens_match cur ->
      HTML_show_node show_symbol begin_func end_func scalar_sums elements
                     prevtype (Some cur) setlist sublist = Ok text ->
      brackets_match text.
Proof.
  split; [exact html_envelope_matches|].
  intros show_symbol begin_func end_func scalar_sums elements prevtype cur
         setlist sublist text Hsym Henv Htok H.
  exact (HTML_show_node_rec_matches show_symbol begin_func end_func
           scalar_sums elements Hsym Henv cur prevtype setlist sublist text
           Htok H).
Qed.

(** The negated quotient of [x] and [x+1]. *)
Lemma X20_html_code_brackets_match_witness :
  brackets_match "{(-\frac{x}{{(x+1)}})}".
Proof.
  refine (proj2 X20_html_code_brackets_match x_symbol
            (HTML_begin_func String.eqb (fun _ => Some "s")) HTML_end_func
            false (fun _ => []) nul minus_quotient [] [] _ _ _ _ eq_refl).
  - intros name dom sets subs ctx text [= <-] []; reflexivity.
  - apply (proj1 X20_html_code_brackets_match).
    intros key index [= <-] []; reflexivity.
  - simpl. repeat split; intros []; reflexivity.
Defined.
